(** * rollup-plugin-rebase: the resolver, its registries and the emitter

    A shallow embedding of [src/index.js].  The plugin keeps three string-keyed
    objects ([wrappers], [assets], [files]) and one variable ([root]); its
    hooks [resolveId], [load] and [generateBundle] are modelled as functions
    that pass this state explicitly and record the calls they make to the
    outside world (file system, hashing, PostCSS) in a trace.

    - The primitives of Node's [path] module that the plugin calls are
      modelled in [Module Path], in their POSIX flavour.  A string is the
      sequence of its bytes; the functions only look for the slash, the dot
      and the backslash.
    - The three objects are finite maps ([gmap]); reads go on to
      [Object.prototype] as they do in JavaScript.  [Object.keys] gives the
      keys in the map's order, not in the order of insertion.
    - The outside world is a record of functions: it does not change while a
      build runs.
    - [resolveId] is given twice: as the whole function, whose calls run one
      after the other, and cut at its two [await]s, for calls that overlap.
    - [rebase] is the head of the plugin's factory: the options with their
      defaults.  The hooks take the options and the outside world as
      parameters, the registries as the state they pass along.

    The file has the definitions first and the proofs after them: the path
    functions, the resolver case by case, the calls that overlap, the
    emitter, then further properties of the hooks and of the three
    predicates. *)

From Stdlib Require Import Ascii String List Bool Arith Lia.
From stdpp Require Import base option list gmap strings.

Import ListNotations.
Open Scope string_scope.

(** ** Node's [path] module (POSIX flavour)

    Paths are strings; the functions below work on their characters.  They
    follow lib/path.js: a path is cut at every forward slash, the empty and
    the single-dot segments are dropped, a double-dot segment removes the
    segment before it. *)

Module Path.

Local Open Scope list_scope.

Abbreviation chars := (list ascii).

Definition slash : ascii := "/"%char.
Definition dot : ascii := "."%char.

Definition is_slash (c : ascii) : bool := Ascii.eqb c slash.
Definition is_dot (c : ascii) : bool := Ascii.eqb c dot.

Definition chars_eqb (a b : chars) : bool := bool_decide (a = b).

(** The segments of a path: the pieces between forward slashes.  There is
    always at least one segment; a leading, trailing or doubled slash gives
    an empty segment. *)
Fixpoint split (p : chars) : list chars :=
  match p with
  | [] => [[]]
  | c :: p' =>
      if is_slash c then [] :: split p'
      else match split p' with
           | s :: ss => (c :: s) :: ss
           | [] => [[c]]
           end
  end.

(** Segments glued back with single slashes. *)
Fixpoint unsplit (ss : list chars) : chars :=
  match ss with
  | [] => []
  | [s] => s
  | s :: ss' => s ++ slash :: unsplit ss'
  end.

Definition dotdot : chars := [dot; dot].

(** One round of the loop of [normalizeString]: [stack] holds the segments
    kept so far, the last one first. *)
Definition norm_step (allowAboveRoot : bool) (stack : list chars) (seg : chars)
  : list chars :=
  if chars_eqb seg [] || chars_eqb seg [dot] then stack
  else if chars_eqb seg dotdot then
    match stack with
    | top :: rest =>
        if chars_eqb top dotdot
        then (if allowAboveRoot then dotdot :: stack else stack)
        else rest
    | [] => if allowAboveRoot then [dotdot] else []
    end
  else seg :: stack.

Definition normalizeString (p : chars) (allowAboveRoot : bool) : chars :=
  unsplit (rev (fold_left (norm_step allowAboveRoot) (split p) [])).

Definition starts_with_slash (p : chars) : bool :=
  match p with c :: _ => is_slash c | [] => false end.

Definition ends_with_slash (p : chars) : bool := starts_with_slash (rev p).

(** [path.normalize]. *)
Definition normalize_chars (p : chars) : chars :=
  match p with
  | [] => [dot]
  | _ =>
      let isAbsolute := starts_with_slash p in
      let trailingSeparator := ends_with_slash p in
      let q := normalizeString p (negb isAbsolute) in
      match q with
      | [] => if isAbsolute then [slash]
              else if trailingSeparator then [dot; slash] else [dot]
      | _ => (if isAbsolute then [slash] else []) ++ q
             ++ (if trailingSeparator then [slash] else [])
      end
  end.

(** The arguments of [path.join] that are not empty, glued with slashes;
    [None] when there is none. *)
Fixpoint joined (args : list chars) : option chars :=
  match args with
  | [] => None
  | a :: rest =>
      match a, joined rest with
      | [], r => r
      | _, None => Some a
      | _, Some r => Some (a ++ slash :: r)
      end
  end.

(** [path.join]. *)
Definition join_chars (args : list chars) : chars :=
  match joined args with
  | None => [dot]
  | Some j => normalize_chars j
  end.

(** The loop of [path.resolve]: arguments are taken from the right until an
    absolute one is met; [rest] lists them right to left, the working
    directory last. *)
Fixpoint resolve_loop (rest : list chars) (resolvedPath : chars) : chars * bool :=
  match rest with
  | [] => (resolvedPath, false)
  | p :: rest' =>
      match p with
      | [] => resolve_loop rest' resolvedPath
      | _ =>
          let resolvedPath' := p ++ slash :: resolvedPath in
          if starts_with_slash p then (resolvedPath', true)
          else resolve_loop rest' resolvedPath'
      end
  end.

(** [path.resolve], with the process's working directory as a parameter. *)
Definition resolve_chars (cwd : chars) (args : list chars) : chars :=
  let '(resolvedPath, resolvedAbsolute) := resolve_loop (rev args ++ [cwd]) [] in
  let q := normalizeString resolvedPath (negb resolvedAbsolute) in
  if resolvedAbsolute then slash :: q
  else match q with [] => [dot] | _ => q end.

Fixpoint drop_while (f : ascii -> bool) (l : chars) : chars :=
  match l with
  | c :: l' => if f c then drop_while f l' else l
  | [] => []
  end.

Fixpoint take_while (f : ascii -> bool) (l : chars) : chars :=
  match l with
  | c :: l' => if f c then c :: take_while f l' else []
  | [] => []
  end.

Definition not_slash (c : ascii) : bool := negb (is_slash c).
Definition not_dot (c : ascii) : bool := negb (is_dot c).

(** [path.dirname]: the scan runs from the last character down to the second
    one, skips the trailing slashes and stops at the slash before the last
    segment. *)
Definition dirname_chars (p : chars) : chars :=
  match p with
  | [] => [dot]
  | c0 :: rest =>
      let hasRoot := is_slash c0 in
      match drop_while not_slash (drop_while is_slash (rev rest)) with
      | [] => if hasRoot then [slash] else [dot]
      | _ :: before =>
          match before with
          | [] => if hasRoot then [slash; slash] else [c0]
          | _ => c0 :: rev before
          end
      end
  end.

(** The last segment of a path, its trailing slashes left out: the part
    both [path.extname] and [path.basename] look at. *)
Definition tail_seg (p : chars) : chars :=
  rev (take_while not_slash (drop_while is_slash (rev p))).

(** The slashes a path ends with. *)
Definition trailing (p : chars) : chars := take_while is_slash (rev p).

(** The extension of one segment: from its last dot on, unless there is no
    dot, the last dot is the segment's first character, or the segment is
    the double dot. *)
Definition ext_of_seg (b : chars) : chars :=
  let r := rev b in
  let e := take_while not_dot r in
  match drop_while not_dot r with
  | [] => []
  | _ :: before =>
      match before with
      | [] => []
      | _ => if chars_eqb b dotdot then [] else dot :: rev e
      end
  end.

(** [path.extname]. *)
Definition extname_chars (p : chars) : chars := ext_of_seg (tail_seg p).

(** [strip_prefix s l] is what is left of [l] after its prefix [s]. *)
Fixpoint strip_prefix (s l : chars) : option chars :=
  match s, l with
  | [], _ => Some l
  | a :: s', b :: l' => if Ascii.eqb a b then strip_prefix s' l' else None
  | _ :: _, [] => None
  end.

(** [strip_suffix s l] is what is left of [l] before its suffix [s]. *)
Definition strip_suffix (s l : chars) : option chars :=
  option_map (@rev ascii) (strip_prefix (rev s) (rev l)).

(** [path.basename] with a suffix.  The backward scan of lib/path.js
    compares the last segment with the suffix from the right:
    - a suffix equal to the whole path gives the empty string;
    - a segment that ends with the suffix loses it, unless the segment is
      the suffix;
    - a segment that runs out while it still agrees with the suffix is
      returned with the slashes that follow it;
    - any other segment is returned whole.
    Lengths are counted in the characters of the model, which are bytes;
    Node counts UTF-16 units, the same number for a path in ASCII. *)
Definition basename_chars (p suffix : chars) : chars :=
  let b := tail_seg p in
  match suffix with
  | [] => b
  | _ =>
      if (length p <? length suffix)%nat then b
      else if chars_eqb suffix p then []
      else match strip_suffix suffix b with
           | Some [] => b
           | Some name => name
           | None =>
               match strip_suffix b suffix with
               | Some _ => b ++ trailing p
               | None => b
               end
           end
  end.

(** The segments that count: the ones that are not empty. *)
Definition segments (p : chars) : list chars :=
  List.filter (fun s => negb (chars_eqb s [])) (split p).

Fixpoint strip_common (a b : list chars) : list chars * list chars :=
  match a, b with
  | x :: a', y :: b' => if chars_eqb x y then strip_common a' b' else (a, b)
  | _, _ => (a, b)
  end.

(** [path.relative]: both paths are resolved, their common leading segments
    dropped; what is left of [from] becomes double dots. *)
Definition relative_chars (cwd from to : chars) : chars :=
  if chars_eqb from to then []
  else
    let f := resolve_chars cwd [from] in
    let t := resolve_chars cwd [to] in
    if chars_eqb f t then []
    else
      let '(fs, ts) := strip_common (segments f) (segments t) in
      unsplit (List.map (fun _ => dotdot) fs ++ ts).

(** *** The same functions on strings *)

Definition of_string : string -> chars := list_ascii_of_string.
Definition to_string : chars -> string := string_of_list_ascii.

Definition extname (p : string) : string :=
  to_string (extname_chars (of_string p)).
Definition basename (p suffix : string) : string :=
  to_string (basename_chars (of_string p) (of_string suffix)).
Definition dirname (p : string) : string :=
  to_string (dirname_chars (of_string p)).
Definition join (args : list string) : string :=
  to_string (join_chars (List.map of_string args)).
Definition resolve (cwd : string) (args : list string) : string :=
  to_string (resolve_chars (of_string cwd) (List.map of_string args)).
Definition relative (cwd from to : string) : string :=
  to_string (relative_chars (of_string cwd) (of_string from) (of_string to)).

End Path.

(** ** JavaScript objects used as maps

    [wrappers], [assets] and [files] are plain objects created by [{}].  Their
    own properties are a finite map; reading a key that is not an own property
    goes on to [Object.prototype]. *)

Module JsObject.

(** The property names of [Object.prototype]. *)
Definition prototype_keys : list string :=
  ["constructor"; "__defineGetter__"; "__defineSetter__"; "hasOwnProperty";
   "__lookupGetter__"; "__lookupSetter__"; "isPrototypeOf";
   "propertyIsEnumerable"; "toString"; "valueOf"; "__proto__";
   "toLocaleString"].

Definition inherited (k : string) : bool := bool_decide (k ∈ prototype_keys).

(** [o[k] != null], for an object whose own values are never null. *)
Definition non_null {V} (o : gmap string V) (k : string) : bool :=
  bool_decide (is_Some (o !! k)) || inherited k.

(** [o[k] = v] for a primitive [v]: the setter of [__proto__] ignores it,
    every other key becomes (or stays) an own property. *)
Definition set {V} (o : gmap string V) (k : string) (v : V) : gmap string V :=
  if bool_decide (k = "__proto__") then o else <[k := v]> o.

(** [Boolean(o[k])]: an own value counts when it is truthy; the members of
    [Object.prototype] are functions and objects, which always are. *)
Definition truthy_at {V} (truthyValue : V -> bool) (o : gmap string V) (k : string)
  : bool :=
  match o !! k with
  | Some v => truthyValue v
  | None => inherited k
  end.

(** [Object.keys(o)], as a list without an order one can rely on. *)
Definition keys {V} (o : gmap string V) : list string := (map_to_list o).*1.

End JsObject.

(** ** Errors and settled promises *)

Inductive JsError : Type :=
  | TypeError (code : string)      (* thrown by Node on an argument of the wrong type *)
  | Failure (text : string)        (* rejection of an outside primitive, as it prints *)
  | Error (message : string).      (* [new Error(message)] *)

(** The text of [`${error}`].  For a [TypeError] of Node the text goes on
    after the code with a colon and a message, whose wording depends on the
    argument and on the version of Node; the model stops at the code. *)
Definition render (e : JsError) : string :=
  match e with
  | TypeError code => "TypeError [" ++ code ++ "]"
  | Failure text => text
  | Error message => "Error: " ++ message
  end.

Inductive Settled (A : Type) : Type :=
  | Fulfilled (a : A)
  | Rejected (e : JsError).
Arguments Fulfilled {A} a.
Arguments Rejected {A} e.

(** ** Configuration and outside world *)

Inductive Parser : Type := postcssSugarSS | postcssScss | postcssSass.

(** The object [styleParser], key by key; [None] stands for [null]. *)
Definition styleParserTable : list (string * option Parser) :=
  [(".pcss", None); (".css", None); (".sss", Some postcssSugarSS);
   (".scss", Some postcssScss); (".sass", Some postcssSass)].

(** [styleParser[ext]]: [None] for an extension that is not a key, [Some None]
    for a key whose value is [null]. *)
Definition styleParser (ext : string) : option (option Parser) :=
  option_map snd (List.find (fun entry => String.eqb (fst entry) ext) styleParserTable).

(** The two PostCSS plugins, the second with its options. *)
Inductive Plugin : Type :=
  | postcssImport
  | postcssSmartAsset (url : string) (useHash keepName : bool).

Definition getPostCssPlugins (keepName skipHash : bool) : list Plugin :=
  [postcssImport; postcssSmartAsset "copy" (negb skipHash) keepName].

(** The options object given to [processor.process]. *)
Record ProcessOptions : Type := {
  from : string;
  to : string;
  extensions : list string;
  map_inline : bool;
  parser : option Parser;
}.

(** [scriptExtensions.test(ext)] for [/^\.(json|mjs|js|jsx|ts|tsx)$/]. *)
Definition scriptExtensions (ext : string) : bool :=
  bool_decide (ext ∈ [".json"; ".mjs"; ".js"; ".jsx"; ".ts"; ".tsx"]).

(** The options of [rebase(options)]; [filter] is what
    [createFilter(include, exclude)] returns. *)
Record Options : Type := {
  filter : string -> bool;
  verbose : bool;
  keepName : bool;
  skipHash : bool;
  assetFolder : string;
}.

(** The object handed to [rebase(options)], as the caller wrote it: a
    property that is left out is [None]. *)
Module Given.

Record t (Pattern : Type) : Type := {
  include : option Pattern;
  exclude : option Pattern;
  verbose : option bool;
  keepName : option bool;
  skipHash : option bool;
  assetFolder : option string;
}.
Arguments include {Pattern} _.
Arguments exclude {Pattern} _.
Arguments verbose {Pattern} _.
Arguments keepName {Pattern} _.
Arguments skipHash {Pattern} _.
Arguments assetFolder {Pattern} _.

(** [{}], the default of [options]. *)
Definition nothing {Pattern : Type} : t Pattern :=
  {| include := None; exclude := None; verbose := None; keepName := None;
     skipHash := None; assetFolder := None |}.

End Given.

(** The head of [rebase(options = {})]: the destructuring with its defaults,
    and the filter made of [include] and [exclude]. *)
Definition rebase {Pattern : Type}
    (createFilter : option Pattern -> option Pattern -> string -> bool)
    (options : option (Given.t Pattern)) : Options :=
  let options := default Given.nothing options in
  {| filter := createFilter (Given.include options) (Given.exclude options);
     verbose := default false (Given.verbose options);
     keepName := default false (Given.keepName options);
     skipHash := default false (Given.skipHash options);
     assetFolder := default "" (Given.assetFolder options) |}.

(** What the plugin consumes from outside: the working directory, the file
    system, the hash of a file and the PostCSS run.  Each is a function of its
    arguments: the outside world does not change during a build. *)
Record World : Type := {
  cwd : string;
  pathExists : string -> bool;
  getHash : string -> Settled string;
  readFile : string -> Settled string;
  postcssProcess : list Plugin -> string -> ProcessOptions -> Settled (string * string);
  outputFile : string -> string -> Settled unit;
  copy : string -> string -> Settled unit;
}.

(** The calls made to the outside, in the order the model makes them. *)
Inductive Call : Type :=
  | CallPathExists (file : string)
  | CallGetHash (file : string)
  | CallLog (text : string)
  | CallReadFile (file : string)
  | CallProcess (plugins : list Plugin) (text : string) (options : ProcessOptions)
  | CallOutputFile (file content : string)
  | CallCopy (src dest : string).

(** ** The plugin's state *)

Record Registry : Type := {
  wrappers : gmap string string;
  assets : gmap string bool;
  files : gmap string string;
  root : option string;
}.

Definition fresh : Registry :=
  {| wrappers := ∅; assets := ∅; files := ∅; root := None |}.

Definition set_root (r : string) (st : Registry) : Registry :=
  {| wrappers := wrappers st; assets := assets st; files := files st; root := Some r |}.
Definition set_file (k v : string) (st : Registry) : Registry :=
  {| wrappers := wrappers st; assets := assets st;
     files := JsObject.set (files st) k v; root := root st |}.
Definition set_asset (k : string) (st : Registry) : Registry :=
  {| wrappers := wrappers st; assets := JsObject.set (assets st) k true;
     files := files st; root := root st |}.
Definition set_wrapper (k v : string) (st : Registry) : Registry :=
  {| wrappers := JsObject.set (wrappers st) k v; assets := assets st;
     files := files st; root := root st |}.

(** What [resolveId] gives back: [null], [false], a string, or a rejection. *)
Inductive Resolution : Type :=
  | NotHandled
  | Excluded
  | Handled (resolvedId : string)
  | Thrown (e : JsError).

(** [s.replace(/\\/g, "/")]. *)
Definition backslash : ascii := Ascii.ascii_of_nat 92.

Fixpoint replace_backslashes (s : string) : string :=
  match s with
  | EmptyString => EmptyString
  | String c s' =>
      String (if Ascii.eqb c backslash then "/"%char else c) (replace_backslashes s')
  end.

(** [s.replace("\\", "/")]: only the first one. *)
Fixpoint replace_first_backslash (s : string) : string :=
  match s with
  | EmptyString => EmptyString
  | String c s' =>
      if Ascii.eqb c backslash then String "/"%char s'
      else String c (replace_first_backslash s')
  end.

(** A string is truthy unless it is empty. *)
Definition nonEmpty (s : string) : bool := negb (String.eqb s "").

(** A falsy [importer]: [undefined], [null] or the empty string. *)
Definition truthy (importer : option string) : option string :=
  match importer with
  | Some EmptyString => None
  | other => other
  end.

(** ** The resolver

    [M] threads the registries through a hook and collects the calls it makes
    to the outside. *)

Definition M (A : Type) : Type := Registry -> A * Registry * list Call.

Global Instance M_ret : MRet M := fun A a st => (a, st, []).
Global Instance M_bind : MBind M := fun A B f m st =>
  let '(a, st1, c1) := m st in
  let '(b, st2, c2) := f a st1 in
  (b, st2, (c1 ++ c2)%list).

Definition get : M Registry := fun st => (st, st, []).
Definition modify (f : Registry -> Registry) : M unit := fun st => (tt, f st, []).
(** A call to the outside: it is recorded, and the answer is the world's. *)
Definition call {A} (c : Call) (answer : A) : M A := fun st => (answer, st, [c]).

Definition quote : string := String (Ascii.ascii_of_nat 34) EmptyString.

Section Plugin.

Variable opts : Options.
Variable world : World.

(** [rootRelative(file)]; [None] when [root] is still [null] and
    [path.relative] throws. *)
Definition rootRelative (st : Registry) (file : string) : option string :=
  match root st with
  | Some r => Some (replace_first_backslash (Path.relative (cwd world) r file))
  | None => None
  end.

Definition isRebaseWrapper (st : Registry) (wrapperId : string) : bool :=
  JsObject.truthy_at nonEmpty (wrappers st) wrapperId.
Definition isRebaseAsset (st : Registry) (assetId : string) : bool :=
  JsObject.truthy_at (fun b : bool => b) (assets st) assetId.
Definition isRebaseSource (st : Registry) (fileSource : string) : bool :=
  JsObject.truthy_at nonEmpty (files st) fileSource.

(** The name of the relocated file, once the hash (if any) is known. *)
Definition targetName (fileName fileExt : string) (fileHash : option string) : string :=
  match fileHash with
  | None => fileName ++ fileExt
  | Some h =>
      if keepName opts then fileName ++ "~" ++ h ++ fileExt
      else h ++ fileExt
  end.

Definition resolveId (importee : string) (importer : option string) : M Resolution :=
  match truthy importer with
  | None =>
      modify (set_root (Path.dirname (Path.resolve (cwd world) [importee])));;
      mret NotHandled
  | Some importer =>
      st ← get;
      if JsObject.non_null (assets st) importee then mret Excluded else
      let fileExt := Path.extname importee in
      if String.eqb fileExt "" || scriptExtensions fileExt then mret NotHandled else
      let fileExt := if String.eqb fileExt ".sss" then ".pcss" else fileExt in
      let fileSource := Path.resolve (cwd world) [Path.dirname importer; importee] in
      if negb (filter opts fileSource) then mret NotHandled else
      found ← call (CallPathExists fileSource) (pathExists world fileSource);
      if negb found then mret NotHandled else
      let fileName := Path.basename importee fileExt in
      hashed ← (if skipHash opts then mret (Fulfilled None)
                else h ← call (CallGetHash fileSource) (getHash world fileSource);
                     mret (match h with
                           | Fulfilled fileHash => Fulfilled (Some fileHash)
                           | Rejected e => Rejected e
                           end));
      match hashed with
      | Rejected e => mret (Thrown e)
      | Fulfilled fileHash =>
          let fileTarget := targetName fileName fileExt fileHash in
          modify (set_file fileSource (Path.join [assetFolder opts; fileTarget]));;
          st ← get;
          match root st with
          | None => mret (Thrown (TypeError "ERR_INVALID_ARG_TYPE"))
          | Some r =>
              let assetId :=
                replace_backslashes (Path.join [r; assetFolder opts; fileTarget]) in
              let resolvedId := assetId ++ ".js" in
              modify (set_asset assetId);;
              modify (set_wrapper resolvedId assetId);;
              mret (Handled resolvedId)
          end
      end
  end.

(** [load(id)].  For a key inherited from [Object.prototype] the text that
    is interpolated is the engine's print of that member. *)
Definition load (inheritedText : string -> string) (st : Registry) (id : string)
  : option string :=
  match wrappers st !! id with
  | Some importee => Some ("export { default } from " ++ quote ++ importee ++ quote ++ ";")
  | None =>
      if JsObject.inherited id
      then Some ("export { default } from " ++ quote ++ inheritedText id ++ quote ++ ";")
      else None
  end.

(** A build: the hook is called once per reference, one call after the
    other. *)
Definition Request : Type := string * option string.

Fixpoint resolveAll (reqs : list Request) : M (list Resolution) :=
  match reqs with
  | [] => mret []
  | (importee, importer) :: rest =>
      r ← resolveId importee importer;
      rs ← resolveAll rest;
      mret (r :: rs)
  end.

(** The registries a build can be in. *)
Inductive reachable : Registry -> Prop :=
  | reachable_fresh : reachable fresh
  | reachable_step st importee importer :
      reachable st -> reachable (resolveId importee importer st).1.2.

End Plugin.

(** ** Suspension points

    [resolveId] is an async function: it gives way at [await fs.pathExists]
    and at [await getHash], and other calls of the hook may run before it goes
    on.  The pieces below are what runs without interruption; [Suspended]
    holds the local variables that live across an [await]. *)

Record Suspended : Type := {
  heldImportee : string;
  heldFileExt : string;
  heldFileSource : string;
}.

Section Pieces.

Variable opts : Options.
Variable world : World.

(** From the call to the first [await], or to an earlier [return]. *)
Definition enter (importee : string) (importer : option string)
  : M (Resolution + Suspended) :=
  match truthy importer with
  | None =>
      modify (set_root (Path.dirname (Path.resolve (cwd world) [importee])));;
      mret (inl NotHandled)
  | Some importer =>
      st ← get;
      if JsObject.non_null (assets st) importee then mret (inl Excluded) else
      let fileExt := Path.extname importee in
      if String.eqb fileExt "" || scriptExtensions fileExt then mret (inl NotHandled) else
      let fileExt := if String.eqb fileExt ".sss" then ".pcss" else fileExt in
      let fileSource := Path.resolve (cwd world) [Path.dirname importer; importee] in
      if negb (filter opts fileSource) then mret (inl NotHandled) else
      call (CallPathExists fileSource) tt;;
      mret (inr {| heldImportee := importee; heldFileExt := fileExt;
                   heldFileSource := fileSource |})
  end.

(** From the hash (if any) to the [return]: the registrations. *)
Definition register (k : Suspended) (fileHash : option string) : M Resolution :=
  let fileName := Path.basename (heldImportee k) (heldFileExt k) in
  let fileTarget := targetName opts fileName (heldFileExt k) fileHash in
  modify (set_file (heldFileSource k) (Path.join [assetFolder opts; fileTarget]));;
  st ← get;
  match root st with
  | None => mret (Thrown (TypeError "ERR_INVALID_ARG_TYPE"))
  | Some r =>
      let assetId := replace_backslashes (Path.join [r; assetFolder opts; fileTarget]) in
      let resolvedId := assetId ++ ".js" in
      modify (set_asset assetId);;
      modify (set_wrapper resolvedId assetId);;
      mret (Handled resolvedId)
  end.

(** From the answer of [fs.pathExists] to the second [await], or to the end
    when no hash is asked for. *)
Definition resumeFound (k : Suspended) (found : bool) : M (Resolution + Suspended) :=
  if negb found then mret (inl NotHandled)
  else if skipHash opts then r ← register k None; mret (inl r)
  else call (CallGetHash (heldFileSource k)) tt;; mret (inr k).

(** From the answer of [getHash] to the end. *)
Definition resumeHashed (k : Suspended) (h : Settled string) : M Resolution :=
  match h with
  | Rejected e => mret (Thrown e)
  | Fulfilled fileHash => register k (Some fileHash)
  end.

(** A call that is waiting for an answer. *)
Inductive Task : Type :=
  | AwaitPathExists (k : Suspended)
  | AwaitGetHash (k : Suspended).

(** A waiting call goes on with the world's answer: the registry it leaves,
    and the task it becomes if it has to wait again. *)
Definition advance (t : Task) (st : Registry) : Registry * option Task :=
  match t with
  | AwaitPathExists k =>
      match resumeFound k (pathExists world (heldFileSource k)) st with
      | (inl _, st', _) => (st', None)
      | (inr k', st', _) => (st', Some (AwaitGetHash k'))
      end
  | AwaitGetHash k =>
      ((resumeHashed k (getHash world (heldFileSource k)) st).1.2, None)
  end.

(** What the host can bring about: it calls the hook at any time, and any
    waiting call goes on at any time. *)
Inductive interleaved : Registry -> list Task -> Prop :=
  | interleaved_fresh : interleaved fresh []
  | interleaved_call st tasks importee importer :
      interleaved st tasks ->
      interleaved (enter importee importer st).1.2
        (match (enter importee importer st).1.1 with
         | inl _ => tasks
         | inr k => AwaitPathExists k :: tasks
         end)
  | interleaved_resume st before t after :
      interleaved st (before ++ t :: after)%list ->
      interleaved (advance t st).1
        (before ++ match (advance t st).2 with
                   | Some t' => t' :: after
                   | None => after
                   end)%list.

End Pieces.

(** ** The emitter

    [E] is a promise that has run: the calls it made, and how it settled. *)

Definition E (A : Type) : Type := list Call * Settled A.

Global Instance E_ret : MRet E := fun A a => ([], Fulfilled a).
Global Instance E_bind : MBind E := fun A B f m =>
  match m with
  | (c1, Fulfilled a) => let '(c2, r) := f a in ((c1 ++ c2)%list, r)
  | (c1, Rejected e) => (c1, Rejected e)
  end.

(** [await] of a call to the outside. *)
Definition await {A} (c : Call) (answer : Settled A) : E A := ([c], answer).
Definition throw {A} (e : JsError) : E A := ([], Rejected e).

(** [Promise.all]: every promise runs to its end; the result is rejected with
    the first rejection.  Which rejection comes first in time is not
    modelled, the list order stands for it; so does the order of the calls,
    those of one promise being listed before those of the next. *)
Fixpoint promiseAll (ps : list (E unit)) : E unit :=
  match ps with
  | [] => ([], Fulfilled tt)
  | (c, r) :: rest =>
      let '(cs, rs) := promiseAll rest in
      ((c ++ cs)%list,
       match r with
       | Rejected e => Rejected e
       | Fulfilled _ => rs
       end)
  end.

Section Emitter.

Variable opts : Options.
Variable world : World.

(** The options [processStyle] hands to PostCSS for the file [id]. *)
Definition processOptions (id fileDest : string) : ProcessOptions :=
  {| from := id;
     to := fileDest;
     extensions := List.map fst styleParserTable;
     map_inline := false;
     parser := default None (styleParser (Path.extname id)) |}.

Definition processStyle (id fileDest : string) (keepName skipHash : bool) : E unit :=
  content ← await (CallReadFile id) (readFile world id);
  let processor := getPostCssPlugins keepName skipHash in
  let text := content in
  let options := processOptions id fileDest in
  result ← await (CallProcess processor text options)
                 (postcssProcess world processor text options);
  promiseAll
    [ await (CallOutputFile fileDest result.1) (outputFile world fileDest result.1);
      await (CallOutputFile (fileDest ++ ".map") result.2)
            (outputFile world (fileDest ++ ".map") result.2) ].

(** [console.log] of one action, when [verbose]. *)
Definition logAction (st : Registry) (verb fileSource fileDest : string) : E unit :=
  if verbose opts then
    match rootRelative world st fileSource, rootRelative world st fileDest with
    | Some a, Some b =>
        await (CallLog (verb ++ " " ++ a ++ " => " ++ b ++ "...")) (Fulfilled tt)
    | _, _ => throw (TypeError "ERR_INVALID_ARG_TYPE")
    end
  else mret tt.

(** The body run for one key of [files].  The test [fileExt in styleParser]
    looks at the table's own keys: [path.extname] never returns a property
    name of [Object.prototype] (lemma [extname_not_inherited]). *)
Definition emitOne (st : Registry) (outputFolder fileSource : string) : E unit :=
  match files st !! fileSource with
  | None => throw (TypeError "ERR_INVALID_ARG_TYPE")
  | Some relative =>
      let fileDest := Path.join [outputFolder; relative] in
      let fileExt := Path.extname fileSource in
      if bool_decide (is_Some (styleParser fileExt)) then
        logAction st "Processing" fileSource fileDest;;
        processStyle fileSource fileDest (keepName opts) (skipHash opts)
      else
        logAction st "Copying" fileSource fileDest;;
        await (CallCopy fileSource fileDest) (copy world fileSource fileDest)
  end.

(** [dir || path.dirname(file)]; [None] when [path.dirname] throws on an
    [undefined] file. *)
Definition outputFolderOf (file dir : option string) : option string :=
  match truthy dir with
  | Some d => Some d
  | None => option_map Path.dirname file
  end.

(** [generateBundle({ file, dir })]. *)
Definition generateBundle (file dir : option string) (st : Registry) : E unit :=
  match outputFolderOf file dir with
  | None => throw (TypeError "ERR_INVALID_ARG_TYPE")
  | Some outputFolder =>
      match promiseAll (List.map (emitOne st outputFolder) (JsObject.keys (files st))) with
      | (calls, Rejected error) =>
          (calls, Rejected (Error ("Error while copying files: " ++ render error)))
      | done => done
      end
  end.

End Emitter.

(** ** Vocabulary for statements about paths *)

Definition slashfree (b : list ascii) : Prop :=
  Forall (fun c => Path.is_slash c = false) b.

Definition only_slashes (tr : list ascii) : Prop :=
  Forall (fun c => Path.is_slash c = true) tr.

Definition dotfree (x : list ascii) : Prop :=
  Forall (fun c => Path.is_dot c = false) x.

(** What can stand before a segment: nothing, or something that ends with a
    slash. *)
Definition boundary (pre : list ascii) : Prop :=
  pre = [] \/ exists pre', pre = (pre' ++ [Path.slash])%list.

(** [p] ends with the segment [b], up to trailing slashes. *)
Definition ends_in (p b : list ascii) : Prop :=
  exists pre tr, p = (pre ++ b ++ tr)%list /\ boundary pre /\ only_slashes tr.

(** [p] ends with the segment [b], no slash after it. *)
Definition ends_exactly (p b : list ascii) : Prop :=
  exists pre, p = (pre ++ b)%list /\ boundary pre.

(** A segment that [normalizeString] keeps. *)
Definition kept (b : list ascii) : Prop :=
  b <> [] /\ b <> [Path.dot] /\ b <> Path.dotdot /\ slashfree b.

(** The unfinished segment a string ends with. *)
Definition last_piece (X : list ascii) : list ascii :=
  rev (Path.take_while Path.not_slash (rev X)).

(** The shape of an extension: a dot, then characters that are neither dots
    nor slashes. *)
Definition ext_shaped (e : list ascii) : Prop :=
  exists x, e = Path.dot :: x /\ dotfree x /\ slashfree x.

(** What [path.basename] makes of a last segment when the suffix is no longer
    than the segment and is not the segment itself. *)
Definition base_of_seg (b s : list ascii) : list ascii :=
  match Path.strip_suffix s b with
  | Some [] => b
  | Some name => name
  | None => b
  end.

(** The last segment of a path given as a string. *)
Definition seg (p : string) : list ascii := Path.tail_seg (Path.of_string p).

(** [path.isAbsolute]. *)
Definition isAbsolute (p : string) : bool := Path.starts_with_slash (Path.of_string p).

Definition ends_with (s suffix : string) : Prop := exists pre, s = pre ++ suffix.

(** ** Vocabulary for statements about the plugin *)

(** The extension used for naming: [.sss] becomes [.pcss]. *)
Definition effectiveExt (fileExt : string) : string :=
  if String.eqb fileExt ".sss" then ".pcss" else fileExt.

(** [path.resolve(path.dirname(importer), importee)]. *)
Definition sourceOf (world : World) (importer importee : string) : string :=
  Path.resolve (cwd world) [Path.dirname importer; importee].

Section Specification.

Variable opts : Options.
Variable world : World.

(** A request gets as far as the hash when its referrer is there, its path is
    not a claimed id, has an extension outside the script family, passes the
    filter and exists. *)
Definition eligible (st : Registry) (importee : string) (i : string) : Prop :=
  JsObject.non_null (assets st) importee = false /\
  Path.extname importee <> "" /\
  scriptExtensions (Path.extname importee) = false /\
  filter opts (sourceOf world i importee) = true /\
  pathExists world (sourceOf world i importee) = true.

(** The hash a request ends up with, and the calls made on the way. *)
Definition hashed (src : string) (fileHash : option string) (calls : list Call) : Prop :=
  if skipHash opts
  then fileHash = None /\ calls = [CallPathExists src]
  else exists h, getHash world src = Fulfilled h /\ fileHash = Some h /\
                 calls = [CallPathExists src; CallGetHash src].

Definition targetOf (importee : string) (fileHash : option string) : string :=
  let fileExt := effectiveExt (Path.extname importee) in
  targetName opts (Path.basename importee fileExt) fileExt fileHash.

Definition assetIdOf (r fileTarget : string) : string :=
  replace_backslashes (Path.join [r; assetFolder opts; fileTarget]).

(** Every way a call of [resolveId] can go. *)
Inductive outcome (st : Registry) (importee : string) (importer : option string)
  : Resolution -> Registry -> list Call -> Prop :=
  | outcome_entry :
      truthy importer = None ->
      outcome st importee importer NotHandled
        (set_root (Path.dirname (Path.resolve (cwd world) [importee])) st) []
  | outcome_claimed i :
      truthy importer = Some i ->
      JsObject.non_null (assets st) importee = true ->
      outcome st importee importer Excluded st []
  | outcome_script i :
      truthy importer = Some i ->
      JsObject.non_null (assets st) importee = false ->
      Path.extname importee = "" \/ scriptExtensions (Path.extname importee) = true ->
      outcome st importee importer NotHandled st []
  | outcome_filtered i :
      truthy importer = Some i ->
      JsObject.non_null (assets st) importee = false ->
      Path.extname importee <> "" ->
      scriptExtensions (Path.extname importee) = false ->
      filter opts (sourceOf world i importee) = false ->
      outcome st importee importer NotHandled st []
  | outcome_missing i :
      truthy importer = Some i ->
      JsObject.non_null (assets st) importee = false ->
      Path.extname importee <> "" ->
      scriptExtensions (Path.extname importee) = false ->
      filter opts (sourceOf world i importee) = true ->
      pathExists world (sourceOf world i importee) = false ->
      outcome st importee importer NotHandled st [CallPathExists (sourceOf world i importee)]
  | outcome_unhashed i e :
      truthy importer = Some i ->
      eligible st importee i ->
      skipHash opts = false ->
      getHash world (sourceOf world i importee) = Rejected e ->
      outcome st importee importer (Thrown e) st
        [CallPathExists (sourceOf world i importee); CallGetHash (sourceOf world i importee)]
  | outcome_rootless i fileHash calls :
      truthy importer = Some i ->
      eligible st importee i ->
      hashed (sourceOf world i importee) fileHash calls ->
      root st = None ->
      outcome st importee importer (Thrown (TypeError "ERR_INVALID_ARG_TYPE"))
        (set_file (sourceOf world i importee)
           (Path.join [assetFolder opts; targetOf importee fileHash]) st)
        calls
  | outcome_handled i fileHash calls r :
      truthy importer = Some i ->
      eligible st importee i ->
      hashed (sourceOf world i importee) fileHash calls ->
      root st = Some r ->
      let assetId := assetIdOf r (targetOf importee fileHash) in
      outcome st importee importer (Handled (assetId ++ ".js"))
        (set_wrapper (assetId ++ ".js") assetId
           (set_asset assetId
              (set_file (sourceOf world i importee)
                 (Path.join [assetFolder opts; targetOf importee fileHash]) st)))
        calls.

(** The hash that goes into the name of [src]: none without hashing, the
    world's otherwise. *)
Definition hashOf (src : string) (fileHash : option string) : Prop :=
  if skipHash opts then fileHash = None
  else exists h, getHash world src = Fulfilled h /\ fileHash = Some h.

(** Every record of [files] was computed from its key. *)
Definition recorded (st : Registry) : Prop :=
  forall src d,
    files st !! src = Some d ->
    Path.extname src <> "" /\
    exists fileHash,
      hashOf src fileHash
      /\ d = Path.join [assetFolder opts; targetOf src fileHash].

(** The local variables of a waiting call are what [enter] computed from a
    reference with an extension. *)
Definition held (k : Suspended) : Prop :=
  exists i,
    Path.extname (heldImportee k) <> ""
    /\ heldFileExt k = effectiveExt (Path.extname (heldImportee k))
    /\ heldFileSource k = sourceOf world i (heldImportee k).

(** A call waits for a hash only when hashing is on. *)
Definition task_held (t : Task) : Prop :=
  match t with
  | AwaitPathExists k => held k
  | AwaitGetHash k => held k /\ skipHash opts = false
  end.

(** What the emitter does for one asset once the log line is out. *)
Definition emitBody (outputFolder fileSource relative : string) : E unit :=
  let fileDest := Path.join [outputFolder; relative] in
  if bool_decide (is_Some (styleParser (Path.extname fileSource))) then
    processStyle world fileSource fileDest (keepName opts) (skipHash opts)
  else
    await (CallCopy fileSource fileDest) (copy world fileSource fileDest).

End Specification.

(** Every redirect record points at a claimed asset id. *)
Definition registry_invariant (st : Registry) : Prop :=
  forall resolvedId assetId,
    wrappers st !! resolvedId = Some assetId -> assets st !! assetId = Some true.

(** The root, once set, is an absolute path. *)
Definition rooted (st : Registry) : Prop :=
  forall r, root st = Some r -> isAbsolute r = true.

(** The number of times the hash of [src] is computed in a trace. *)
Definition hashComputations (src : string) (calls : list Call) : nat :=
  length (List.filter
            (fun c => match c with CallGetHash f => String.eqb f src | _ => false end)
            calls).

Definition is_alnum (c : ascii) : bool :=
  let n := nat_of_ascii c in
  (((48 <=? n) && (n <=? 57)) || ((65 <=? n) && (n <=? 90))
   || ((97 <=? n) && (n <=? 122)))%nat.

(** A hash as [asset-hash] prints it: not empty, letters and digits only. *)
Definition wellformedHash (h : string) : bool :=
  negb (String.eqb h "") && forallb is_alnum (Path.of_string h).

Definition alnums (h : list ascii) : Prop := Forall (fun c => is_alnum c = true) h.

Definition tilde : ascii := "~"%char.

Definition isLog (c : Call) : bool :=
  match c with CallLog _ => true | _ => false end.

(** The calls of a trace that touch the outside: all but the log lines. *)
Definition effects (calls : list Call) : list Call :=
  List.filter (fun c => negb (isLog c)) calls.

(** The stage an asset's emission is in. *)
Inductive Stage : Type := Copying | Processing.

(** ** Vocabulary for further properties *)

(** A file the resolver takes for an asset: its extension is there and
    outside the script family, and the filter lets it through. *)
Definition candidate (opts : Options) (file : string) : Prop :=
  Path.extname file <> ""
  /\ scriptExtensions (Path.extname file) = false
  /\ filter opts file = true.

(** The calls the resolver is seen to make: it asks whether a candidate
    exists, and, with hashing on, for the hash of a candidate that does. *)
Definition probe (opts : Options) (world : World) (c : Call) : Prop :=
  match c with
  | CallPathExists file => candidate opts file
  | CallGetHash file =>
      candidate opts file /\ skipHash opts = false /\ pathExists world file = true
  | _ => False
  end.

(** A path is located when it is absolute, as far as the working directory
    of the process is. *)
Definition located (world : World) (file : string) : Prop :=
  isAbsolute (cwd world) = true -> isAbsolute file = true.

(** What a waiting call has checked of the file it holds. *)
Definition checked (opts : Options) (world : World) (t : Task) : Prop :=
  match t with
  | AwaitPathExists k =>
      candidate opts (heldFileSource k) /\ located world (heldFileSource k)
  | AwaitGetHash k =>
      candidate opts (heldFileSource k) /\ located world (heldFileSource k)
      /\ pathExists world (heldFileSource k) = true
  end.

(** Every file with a copy job is a located candidate that exists. *)
Definition vetted (opts : Options) (world : World) (st : Registry) : Prop :=
  forall src dest,
    files st !! src = Some dest ->
    candidate opts src /\ located world src /\ pathExists world src = true.

(** [wrappers] and [assets] mirror each other: a wrapper's key is its value
    followed by [.js], the value is not empty, and every asset id is recorded
    as [true] and has its wrapper. *)
Definition mirrored (st : Registry) : Prop :=
  (forall id assetId,
      wrappers st !! id = Some assetId -> id = assetId ++ ".js" /\ assetId <> "")
  /\ (forall assetId b,
        assets st !! assetId = Some b ->
        b = true /\ wrappers st !! (assetId ++ ".js") = Some assetId).


(** Where a call of the emitter comes from: the registry [files], the output
    folder and, for what is written, the PostCSS run on a registered style
    sheet.  A line is printed for a registered file, with the two paths made
    relative to the root. *)
Definition emitted (opts : Options) (world : World) (st : Registry)
    (outputFolder : string) (c : Call) : Prop :=
  match c with
  | CallLog text =>
      verbose opts = true
      /\ exists src relative a b,
           files st !! src = Some relative
           /\ rootRelative world st src = Some a
           /\ rootRelative world st (Path.join [outputFolder; relative]) = Some b
           /\ text = (if bool_decide (is_Some (styleParser (Path.extname src)))
                      then "Processing" else "Copying")
                     ++ " " ++ a ++ " => " ++ b ++ "..."
  | CallCopy src dest =>
      styleParser (Path.extname src) = None
      /\ exists relative,
           files st !! src = Some relative /\ dest = Path.join [outputFolder; relative]
  | CallReadFile src =>
      is_Some (files st !! src) /\ is_Some (styleParser (Path.extname src))
  | CallProcess plugins text options =>
      plugins = getPostCssPlugins (keepName opts) (skipHash opts)
      /\ exists src relative,
           files st !! src = Some relative
           /\ readFile world src = Fulfilled text
           /\ options = processOptions src (Path.join [outputFolder; relative])
  | CallOutputFile file content =>
      exists src relative text css map,
        let fileDest := Path.join [outputFolder; relative] in
        files st !! src = Some relative
        /\ is_Some (styleParser (Path.extname src))
        /\ readFile world src = Fulfilled text
        /\ postcssProcess world (getPostCssPlugins (keepName opts) (skipHash opts))
             text (processOptions src fileDest) = Fulfilled (css, map)
        /\ ((file = fileDest /\ content = css)
            \/ (file = fileDest ++ ".map" /\ content = map))
  | CallPathExists _ | CallGetHash _ => False
  end.

(** The name a file is registered under, cut before its extension. *)
Definition targetStem (opts : Options) (s : string) (fileHash : option string)
  : list ascii :=
  let B := Path.of_string (Path.basename s (effectiveExt (Path.extname s))) in
  match fileHash with
  | None => B
  | Some h =>
      if keepName opts then (B ++ [tilde] ++ Path.of_string h)%list
      else Path.of_string h
  end.

(** ** Sample builds *)

Definition sampleOptions : Options :=
  {| filter := fun _ => true; verbose := false; keepName := false;
     skipHash := false; assetFolder := "static" |}.

(** The same options with hashing switched off. *)
Definition plainOptions : Options :=
  {| filter := fun _ => true; verbose := false; keepName := false;
     skipHash := true; assetFolder := "static" |}.

(** The same options with the name kept beside the hash. *)
Definition namedOptions : Options :=
  {| filter := fun _ => true; verbose := false; keepName := true;
     skipHash := false; assetFolder := "static" |}.

(** The same options with printing switched on. *)
Definition loudOptions : Options :=
  {| filter := fun _ => true; verbose := true; keepName := false;
     skipHash := false; assetFolder := "static" |}.

Definition sampleWorld : World :=
  {| cwd := "/proj";
     pathExists := fun p =>
       bool_decide (p ∈ ["/proj/src/logo.png"; "/proj/src/style.sss";
                         "/proj/src/a/logo.png"; "/proj/src/b/logo.png"]);
     getHash := fun p =>
       if String.eqb p "/proj/src/style.sss" then Fulfilled "abcdEFGH"
       else Fulfilled "SjafTEhN";
     readFile := fun p => Fulfilled ("bytes of " ++ p);
     postcssProcess := fun _ text _ => Fulfilled ("css of " ++ text, "map of " ++ text);
     outputFile := fun _ _ => Fulfilled tt;
     copy := fun _ _ => Fulfilled tt |}.

(** A world in which no file can be copied: [fs.copy] is rejected. *)
Definition copyFailsWorld : World :=
  {| cwd := cwd sampleWorld; pathExists := pathExists sampleWorld;
     getHash := getHash sampleWorld; readFile := readFile sampleWorld;
     postcssProcess := postcssProcess sampleWorld; outputFile := outputFile sampleWorld;
     copy := fun _ _ => Rejected (Failure "EACCES: permission denied, copyfile") |}.

(** A world in which the PostCSS run is rejected, with the same failure: the
    run copies the files a style sheet refers to. *)
Definition processFailsWorld : World :=
  {| cwd := cwd sampleWorld; pathExists := pathExists sampleWorld;
     getHash := getHash sampleWorld; readFile := readFile sampleWorld;
     postcssProcess := fun _ _ _ => Rejected (Failure "EACCES: permission denied, copyfile");
     outputFile := outputFile sampleWorld; copy := copy sampleWorld |}.

Definition entry : Request := ("src/index.js", None).
Definition logo : Request := ("./logo.png", Some "/proj/src/index.js").
Definition style : Request := ("./style.sss", Some "/proj/src/index.js").

Definition sampleBuild : list Request := [entry; logo].

Definition sampleRegistry : Registry :=
  (resolveAll sampleOptions sampleWorld sampleBuild fresh).1.2.

(** A build with one stylesheet and nothing else. *)
Definition styleRegistry : Registry :=
  (resolveAll sampleOptions sampleWorld [entry; style] fresh).1.2.

(** A build with an image and a stylesheet. *)
Definition mixedRegistry : Registry :=
  (resolveAll sampleOptions sampleWorld [entry; logo; style] fresh).1.2.

(** Two builds that differ in their entry point only. *)
Definition rootA : Registry :=
  (resolveAll sampleOptions sampleWorld [("a/main.js", None)] fresh).1.2.
Definition rootB : Registry :=
  (resolveAll sampleOptions sampleWorld [("b/main.js", None)] fresh).1.2.

(** The registries of the sample build, the root moved elsewhere. *)
Definition relocatedRegistry : Registry := set_root "/srv/app" sampleRegistry.

(** A world in which the output of an earlier build is still on disk, next
    to the entry point [a/main.js]. *)
Definition staleWorld : World :=
  {| cwd := cwd sampleWorld;
     pathExists := fun p =>
       pathExists sampleWorld p || String.eqb p "/proj/a/static/SjafTEhN.png";
     getHash := getHash sampleWorld; readFile := readFile sampleWorld;
     postcssProcess := postcssProcess sampleWorld; outputFile := outputFile sampleWorld;
     copy := copy sampleWorld |}.

(** A build with the same image in two folders. *)
Definition twinRegistry : Registry :=
  (resolveAll sampleOptions sampleWorld
     [entry; ("./a/logo.png", Some "/proj/src/index.js");
      ("./b/logo.png", Some "/proj/src/index.js")] fresh).1.2.

(** The registry once the entry point has been resolved. *)
Definition entered : Registry :=
  (resolveAll sampleOptions sampleWorld [entry] fresh).1.2.

(** [createFilter] with neither [include] nor [exclude]: every id passes
    but one that holds a NUL character, which [createFilter] turns down
    before it looks at any pattern. *)
Definition everyFile : option unit -> option unit -> string -> bool :=
  fun _ _ id => negb (existsb (Ascii.eqb "000"%char) (list_ascii_of_string id)).

(** The image resolved under the default options. *)
Definition defaultRun : Resolution * Registry * list Call :=
  resolveId (rebase everyFile None) sampleWorld "./logo.png"
    (Some "/proj/src/index.js") entered.

(** The style sheet resolved with hashing switched off. *)
Definition plainStyleRun : Resolution * Registry * list Call :=
  resolveId plainOptions sampleWorld "./style.sss" (Some "/proj/src/index.js") entered.

(** The image resolved before any entry point. *)
Definition earlyRun : Resolution * Registry * list Call :=
  resolveId sampleOptions sampleWorld "./logo.png" (Some "/proj/src/index.js") fresh.

(** * Proofs *)

(** ** The path functions on sample values *)

(** Values of Node's documentation and of its test suite. *)
Example extname_samples :
  List.map Path.extname
    ["index.html"; "index.coffee.md"; "index."; "index"; ".index"; ".index.md";
     ".."; "..."; "a/b.c/"; "a.b/c"; "/"; ""; "..png"; "es.array.reduce"]
  = [".html"; ".md"; "."; ""; ""; ".md"; ""; "."; ".c"; ""; ""; ""; ".png"; ".reduce"].
Proof. vm_compute. reflexivity. Qed.

Example basename_samples :
  List.map (fun '(p, s) => Path.basename p s)
    [("/foo/bar/baz/asdf/quux.html", ".html"); ("aaa/bbb", "bbb"); ("aaa/bbb", "/bbb");
     ("aaa/bbb", "a/bbb"); ("aaa/bbb", "bb"); ("aaa/bbb", "b"); ("/aaa/bbb//", "bbb");
     ("a/foo.sss", ".pcss"); ("basename.ext", ".ext"); (".ext", ".ext"); ("a/bc/", "xbc");
     ("./logo.png", ".png")]
  = ["quux"; "bbb"; "bbb"; "bbb"; "b"; "bb"; "bbb"; "foo.sss"; "basename"; ""; "bc/"; "logo"].
Proof. vm_compute. reflexivity. Qed.

Example dirname_samples :
  List.map Path.dirname
    ["/foo/bar/baz/asdf/quux"; "/a/b/"; "/a"; "/"; "a"; ""; "//a"; "a//b"; "////"; "foo/bar.js"]
  = ["/foo/bar/baz/asdf"; "/a"; "/"; "/"; "."; "."; "//"; "a/"; "/"; "foo"].
Proof. vm_compute. reflexivity. Qed.

Example join_samples :
  List.map Path.join
    [["/foo"; "bar"; "baz/asdf"; "quux"; ".."]; [""; "x.png"]; ["static"; "x.png"];
     ["/proj"; ""; "x.png"]; []; [""; ""]; ["a/"; "../../b/"]; ["/"; ".."; "c"]]
  = ["/foo/bar/baz/asdf"; "x.png"; "static/x.png"; "/proj/x.png"; "."; "."; "../b/"; "/c"].
Proof. vm_compute. reflexivity. Qed.

Example resolve_samples :
  List.map (Path.resolve "/home/me")
    [["/foo/bar"; "./baz"]; ["/foo/bar"; "/tmp/file/"]; ["wwwroot"; "static_files/png/"; "../gif/image.gif"];
     ["src/index.js"]; []; [".."; ".."; ".."]]
  = ["/foo/bar/baz"; "/tmp/file"; "/home/me/wwwroot/static_files/gif/image.gif";
     "/home/me/src/index.js"; "/home/me"; "/"].
Proof. vm_compute. reflexivity. Qed.

Example relative_samples :
  List.map (fun '(a, b) => Path.relative "/" a b)
    [("/data/orandea/test/aaa", "/data/orandea/impl/bbb"); ("/a/b", "/a/b/c"); ("/a/b/c", "/a");
     ("/", "/a"); ("/a", "/a")]
  = ["../../impl/bbb"; "c"; "../.."; "a"; ""].
Proof. vm_compute. reflexivity. Qed.

(** ** Facts about the path functions *)

Section PathFacts.

Import Path.
Local Open Scope list_scope.

Implicit Types p b pre tr : chars.

Lemma chars_eqb_eq a b : chars_eqb a b = true <-> a = b.
Proof. unfold chars_eqb. apply bool_decide_eq_true. Qed.

Lemma chars_eqb_neq a b : chars_eqb a b = false <-> a <> b.
Proof. unfold chars_eqb. apply bool_decide_eq_false. Qed.

Lemma is_slash_true c : is_slash c = true <-> c = slash.
Proof. unfold is_slash. apply Ascii.eqb_eq. Qed.

Lemma take_drop_while f l : take_while f l ++ drop_while f l = l.
Proof. induction l as [|c l IH]; simpl; [done|]. destruct (f c); simpl; congruence. Qed.

Lemma take_while_all f l : Forall (fun c => f c = true) (take_while f l).
Proof.
  induction l as [|c l IH]; simpl; [constructor|].
  destruct (f c) eqn:E; constructor; auto.
Qed.

Lemma drop_while_head f l c l' : drop_while f l = c :: l' -> f c = false.
Proof.
  induction l as [|d l IH]; simpl; [done|].
  destruct (f d) eqn:E; [auto|]. intros [= -> _]. done.
Qed.

Lemma take_while_app_all f l1 l2 :
  Forall (fun c => f c = true) l1 -> take_while f (l1 ++ l2) = l1 ++ take_while f l2.
Proof. induction 1 as [|c l Hc _ IH]; simpl; [done|]. rewrite Hc, IH. done. Qed.

Lemma drop_while_app_all f l1 l2 :
  Forall (fun c => f c = true) l1 -> drop_while f (l1 ++ l2) = drop_while f l2.
Proof. induction 1 as [|c l Hc _ IH]; simpl; [done|]. rewrite Hc, IH. done. Qed.

Lemma split_nonempty p : split p <> [].
Proof. destruct p as [|c p]; simpl; [done|]. destruct (is_slash c); [done|]. destruct (split p); done. Qed.

Lemma split_app a b : split (a ++ slash :: b) = split a ++ split b.
Proof.
  induction a as [|c a IH]; simpl; [done|].
  destruct (is_slash c); [by rewrite IH|].
  rewrite IH. pose proof (split_nonempty a). destruct (split a); done.
Qed.

Lemma split_slashfree b : slashfree b -> split b = [b].
Proof. induction 1 as [|c b Hc _ IH]; simpl; [done|]. by rewrite Hc, IH. Qed.

Lemma split_only_slashes tr : only_slashes tr -> split tr = replicate (S (length tr)) [].
Proof. induction 1 as [|c tr Hc _ IH]; simpl; [done|]. by rewrite Hc, IH. Qed.

Lemma split_segments_slashfree p : Forall slashfree (split p).
Proof.
  induction p as [|c p IH]; simpl; [repeat constructor|].
  destruct (is_slash c) eqn:E; [constructor; [constructor|done]|].
  destruct (split p) as [|s ss]; [repeat constructor; done|].
  inversion IH; subst. constructor; [constructor; done|done].
Qed.

Lemma boundary_app X pre : boundary X -> boundary pre -> boundary (X ++ pre).
Proof.
  intros HX [->|[pre' ->]]; [by rewrite app_nil_r|].
  right. exists (X ++ pre'). by rewrite app_assoc.
Qed.

Lemma ends_in_prefix X p b : boundary X -> ends_in p b -> ends_in (X ++ p) b.
Proof.
  intros HX (pre & tr & -> & Hpre & Htr).
  exists (X ++ pre), tr. split; [by rewrite app_assoc|]. split; [by apply boundary_app|done].
Qed.

Lemma ends_in_slash p b : ends_in p b -> ends_in (p ++ [slash]) b.
Proof.
  intros (pre & tr & -> & Hpre & Htr).
  exists pre, (tr ++ [slash]). split; [by rewrite <- !app_assoc|]. split; [done|].
  apply Forall_app. split; [done|]. by repeat constructor.
Qed.

Lemma boundary_rev pre : boundary pre -> take_while not_slash (rev pre) = [].
Proof. intros [->|[pre' ->]]; [done|]. by rewrite rev_app_distr. Qed.

Lemma tail_seg_ends_in p b : b <> [] -> slashfree b -> ends_in p b -> tail_seg p = b.
Proof.
  intros Hne Hb (pre & tr & -> & Hpre & Htr). unfold tail_seg.
  rewrite !rev_app_distr, <- !app_assoc.
  rewrite drop_while_app_all by (by apply Forall_rev).
  assert (Hrb : Forall (fun c => not_slash c = true) (rev b)).
  { apply Forall_rev. eapply Forall_impl; [exact Hb|]. intros c Hc. unfold not_slash. by rewrite Hc. }
  destruct (rev b) as [|c rb] eqn:Erb.
  { apply (f_equal (@rev ascii)) in Erb. rewrite rev_involutive in Erb. done. }
  simpl. inversion Hrb as [|? ? Hc Hrb']; subst.
  assert (is_slash c = false) as -> by (unfold not_slash in Hc; by destruct (is_slash c)).
  simpl. rewrite Hc. rewrite take_while_app_all by done.
  rewrite boundary_rev by done. rewrite app_nil_r.
  rewrite <- Erb. apply rev_involutive.
Qed.

Lemma not_slash_slashfree l : Forall (fun c => not_slash c = true) l -> slashfree l.
Proof.
  intros H. eapply Forall_impl; [exact H|].
  intros c. unfold not_slash. by destruct (is_slash c).
Qed.

Lemma tail_seg_slashfree p : slashfree (tail_seg p).
Proof. unfold tail_seg. apply Forall_rev, not_slash_slashfree, take_while_all. Qed.

Lemma ends_in_tail_seg p : ends_in p (tail_seg p).
Proof.
  unfold ends_in, tail_seg.
  set (r := rev p).
  exists (rev (drop_while not_slash (drop_while is_slash r))), (rev (take_while is_slash r)).
  split; [|split].
  - rewrite <- !rev_app_distr. rewrite <- app_assoc, !take_drop_while. unfold r. by rewrite rev_involutive.
  - destruct (drop_while not_slash (drop_while is_slash r)) as [|c l] eqn:E; [by left|].
    right. exists (rev l). simpl. f_equal. f_equal.
    apply drop_while_head in E. unfold not_slash in E. apply is_slash_true. by destruct (is_slash c).
  - apply Forall_rev, take_while_all.
Qed.

Lemma ends_in_nonempty p b : b <> [] -> ends_in p b -> p <> [].
Proof. intros Hb (pre & tr & -> & _). destruct pre, b; done. Qed.

Lemma split_seg_slashes b tr :
  slashfree b -> only_slashes tr -> split (b ++ tr) = b :: replicate (length tr) [].
Proof.
  intros Hb Htr. destruct Htr as [|c tr Hc Htr].
  - rewrite app_nil_r. by apply split_slashfree.
  - apply is_slash_true in Hc as ->.
    rewrite split_app, split_slashfree, split_only_slashes by done. done.
Qed.

Lemma split_ends_in p b :
  slashfree b -> ends_in p b ->
  exists ss n, split p = ss ++ b :: replicate n [].
Proof.
  intros Hb (pre & tr & -> & [->|[pre' ->]] & Htr).
  - exists [], (length tr). simpl. by apply split_seg_slashes.
  - exists (split pre'), (length tr).
    rewrite <- app_assoc. simpl. rewrite split_app. f_equal. by apply split_seg_slashes.
Qed.

Lemma norm_step_empty a st : norm_step a st [] = st.
Proof. done. Qed.

Lemma norm_step_kept a st b : kept b -> norm_step a st b = b :: st.
Proof.
  intros (H1 & H2 & H3 & _). unfold norm_step.
  apply chars_eqb_neq in H1, H2, H3. by rewrite H1, H2, H3.
Qed.

Lemma fold_norm_empties a n st :
  fold_left (norm_step a) (replicate n []) st = st.
Proof. induction n; simpl; auto. Qed.

Lemma unsplit_snoc l b :
  unsplit (l ++ [b]) = match l with [] => b | _ => unsplit l ++ slash :: b end.
Proof.
  induction l as [|s l IH]; [done|].
  change ((s :: l) ++ [b]) with (s :: (l ++ [b])).
  destruct l as [|s' l]; [done|].
  change (unsplit (s :: (s' :: l) ++ [b])) with (s ++ slash :: unsplit ((s' :: l) ++ [b])).
  rewrite IH. change (unsplit (s :: s' :: l)) with (s ++ slash :: unsplit (s' :: l)).
  by rewrite <- app_assoc.
Qed.

Lemma normalizeString_ends_in p b a :
  kept b -> ends_in p b ->
  exists pre, normalizeString p a = pre ++ b /\ boundary pre.
Proof.
  intros Hk Hp. destruct (split_ends_in p b) as (ss & n & Hs); [apply Hk|done|].
  unfold normalizeString. rewrite Hs, fold_left_app. simpl.
  rewrite norm_step_kept by done. rewrite fold_norm_empties. simpl.
  rewrite unsplit_snoc.
  destruct (rev (fold_left (norm_step a) ss [])) as [|s l] eqn:E.
  - exists []. split; [done|by left].
  - exists (unsplit (s :: l) ++ [slash]). split; [by rewrite <- app_assoc|].
    right. by eexists.
Qed.

Lemma ends_in_exact pre b : boundary pre -> ends_in (pre ++ b) b.
Proof. intros H. exists pre, []. rewrite app_nil_r. repeat split; [done|constructor]. Qed.

Lemma normalize_chars_ends_in p b :
  kept b -> ends_in p b -> ends_in (normalize_chars p) b.
Proof.
  intros Hk Hp.
  pose proof (ends_in_nonempty p b (proj1 Hk) Hp) as Hne.
  destruct (normalizeString_ends_in p b (negb (starts_with_slash p)) Hk Hp) as (pre & Hq & Hpre).
  unfold normalize_chars. destruct p as [|c p]; [done|].
  rewrite Hq. destruct (pre ++ b) as [|q0 q] eqn:E.
  { destruct pre, b; try done. by destruct Hk. }
  rewrite <- E.
  assert (Hcore : ends_in ((pre ++ b) ++
             (if ends_with_slash (c :: p) then [slash] else [])) b).
  { destruct (ends_with_slash (c :: p)).
    - by apply ends_in_slash, ends_in_exact.
    - rewrite app_nil_r. by apply ends_in_exact. }
  destruct (starts_with_slash (c :: p)); [|done].
  apply (ends_in_prefix [slash]); [right; by exists []|done].
Qed.

Lemma joined_last args T :
  T <> [] -> exists X, joined (args ++ [T]) = Some (X ++ T) /\ boundary X.
Proof.
  intros HT. induction args as [|a args (X & IH & HX)].
  - simpl. destruct T; [done|]. exists []. split; [done|by left].
  - change (joined ((a :: args) ++ [T])) with
      (match a, joined (args ++ [T]) with
       | [], r => r
       | _, None => Some a
       | _, Some r => Some (a ++ slash :: r)
       end).
    rewrite IH. destruct a as [|a0 a]; [by exists X|].
    exists ((a0 :: a) ++ slash :: X). split; [by rewrite <- app_assoc|].
    destruct HX as [->|[X' ->]]; right.
    + by exists (a0 :: a).
    + exists ((a0 :: a) ++ slash :: X'). by rewrite <- app_assoc.
Qed.

Lemma join_chars_ends_in args T b :
  kept b -> ends_in T b -> ends_in (join_chars (args ++ [T])) b.
Proof.
  intros Hk HT. unfold join_chars.
  assert (T <> []) as HT0 by (by eapply ends_in_nonempty; [apply Hk|]).
  destruct (joined_last args T HT0) as (X & -> & HX).
  apply normalize_chars_ends_in; [done|]. by apply ends_in_prefix.
Qed.

Lemma resolve_loop_acc rest acc :
  exists X, (resolve_loop rest acc).1 = X ++ acc /\ boundary X.
Proof.
  revert acc. induction rest as [|p rest IH]; intros acc; simpl.
  - exists []. split; [done|by left].
  - destruct p as [|c p]; [apply IH|].
    destruct (starts_with_slash (c :: p)).
    + exists ((c :: p) ++ [slash]). split; [by rewrite <- app_assoc|]. right. by eexists.
    + destruct (IH ((c :: p) ++ slash :: acc)) as (X & -> & HX).
      exists (X ++ (c :: p) ++ [slash]). split; [by rewrite <- !app_assoc|].
      right. exists (X ++ c :: p). by rewrite <- app_assoc.
Qed.

Lemma resolve_chars_ends_in cwd args importee b :
  kept b -> ends_in importee b -> ends_in (resolve_chars cwd (args ++ [importee])) b.
Proof.
  intros Hk Hi. unfold resolve_chars.
  rewrite rev_app_distr. simpl.
  pose proof (ends_in_nonempty importee b (proj1 Hk) Hi) as Hne.
  destruct importee as [|c i]; [done|].
  assert (exists X abs, (if starts_with_slash (c :: i)
             then ((c :: i) ++ [slash], true)
             else resolve_loop (rev args ++ [cwd]) ((c :: i) ++ [slash]))
            = (X ++ (c :: i) ++ [slash], abs) /\ boundary X) as (X & abs & -> & HX).
  { destruct (starts_with_slash (c :: i)).
    - exists [], true. split; [done|by left].
    - destruct (resolve_loop_acc (rev args ++ [cwd]) ((c :: i) ++ [slash])) as (X & HX & HB).
      destruct (resolve_loop _ _) as [rp abs]. simpl in HX. subst rp. by exists X, abs. }
  assert (ends_in (X ++ (c :: i) ++ [slash]) b) as HE.
  { apply ends_in_prefix; [done|]. by apply ends_in_slash. }
  destruct (normalizeString_ends_in _ b (negb abs) Hk HE) as (pre & -> & Hpre).
  destruct abs.
  - apply (ends_in_prefix [slash]); [right; by exists []|]. by apply ends_in_exact.
  - destruct (pre ++ b) eqn:E; [destruct pre, b; try done; by destruct Hk|].
    rewrite <- E. by apply ends_in_exact.
Qed.

(** *** Absolute paths *)

Lemma resolve_loop_absolute rest cwd acc :
  starts_with_slash cwd = true ->
  exists rp, resolve_loop (rest ++ [cwd]) acc = (rp, true) /\ starts_with_slash rp = true.
Proof.
  intros Hcwd. revert acc. induction rest as [|p rest IH]; intros acc; simpl.
  - destruct cwd as [|c cwd]; [done|]. rewrite Hcwd. eexists. split; [done|]. done.
  - destruct p as [|c p]; [apply IH|].
    destruct (starts_with_slash (c :: p)) eqn:E; [|apply IH].
    eexists. split; [done|]. done.
Qed.

Lemma resolve_chars_absolute cwd args :
  starts_with_slash cwd = true -> starts_with_slash (resolve_chars cwd args) = true.
Proof.
  intros Hcwd. unfold resolve_chars.
  destruct (resolve_loop_absolute (rev args) cwd [] Hcwd) as (rp & -> & _). done.
Qed.

Lemma dirname_chars_absolute p :
  starts_with_slash p = true -> starts_with_slash (dirname_chars p) = true.
Proof.
  destruct p as [|c p]; [done|]. simpl. intros H.
  destruct (drop_while _ _) as [|? [|]]; simpl; rewrite ?H; done.
Qed.

Lemma normalize_chars_absolute p :
  starts_with_slash p = true -> starts_with_slash (normalize_chars p) = true.
Proof.
  destruct p as [|c p]; [done|]. unfold normalize_chars. intros ->.
  by destruct (normalizeString _ _).
Qed.

Lemma join_chars_absolute r rest :
  starts_with_slash r = true -> starts_with_slash (join_chars (r :: rest)) = true.
Proof.
  intros Hr. unfold join_chars. simpl. destruct r as [|c r]; [done|].
  destruct (joined rest); apply normalize_chars_absolute; done.
Qed.

(** *** Exact endings *)

Lemma ends_exactly_ends_in p b : ends_exactly p b -> ends_in p b.
Proof. intros (pre & -> & H). by apply ends_in_exact. Qed.

Lemma ends_exactly_prefix X p b : boundary X -> ends_exactly p b -> ends_exactly (X ++ p) b.
Proof.
  intros HX (pre & -> & Hpre). exists (X ++ pre). split; [by rewrite app_assoc|].
  by apply boundary_app.
Qed.

Lemma ends_with_slash_app X T : T <> [] -> ends_with_slash (X ++ T) = ends_with_slash T.
Proof.
  intros HT. unfold ends_with_slash. rewrite rev_app_distr.
  destruct (rev T) eqn:E; [|done].
  apply (f_equal (@rev ascii)) in E. rewrite rev_involutive in E. done.
Qed.

Lemma ends_with_slash_slashfree b : slashfree b -> ends_with_slash b = false.
Proof.
  intros Hb. unfold ends_with_slash. apply Forall_rev in Hb.
  destruct (rev b); [done|]. by inversion Hb.
Qed.

Lemma ends_exactly_no_slash p b : b <> [] -> slashfree b -> ends_exactly p b -> ends_with_slash p = false.
Proof.
  intros Hb Hs (pre & -> & _). rewrite ends_with_slash_app by done.
  by apply ends_with_slash_slashfree.
Qed.

Lemma normalize_chars_ends_exactly p b :
  kept b -> ends_exactly p b -> ends_exactly (normalize_chars p) b.
Proof.
  intros Hk Hp.
  pose proof (ends_exactly_no_slash p b (proj1 Hk) (proj2 (proj2 (proj2 Hk))) Hp) as Hns.
  apply ends_exactly_ends_in in Hp.
  pose proof (ends_in_nonempty p b (proj1 Hk) Hp) as Hne.
  destruct (normalizeString_ends_in p b (negb (starts_with_slash p)) Hk Hp) as (pre & Hq & Hpre).
  unfold normalize_chars. destruct p as [|c p]; [done|].
  rewrite Hq, Hns. destruct (pre ++ b) as [|q0 q] eqn:E.
  { destruct pre, b; try done. by destruct Hk. }
  rewrite <- E, app_nil_r.
  destruct (starts_with_slash (c :: p)).
  - apply (ends_exactly_prefix [slash]); [right; by exists []|]. by exists pre.
  - by exists pre.
Qed.

Lemma join_chars_ends_exactly args T b :
  kept b -> ends_exactly T b -> ends_exactly (join_chars (args ++ [T])) b.
Proof.
  intros Hk HT. unfold join_chars.
  assert (T <> []) as HT0.
  { eapply ends_in_nonempty; [apply Hk|]. by apply ends_exactly_ends_in. }
  destruct (joined_last args T HT0) as (X & -> & HX).
  apply normalize_chars_ends_exactly; [done|]. by apply ends_exactly_prefix.
Qed.

Lemma last_piece_slashfree X : slashfree (last_piece X).
Proof. apply Forall_rev, not_slash_slashfree, take_while_all. Qed.

Lemma ends_exactly_app X s :
  slashfree s -> ends_exactly (X ++ s) (last_piece X ++ s).
Proof.
  intros Hs. unfold last_piece.
  exists (rev (drop_while not_slash (rev X))). split.
  - rewrite app_assoc. f_equal. rewrite <- rev_app_distr, take_drop_while. by rewrite rev_involutive.
  - destruct (drop_while not_slash (rev X)) as [|c l] eqn:E; [by left|].
    right. exists (rev l). simpl. f_equal. f_equal.
    apply drop_while_head in E. unfold not_slash in E. apply is_slash_true. by destruct (is_slash c).
Qed.

(** *** Extensions *)

Lemma is_dot_true c : is_dot c = true <-> c = dot.
Proof. unfold is_dot. apply Ascii.eqb_eq. Qed.

Lemma ext_of_seg_shape b :
  ext_of_seg b <> [] ->
  exists name x, b = name ++ ext_of_seg b /\ name <> [] /\ ext_of_seg b = dot :: x
                 /\ dotfree x /\ b <> dotdot.
Proof.
  unfold ext_of_seg. intros H.
  pose proof (take_drop_while not_dot (rev b)) as Hsplit.
  pose proof (take_while_all not_dot (rev b)) as Hall.
  destruct (drop_while not_dot (rev b)) as [|d before] eqn:E; [done|].
  destruct before as [|b0 before]; [done|].
  destruct (chars_eqb b dotdot) eqn:Edd; [done|].
  apply chars_eqb_neq in Edd.
  apply drop_while_head in E. unfold not_dot in E.
  assert (d = dot) as -> by (apply is_dot_true; by destruct (is_dot d)).
  exists (rev (b0 :: before)), (rev (take_while not_dot (rev b))).
  split; [|split; [|split; [done|split; [|done]]]].
  - apply (f_equal (@rev ascii)) in Hsplit. rewrite rev_involutive in Hsplit.
    rewrite <- Hsplit at 1. rewrite rev_app_distr. simpl. by rewrite <- !app_assoc.
  - intros Hn. apply (f_equal (@rev ascii)) in Hn. rewrite rev_involutive in Hn. done.
  - apply Forall_rev. eapply Forall_impl; [exact Hall|].
    intros c. unfold not_dot. by destruct (is_dot c).
Qed.

Lemma ext_of_seg_kept b : slashfree b -> ext_of_seg b <> [] -> kept b.
Proof.
  intros Hs H. destruct (ext_of_seg_shape b H) as (name & x & Hb & Hn & He & _ & Hdd).
  repeat split; [| |done|done].
  - intros ->. by destruct name.
  - intros ->. done.
Qed.

Lemma ext_of_seg_ext_shaped b : slashfree b -> ext_of_seg b <> [] -> ext_shaped (ext_of_seg b).
Proof.
  intros Hs H. destruct (ext_of_seg_shape b H) as (name & x & Hb & Hn & He & Hx & _).
  exists x. repeat split; [done|done|].
  rewrite Hb, He in Hs. apply Forall_app in Hs as [_ Hs]. by inversion Hs.
Qed.

(** *** Base names *)

Lemma strip_prefix_Some s l y : strip_prefix s l = Some y -> l = s ++ y.
Proof.
  revert l. induction s as [|a s IH]; intros [|b l]; simpl; try congruence.
  destruct (Ascii.eqb a b) eqn:E; [|done]. apply Ascii.eqb_eq in E as ->.
  intros H. by rewrite (IH _ H).
Qed.

Lemma strip_prefix_app s y : strip_prefix s (s ++ y) = Some y.
Proof. induction s as [|a s IH]; simpl; [done|]. by rewrite Ascii.eqb_refl. Qed.

Lemma strip_suffix_Some s l y : strip_suffix s l = Some y -> l = y ++ s.
Proof.
  unfold strip_suffix. destruct (strip_prefix (rev s) (rev l)) as [z|] eqn:E; [|done].
  intros [= <-]. apply strip_prefix_Some in E.
  apply (f_equal (@rev ascii)) in E.
  rewrite rev_involutive in E. rewrite rev_app_distr in E. rewrite rev_involutive in E. done.
Qed.

Lemma strip_suffix_app s y : strip_suffix s (y ++ s) = Some y.
Proof.
  unfold strip_suffix. rewrite rev_app_distr, strip_prefix_app. simpl.
  by rewrite rev_involutive.
Qed.

Lemma tail_seg_length p : length (tail_seg p) <= length p.
Proof.
  destruct (ends_in_tail_seg p) as (pre & tr & Hp & _).
  rewrite Hp at 2. rewrite !length_app. lia.
Qed.

Lemma tail_seg_full p : length p <= length (tail_seg p) -> tail_seg p = p.
Proof.
  destruct (ends_in_tail_seg p) as (pre & tr & Hp & _). intros H.
  rewrite Hp in H at 1. rewrite !length_app in H.
  destruct pre; [|simpl in H; lia]. destruct tr; [|simpl in H; lia].
  simpl in Hp. by rewrite app_nil_r in Hp.
Qed.

Lemma basename_chars_by_seg p s :
  s <> [] -> length s <= length (tail_seg p) -> s <> tail_seg p ->
  basename_chars p s = base_of_seg (tail_seg p) s.
Proof.
  intros Hs Hlen Hne. unfold basename_chars, base_of_seg.
  destruct s as [|s0 s]; [done|].
  pose proof (tail_seg_length p) as Hp.
  destruct (Nat.ltb_spec (length p) (length (s0 :: s))) as [Hlt|_]; [lia|].
  destruct (chars_eqb (s0 :: s) p) eqn:E.
  { apply chars_eqb_eq in E. subst p. exfalso. apply Hne. symmetry. apply tail_seg_full. lia. }
  destruct (strip_suffix (s0 :: s) (tail_seg p)) as [[|]|]; [done|done|].
  destruct (strip_suffix (tail_seg p) (s0 :: s)) as [y|] eqn:E2; [|done].
  apply strip_suffix_Some in E2. exfalso. apply Hne.
  destruct y; [done|]. rewrite E2 in Hlen. rewrite length_app in Hlen. simpl in Hlen. lia.
Qed.

End PathFacts.

Ltac resolve_unfold :=
  unfold resolveId, mbind, M_bind, mret, M_ret, get, modify, call in *.


(** *** From characters to strings *)

Lemma of_string_app a b :
  Path.of_string (a ++ b) = (Path.of_string a ++ Path.of_string b)%list.
Proof. induction a as [|c a IH]; simpl; [done|]. by rewrite <- IH. Qed.

Lemma of_to_string l : Path.of_string (Path.to_string l) = l.
Proof. apply list_ascii_of_string_of_list_ascii. Qed.

Lemma to_of_string s : Path.to_string (Path.of_string s) = s.
Proof. apply string_of_list_ascii_of_string. Qed.

Lemma of_string_inj a b : Path.of_string a = Path.of_string b -> a = b.
Proof. intros H. by rewrite <- (to_of_string a), <- (to_of_string b), H. Qed.

Lemma to_string_nonempty l : Path.to_string l <> "" -> l <> [].
Proof. by intros H ->. Qed.

Lemma extname_seg p : Path.extname p = Path.to_string (Path.ext_of_seg (seg p)).
Proof. done. Qed.

Lemma ext_of_seg_starts b :
  Path.ext_of_seg b = [] \/ exists x, Path.ext_of_seg b = Path.dot :: x.
Proof.
  unfold Path.ext_of_seg.
  destruct (Path.drop_while Path.not_dot (rev b)) as [|? [|? ?]]; [by left|by left|].
  destruct (Path.chars_eqb b Path.dotdot); [by left|right; by eexists].
Qed.

(** An extension is never a property name of [Object.prototype], so the test
    [fileExt in styleParser] only ever finds the table's own keys. *)
Lemma extname_not_inherited p : JsObject.inherited (Path.extname p) = false.
Proof.
  rewrite extname_seg. destruct (ext_of_seg_starts (seg p)) as [->|[x ->]].
  - vm_compute. reflexivity.
  - unfold JsObject.inherited, JsObject.prototype_keys. apply bool_decide_eq_false.
    intros H. simpl in H.
    repeat (apply elem_of_cons in H as [H|H]; [discriminate H|]).
    by apply not_elem_of_nil in H.
Qed.

Lemma seg_kept p : Path.extname p <> "" -> kept (seg p).
Proof.
  intros H. apply ext_of_seg_kept; [apply tail_seg_slashfree|].
  by apply to_string_nonempty.
Qed.

Lemma resolve_seg cwd args importee :
  Path.extname importee <> "" ->
  seg (Path.resolve cwd (args ++ [importee])) = seg importee.
Proof.
  intros H. pose proof (seg_kept importee H) as Hk.
  unfold seg, Path.resolve. rewrite of_to_string, map_app. simpl.
  apply tail_seg_ends_in; [apply Hk|apply Hk|].
  apply resolve_chars_ends_in; [done|]. apply ends_in_tail_seg.
Qed.

Lemma sourceOf_seg world i importee :
  Path.extname importee <> "" -> seg (sourceOf world i importee) = seg importee.
Proof. intros H. apply (resolve_seg _ [Path.dirname i]), H. Qed.

Lemma sourceOf_extname world i importee :
  Path.extname importee <> "" ->
  Path.extname (sourceOf world i importee) = Path.extname importee.
Proof. intros H. by rewrite !extname_seg, sourceOf_seg. Qed.

Lemma effectiveExt_conditions p :
  Path.extname p <> "" ->
  let s := Path.of_string (effectiveExt (Path.extname p)) in
  s <> [] /\ length s <= length (seg p) /\ s <> seg p.
Proof.
  intros H. pose proof (to_string_nonempty _ H) as Hne.
  destruct (ext_of_seg_shape _ Hne) as (name & x & Hb & Hn & He & Hx & Hdd).
  fold (seg p) in *.
  pose proof (f_equal (@length ascii) Hb) as Hlen. rewrite length_app in Hlen.
  assert (length name <> 0) as Hnl by (by destruct name).
  unfold effectiveExt. destruct (String.eqb_spec (Path.extname p) ".sss") as [Hs|Hs]; simpl.
  - rewrite extname_seg in Hs. apply (f_equal Path.of_string) in Hs.
    rewrite of_to_string in Hs. simpl in Hs.
    rewrite Hs in Hb, Hlen. simpl in Hlen. split; [done|]. split; [simpl; lia|].
    intros Heq. rewrite <- Heq in Hb.
    destruct name as [|n0 [|n1 name]]; [done|done|].
    apply (f_equal (@length ascii)) in Hb. simpl in Hb. rewrite length_app in Hb. simpl in Hb. lia.
  - rewrite extname_seg, of_to_string. split; [done|]. split.
    + lia.
    + intros Heq. rewrite Heq in Hlen. lia.
Qed.

Lemma basename_seg p :
  Path.extname p <> "" ->
  Path.basename p (effectiveExt (Path.extname p))
  = Path.to_string (base_of_seg (seg p) (Path.of_string (effectiveExt (Path.extname p)))).
Proof.
  intros H. destruct (effectiveExt_conditions p H) as (H1 & H2 & H3).
  unfold Path.basename. f_equal. by apply basename_chars_by_seg.
Qed.

Lemma sourceOf_basename world i importee :
  Path.extname importee <> "" ->
  let ext := effectiveExt (Path.extname importee) in
  Path.basename (sourceOf world i importee) ext = Path.basename importee ext.
Proof.
  intros H ext. unfold ext.
  rewrite <- (sourceOf_extname world i importee H) at 1.
  rewrite !basename_seg by (by rewrite ?sourceOf_extname).
  by rewrite sourceOf_seg, sourceOf_extname.
Qed.

(** ** The resolver, case by case *)

Section OutcomeFacts.

Variable opts : Options.
Variable world : World.

Lemma resolveId_outcome st importee importer :
  outcome opts world st importee importer
    (resolveId opts world importee importer st).1.1
    (resolveId opts world importee importer st).1.2
    (resolveId opts world importee importer st).2.
Proof.
  resolve_unfold.
  destruct (truthy importer) as [i|] eqn:Ei; [|by constructor].
  simpl.
  destruct (JsObject.non_null (assets st) importee) eqn:Ea; [by econstructor|].
  destruct (String.eqb_spec (Path.extname importee) "") as [Ee|Ee]; [by econstructor; eauto|].
  destruct (scriptExtensions (Path.extname importee)) eqn:Es; [by econstructor; eauto|].
  simpl. fold (effectiveExt (Path.extname importee)). fold (sourceOf world i importee).
  destruct (filter opts (sourceOf world i importee)) eqn:Ef; [|by econstructor; eauto].
  destruct (pathExists world (sourceOf world i importee)) eqn:Ep; [|by econstructor; eauto].
  assert (eligible opts world st importee i) as Hel by done.
  simpl. destruct (skipHash opts) eqn:Esk; simpl.
  - destruct (root st) as [r|] eqn:Er; simpl.
    + eapply (outcome_handled _ _ _ _ _ i None); try done. unfold hashed. by rewrite Esk.
    + eapply (outcome_rootless _ _ _ _ _ i None); try done. unfold hashed. by rewrite Esk.
  - destruct (getHash world (sourceOf world i importee)) as [h|e] eqn:Eh; simpl.
    + destruct (root st) as [r|] eqn:Er; simpl.
      * eapply (outcome_handled _ _ _ _ _ i (Some h)); try done.
        unfold hashed. rewrite Esk. eauto.
      * eapply (outcome_rootless _ _ _ _ _ i (Some h)); try done.
        unfold hashed. rewrite Esk. eauto.
    + by eapply outcome_unhashed.
Qed.

End OutcomeFacts.

Section Claims.

Variable opts : Options.
Variable world : World.

Lemma outcome_of st importee importer r st' calls :
  resolveId opts world importee importer st = (r, st', calls) ->
  outcome opts world st importee importer r st' calls.
Proof. intros H. pose proof (resolveId_outcome opts world st importee importer) as Ho. by rewrite H in Ho. Qed.

Lemma non_null_registered {V} (o : gmap string V) k v :
  o !! k = Some v -> JsObject.non_null o k = true.
Proof. intros H. unfold JsObject.non_null. rewrite H. by rewrite bool_decide_eq_true_2. Qed.

(** C2 (cycle breaking), as amended: once a virtual asset id is marked in
    [assets], a later resolution of that exact id returns [Excluded] when it
    comes with a referrer and [NotHandled] when it comes without one; either
    way it is never [Handled], registers nothing and calls nothing. *)
Theorem cycle_breaking st id importer r st' calls :
  assets st !! id = Some true ->
  resolveId opts world id importer st = (r, st', calls) ->
  r = match truthy importer with Some _ => Excluded | None => NotHandled end
  /\ wrappers st' = wrappers st /\ assets st' = assets st /\ files st' = files st
  /\ calls = [].
Proof.
  intros Hreg H. apply outcome_of in H. apply non_null_registered in Hreg.
  inversion H; subst; try congruence;
    match goal with E : truthy importer = _ |- _ => rewrite E end; try done.
  all: match goal with E : eligible _ _ _ _ _ |- _ => destruct E; congruence end.
Qed.

(** C5 (delegation), as amended: when the referenced path is not an id that
    [assets] already answers for, [resolveId] returns [NotHandled] whenever the
    path has no extension, or a script extension, or its absolute source path
    fails the filter or does not exist; in all these cases the three
    registries are left as they were. *)
Theorem delegation st importee importer r st' calls :
  JsObject.non_null (assets st) importee = false ->
  (Path.extname importee = ""
   \/ scriptExtensions (Path.extname importee) = true
   \/ (forall i, truthy importer = Some i ->
         filter opts (sourceOf world i importee) = false
         \/ pathExists world (sourceOf world i importee) = false)) ->
  resolveId opts world importee importer st = (r, st', calls) ->
  r = NotHandled
  /\ wrappers st' = wrappers st /\ assets st' = assets st /\ files st' = files st.
Proof.
  intros Hnew Hcond H. apply outcome_of in H.
  inversion H; subst; try done; try congruence.
  all: match goal with E : eligible _ _ _ _ _ |- _ =>
         destruct E as (_ & He & Hs & Hf & Hp) end.
  all: destruct Hcond as [?|[?|Hc]]; try congruence.
  all: destruct (Hc _ ltac:(eassumption)); congruence.
Qed.

(** *** What a registration writes *)

Lemma sourceOf_not_proto i importee :
  Path.extname importee <> "" -> sourceOf world i importee <> "__proto__".
Proof.
  intros H Heq. apply H. rewrite <- (sourceOf_extname world i importee H), Heq. done.
Qed.

Lemma set_lookup_eq {V} (o : gmap string V) k v :
  k <> "__proto__" -> JsObject.set o k v !! k = Some v.
Proof.
  intros H. unfold JsObject.set. rewrite bool_decide_eq_false_2 by done.
  apply lookup_insert_eq.
Qed.

Lemma set_lookup_ne {V} (o : gmap string V) k k' v :
  k <> k' -> JsObject.set o k v !! k' = o !! k'.
Proof.
  intros H. unfold JsObject.set. case_bool_decide; [done|]. by apply lookup_insert_ne.
Qed.

(** *** Absolute paths, on strings *)

Lemma resolve_absolute args :
  isAbsolute (cwd world) = true -> isAbsolute (Path.resolve (cwd world) args) = true.
Proof.
  intros H. unfold isAbsolute, Path.resolve. rewrite of_to_string.
  by apply resolve_chars_absolute.
Qed.

Lemma dirname_absolute p : isAbsolute p = true -> isAbsolute (Path.dirname p) = true.
Proof.
  intros H. unfold isAbsolute, Path.dirname. rewrite of_to_string.
  by apply dirname_chars_absolute.
Qed.

Lemma join_absolute r rest : isAbsolute r = true -> isAbsolute (Path.join (r :: rest)) = true.
Proof.
  intros H. unfold isAbsolute, Path.join. rewrite of_to_string.
  by apply join_chars_absolute.
Qed.

Lemma replace_backslashes_absolute s :
  isAbsolute s = true -> isAbsolute (replace_backslashes s) = true.
Proof.
  destruct s as [|c s]; [done|]. unfold isAbsolute. simpl.
  intros H. apply is_slash_true in H as ->. done.
Qed.

Lemma absolute_not_proto s : isAbsolute s = true -> s <> "__proto__".
Proof. intros H ->. vm_compute in H. discriminate. Qed.

End Claims.

Section Naming.

Variable opts : Options.
Variable world : World.

Lemma targetOf_source i importee fileHash :
  Path.extname importee <> "" ->
  targetOf opts (sourceOf world i importee) fileHash = targetOf opts importee fileHash.
Proof.
  intros H. unfold targetOf.
  rewrite (sourceOf_extname world i importee H).
  by rewrite (sourceOf_basename world i importee H).
Qed.

Lemma hashed_fun src fh1 c1 fh2 c2 :
  hashed opts world src fh1 c1 -> hashed opts world src fh2 c2 -> fh1 = fh2 /\ c1 = c2.
Proof.
  unfold hashed. destruct (skipHash opts).
  - by intros [-> ->] [-> ->].
  - intros (h1 & H1 & -> & ->) (h2 & H2 & -> & ->). split; congruence.
Qed.

(** C1 (idempotent registration), as amended: two resolutions that are
    handled and reach the same absolute source path, from whatever referrers
    and in whatever registries, record the same destination for it, so
    resolving a file a second time leaves its destination as the first
    resolution set it; the record is written again each time, and with
    hashing on every such resolution makes its own hash computation for the
    file. *)
Theorem registration_idempotent
    st1 st2 importee1 importer1 importee2 importer2 i1 i2 id1 id2 st1' st2' calls1 calls2 :
  resolveId opts world importee1 importer1 st1 = (Handled id1, st1', calls1) ->
  resolveId opts world importee2 importer2 st2 = (Handled id2, st2', calls2) ->
  truthy importer1 = Some i1 -> truthy importer2 = Some i2 ->
  sourceOf world i1 importee1 = sourceOf world i2 importee2 ->
  let src := sourceOf world i1 importee1 in
  files st2' !! src = files st1' !! src
  /\ is_Some (files st1' !! src)
  /\ (skipHash opts = false ->
      hashComputations src calls1 = 1 /\ hashComputations src calls2 = 1).
Proof.
  intros H1 H2 E1 E2 Hsrc src.
  apply outcome_of in H1, H2.
  inversion H1 as [ | | | | | | |j1 fh1 c1 r1 Ht1 Hel1 Hh1 Hr1 aid1]; subst.
  inversion H2 as [ | | | | | | |j2 fh2 c2 r2 Ht2 Hel2 Hh2 Hr2 aid2]; subst.
  assert (j1 = i1) as -> by congruence. assert (j2 = i2) as -> by congruence.
  destruct Hel1 as (_ & He1 & _), Hel2 as (_ & He2 & _).
  rewrite <- Hsrc in Hh2. destruct (hashed_fun _ _ _ _ _ Hh1 Hh2) as [<- <-].
  rename Hh1 into Hh.
  simpl. fold src. rewrite <- Hsrc. fold src.
  assert (src <> "__proto__") as Hk by (by apply sourceOf_not_proto).
  rewrite !set_lookup_eq by done.
  rewrite <- (targetOf_source i1 importee1) by done.
  rewrite <- (targetOf_source i2 importee2) by done.
  rewrite <- Hsrc. split; [done|]. split; [done|].
  intros Hsk. unfold hashed in Hh. rewrite Hsk in Hh.
  destruct Hh as (h & _ & _ & ->). unfold hashComputations. simpl.
  fold src. by rewrite String.eqb_refl.
Qed.

End Naming.

(** ** Calls that overlap *)

Section Overlap.

Variable opts : Options.
Variable world : World.

(** Run without a break, the pieces are [resolveId]. *)
Lemma resolveId_pieces importee importer st :
  resolveId opts world importee importer st
  = (r ← enter opts world importee importer;
     match r with
     | inl res => mret res
     | inr k =>
         r' ← resumeFound opts k (pathExists world (heldFileSource k));
         match r' with
         | inl res => mret res
         | inr k' => resumeHashed opts k' (getHash world (heldFileSource k'))
         end
     end) st.
Proof.
  unfold resolveId, enter, resumeFound, resumeHashed, register,
    mbind, M_bind, mret, M_ret, get, modify, call.
  destruct (truthy importer) as [i|]; [|done]. simpl.
  destruct (JsObject.non_null (assets st) importee); [done|].
  destruct (String.eqb (Path.extname importee) ""); [done|].
  destruct (scriptExtensions (Path.extname importee)); [done|]. simpl.
  destruct (filter opts _); [|done]. simpl.
  destruct (pathExists world _); [|done]. simpl.
  destruct (skipHash opts); simpl.
  - by destruct (root st).
  - destruct (getHash world _); simpl; [|done]. by destruct (root st).
Qed.

(** *** The redirect records *)

(** The registrations of the handled case keep the invariant. *)
Lemma registration_invariant st src dest r fileTarget :
  rooted st -> registry_invariant st -> root st = Some r ->
  let assetId := assetIdOf opts r fileTarget in
  registry_invariant
    (set_wrapper (assetId ++ ".js") assetId (set_asset assetId (set_file src dest st))).
Proof.
  intros Hroot Hinv Hr aid. unfold registry_invariant in *. simpl.
  assert (aid <> "__proto__") as Hne.
  { apply absolute_not_proto, replace_backslashes_absolute, join_absolute. by apply Hroot. }
  intros k v. unfold JsObject.set at 1. case_bool_decide.
  - intros Hl. destruct (decide (aid = v)) as [<-|Hv]; [by apply set_lookup_eq|].
    rewrite set_lookup_ne by done. by eapply Hinv.
  - destruct (decide ((aid ++ ".js") = k)) as [<-|Hk].
    + rewrite lookup_insert_eq. intros [= <-]. by apply set_lookup_eq.
    + rewrite lookup_insert_ne by done. intros Hl.
      destruct (decide (aid = v)) as [<-|Hv]; [by apply set_lookup_eq|].
      rewrite set_lookup_ne by done. by eapply Hinv.
Qed.

Lemma enter_invariant st importee importer :
  isAbsolute (cwd world) = true ->
  rooted st /\ registry_invariant st ->
  rooted (enter opts world importee importer st).1.2
  /\ registry_invariant (enter opts world importee importer st).1.2.
Proof.
  intros Hcwd [Hroot Hinv].
  unfold enter, mbind, M_bind, mret, M_ret, get, modify, call.
  destruct (truthy importer) as [i|]; simpl.
  - destruct (JsObject.non_null (assets st) importee); [done|].
    destruct (String.eqb (Path.extname importee) ""); [done|].
    destruct (scriptExtensions (Path.extname importee)); [done|]. simpl.
    by destruct (filter opts _).
  - split; [|done]. intros r [= <-]. by apply dirname_absolute, resolve_absolute.
Qed.

Lemma register_invariant k fileHash st :
  rooted st /\ registry_invariant st ->
  rooted (register opts k fileHash st).1.2
  /\ registry_invariant (register opts k fileHash st).1.2.
Proof.
  intros [Hroot Hinv]. unfold register, mbind, M_bind, mret, M_ret, get, modify. simpl.
  destruct (root st) as [r|] eqn:Er; simpl; [|done].
  split; [done|]. by apply registration_invariant.
Qed.

Lemma advance_invariant t st :
  rooted st /\ registry_invariant st ->
  rooted (advance opts world t st).1 /\ registry_invariant (advance opts world t st).1.
Proof.
  intros H. destruct t as [k|k]; simpl.
  - unfold resumeFound. destruct (pathExists world (heldFileSource k)); simpl; [|done].
    destruct (skipHash opts); [|done].
    unfold mbind, M_bind, mret, M_ret.
    pose proof (register_invariant k None st H) as H'.
    by destruct (register opts k None st) as [[r st'] c].
  - unfold resumeHashed. destruct (getHash world (heldFileSource k)); [|done].
    by apply register_invariant.
Qed.

(** However the calls overlap, the root is absolute and every redirect record
    points at a claimed asset id. *)
Lemma interleaved_invariant st tasks :
  isAbsolute (cwd world) = true ->
  interleaved opts world st tasks -> rooted st /\ registry_invariant st.
Proof.
  intros Hcwd. induction 1 as [|st tasks importee importer _ IH|st before t after _ IH].
  - split; [by intros r|]. intros k v. unfold fresh. simpl. by rewrite lookup_empty.
  - by apply enter_invariant.
  - by apply advance_invariant.
Qed.

(** *** The destination records *)

Lemma hashed_hashOf src fileHash calls :
  hashed opts world src fileHash calls -> hashOf opts world src fileHash.
Proof.
  unfold hashed, hashOf. destruct (skipHash opts); [by intros [-> _]|].
  intros (h & ? & ? & _). eauto.
Qed.

Lemma recorded_files st st' :
  files st' = files st -> recorded opts world st -> recorded opts world st'.
Proof. intros Hf Hrec src d. rewrite Hf. apply Hrec. Qed.

Lemma set_file_recorded st i importee fileHash :
  recorded opts world st ->
  Path.extname importee <> "" ->
  hashOf opts world (sourceOf world i importee) fileHash ->
  recorded opts world
    (set_file (sourceOf world i importee)
       (Path.join [assetFolder opts; targetOf opts importee fileHash]) st).
Proof.
  intros Hrec He Hh src d. simpl.
  destruct (decide (sourceOf world i importee = src)) as [<-|Hne].
  - rewrite set_lookup_eq by (by apply sourceOf_not_proto). intros [= <-].
    split; [by rewrite sourceOf_extname|].
    exists fileHash. split; [done|]. by rewrite targetOf_source.
  - rewrite set_lookup_ne by done. apply Hrec.
Qed.

Lemma enter_recorded st importee importer :
  recorded opts world st ->
  recorded opts world (enter opts world importee importer st).1.2
  /\ forall k, (enter opts world importee importer st).1.1 = inr k -> held world k.
Proof.
  intros Hrec. unfold enter, mbind, M_bind, mret, M_ret, get, modify, call.
  destruct (truthy importer) as [i|]; simpl; [|done].
  destruct (JsObject.non_null (assets st) importee); [done|].
  destruct (String.eqb_spec (Path.extname importee) "") as [|He]; [done|].
  destruct (scriptExtensions (Path.extname importee)); [done|]. simpl.
  destruct (filter opts _); [|done]. simpl.
  split; [done|]. intros k [= <-]. by exists i.
Qed.

Lemma register_recorded k fileHash st :
  held world k -> hashOf opts world (heldFileSource k) fileHash ->
  recorded opts world st ->
  recorded opts world (register opts k fileHash st).1.2.
Proof.
  intros (i & He & Hext & Hsrc) Hh Hrec.
  unfold register, mbind, M_bind, mret, M_ret, get, modify. simpl.
  rewrite Hsrc in *. rewrite Hext.
  fold (targetOf opts (heldImportee k) fileHash).
  pose proof (set_file_recorded st i (heldImportee k) fileHash Hrec He Hh) as Hset.
  destruct (root st); simpl; [|done].
  eapply recorded_files; [|exact Hset]. done.
Qed.

Lemma advance_recorded t st :
  task_held opts world t -> recorded opts world st ->
  recorded opts world (advance opts world t st).1
  /\ forall t', (advance opts world t st).2 = Some t' -> task_held opts world t'.
Proof.
  intros Ht Hrec. destruct t as [k|k]; simpl in *.
  - unfold resumeFound. destruct (pathExists world (heldFileSource k)); simpl; [|done].
    destruct (skipHash opts) eqn:Esk; simpl.
    + unfold mbind, M_bind, mret, M_ret.
      pose proof (register_recorded k None st Ht) as H.
      destruct (register opts k None st) as [[r st'] c]. simpl in *.
      split; [|done]. apply H; [|done]. unfold hashOf. by rewrite Esk.
    + split; [done|]. by intros t' [= <-].
  - destruct Ht as [Hk Hsk]. split; [|done]. unfold resumeHashed.
    destruct (getHash world (heldFileSource k)) as [h|e] eqn:Eh; [|done].
    apply register_recorded; [done| |done].
    unfold hashOf. rewrite Hsk. by exists h.
Qed.

(** However the calls overlap, the destination recorded for a source file is
    the one computed from its path and its hash. *)
Lemma interleaved_recorded st tasks :
  interleaved opts world st tasks ->
  recorded opts world st /\ Forall (task_held opts world) tasks.
Proof.
  induction 1 as [|st tasks importee importer _ [IHr IHt]
                  |st before t after _ [IHr IHt]].
  - split; [|constructor]. intros src d. unfold fresh. simpl. by rewrite lookup_empty.
  - destruct (enter_recorded st importee importer IHr) as [Hr Hk]. split; [done|].
    destruct (enter opts world importee importer st).1.1 as [res|k]; [done|].
    constructor; [by apply Hk|done].
  - apply Forall_app in IHt as [Hb Ht]. apply Forall_cons in Ht as [Ht Ha].
    destruct (advance_recorded t st Ht IHr) as [Hr Hn]. split; [done|].
    apply Forall_app. split; [done|].
    destruct (advance opts world t st).2 as [t'|]; [|done].
    constructor; [by apply Hn|done].
Qed.

Lemma hashOf_functional src fh1 fh2 :
  hashOf opts world src fh1 -> hashOf opts world src fh2 -> fh1 = fh2.
Proof.
  unfold hashOf. destruct (skipHash opts); [congruence|].
  intros (h1 & H1 & ->) (h2 & H2 & ->). congruence.
Qed.

(** Whatever the registries one looks at, a source file has one destination. *)
Lemma recorded_functional st1 st2 src d1 d2 :
  recorded opts world st1 -> recorded opts world st2 ->
  files st1 !! src = Some d1 -> files st2 !! src = Some d2 -> d1 = d2.
Proof.
  intros H1 H2 Hl1 Hl2.
  destruct (H1 _ _ Hl1) as (_ & fh1 & Hh1 & ->).
  destruct (H2 _ _ Hl2) as (_ & fh2 & Hh2 & ->).
  by rewrite (hashOf_functional _ _ _ Hh1 Hh2).
Qed.

(** *** Builds whose calls do not overlap *)

Lemma reachable_interleaved st : reachable opts world st -> interleaved opts world st [].
Proof.
  induction 1 as [|st importee importer _ IH]; [constructor|].
  rewrite resolveId_pieces. unfold mbind, M_bind, mret, M_ret.
  pose proof (interleaved_call opts world st [] importee importer IH) as H1.
  destruct (enter opts world importee importer st) as [[[res|k] st1] c1]; simpl in *; [done|].
  pose proof (interleaved_resume opts world st1 [] (AwaitPathExists k) [] H1) as H2.
  simpl in H2.
  destruct (resumeFound opts k (pathExists world (heldFileSource k)) st1)
    as [[[res|k'] st2] c2]; simpl in *; [done|].
  pose proof (interleaved_resume opts world st2 [] (AwaitGetHash k') [] H2) as H3.
  simpl in H3.
  by destruct (resumeHashed opts k' (getHash world (heldFileSource k')) st2) as [[res st3] c3].
Qed.

Lemma resolveAll_cons importee importer rest st :
  (resolveAll opts world ((importee, importer) :: rest) st).1.2
  = (resolveAll opts world rest (resolveId opts world importee importer st).1.2).1.2.
Proof.
  simpl. unfold mbind, M_bind, mret, M_ret.
  destruct (resolveId opts world importee importer st) as [[r st1] c1]. simpl.
  destruct (resolveAll opts world rest st1) as [[rs st2] c2]. done.
Qed.

Lemma resolveAll_reachable reqs st :
  reachable opts world st -> reachable opts world (resolveAll opts world reqs st).1.2.
Proof.
  revert st. induction reqs as [|[importee importer] rest IH]; intros st Hst; [done|].
  rewrite resolveAll_cons. apply IH. by constructor.
Qed.

Lemma resolveAll_interleaved reqs :
  interleaved opts world (resolveAll opts world reqs fresh).1.2 [].
Proof. apply reachable_interleaved, resolveAll_reachable. constructor. Qed.

(** C9 (registry invariant): after every sequence of [resolveId] calls, from
    the fresh registries, every value stored in [wrappers] is a key mapped to
    [true] in [assets].  The working directory of the process is an absolute
    path, as [process.cwd()] always is. *)
Theorem registry_invariant_holds reqs :
  isAbsolute (cwd world) = true ->
  registry_invariant (resolveAll opts world reqs fresh).1.2.
Proof.
  intros Hcwd. eapply interleaved_invariant; [done|]. apply resolveAll_interleaved.
Qed.

End Overlap.

(** *** Recovering the hash from a destination *)

Section HashInName.

Import Path.
Local Open Scope list_scope.

Lemma is_alnum_not_slash c : is_alnum c = true -> is_slash c = false.
Proof.
  intros H. destruct (is_slash c) eqn:E; [|done].
  apply is_slash_true in E as ->. vm_compute in H. discriminate.
Qed.

Lemma is_alnum_not_dot c : is_alnum c = true -> is_dot c = false.
Proof.
  intros H. destruct (is_dot c) eqn:E; [|done].
  apply is_dot_true in E as ->. vm_compute in H. discriminate.
Qed.

Lemma is_alnum_not_tilde c : is_alnum c = true -> c <> tilde.
Proof. intros H ->. vm_compute in H. discriminate. Qed.

Lemma first_split (c : ascii) l1 r1 l2 r2 :
  c ∉ l1 -> c ∉ l2 -> l1 ++ c :: r1 = l2 ++ c :: r2 -> l1 = l2 /\ r1 = r2.
Proof.
  revert l2. induction l1 as [|a l1 IH]; intros [|b l2] H1 H2 Heq; simpl in Heq.
  - by injection Heq.
  - injection Heq as <- _. exfalso. apply H2. by left.
  - injection Heq as -> _. exfalso. apply H1. by left.
  - injection Heq as -> Heq.
    destruct (IH l2) as [-> ->]; try done.
    + intros Hin. apply H1. by right.
    + intros Hin. apply H2. by right.
Qed.

Lemma dotfree_not_in x : dotfree x -> dot ∉ x.
Proof.
  intros Hx Hin. unfold dotfree in Hx. rewrite Forall_forall in Hx.
  specialize (Hx _ Hin). vm_compute in Hx. discriminate.
Qed.

Lemma wellformedHash_alnums h :
  wellformedHash h = true -> of_string h <> [] /\ alnums (of_string h).
Proof.
  unfold wellformedHash. intros H. apply andb_true_iff in H as [H1 H2].
  split.
  - intros E. destruct h; [done|]. discriminate.
  - apply Forall_forall. intros c Hc.
    apply (proj1 (forallb_forall _ _) H2). by apply list_elem_of_In.
Qed.

Lemma alnums_slashfree h : alnums h -> slashfree h.
Proof. intros H. eapply Forall_impl; [exact H|]. apply is_alnum_not_slash. Qed.

Lemma last_piece_snoc n c :
  is_slash c = false -> last_piece (n ++ [c]) = last_piece n ++ [c].
Proof.
  intros Hc. unfold last_piece. rewrite rev_app_distr. simpl.
  unfold not_slash at 1. by rewrite Hc.
Qed.

Lemma named_kept X h e :
  h <> [] -> alnums h -> ext_shaped e -> kept (last_piece X ++ h ++ e).
Proof.
  intros Hne Hh (x & -> & Hx & Hsx).
  destruct h as [|h0 h]; [done|]. inversion Hh as [|? ? Hh0 Hh']; subst.
  assert (forall b : chars, h0 ∈ b -> b <> [dot] /\ b <> dotdot) as Hdots.
  { intros b Hin. split; intros ->.
    - apply list_elem_of_singleton in Hin as ->. vm_compute in Hh0. discriminate.
    - apply elem_of_cons in Hin as [->|Hin]; [vm_compute in Hh0; discriminate|].
      apply list_elem_of_singleton in Hin as ->. vm_compute in Hh0. discriminate. }
  assert (h0 ∈ last_piece X ++ (h0 :: h) ++ dot :: x) as Hin.
  { apply elem_of_app. right. by left. }
  destruct (Hdots _ Hin) as [H1 H2].
  repeat split; [|done|done|].
  - intros E. rewrite E in Hin. by apply not_elem_of_nil in Hin.
  - apply Forall_app. split; [apply last_piece_slashfree|].
    apply Forall_app. split; [by apply alnums_slashfree|].
    constructor; [done|done].
Qed.

Lemma destination_tail args X h e :
  h <> [] -> alnums h -> ext_shaped e ->
  tail_seg (join_chars (args ++ [X ++ h ++ e])) = last_piece X ++ h ++ e.
Proof.
  intros Hne Hh He.
  pose proof (named_kept X h e Hne Hh He) as Hk.
  apply tail_seg_ends_in; [apply Hk|apply Hk|].
  apply ends_exactly_ends_in, join_chars_ends_exactly; [done|].
  apply ends_exactly_app.
  destruct He as (x & -> & _ & Hsx).
  apply Forall_app. split; [by apply alnums_slashfree|]. by constructor.
Qed.

Lemma hash_of_tail X1 X2 h1 h2 e1 e2 :
  (X1 = [] /\ X2 = []) \/ (exists n1 n2, X1 = n1 ++ [tilde] /\ X2 = n2 ++ [tilde]) ->
  alnums h1 -> alnums h2 -> ext_shaped e1 -> ext_shaped e2 ->
  last_piece X1 ++ h1 ++ e1 = last_piece X2 ++ h2 ++ e2 -> h1 = h2.
Proof.
  intros HX Hh1 Hh2 (x1 & -> & Hx1 & _) (x2 & -> & Hx2 & _) Heq.
  apply (f_equal (@rev ascii)) in Heq.
  rewrite !rev_app_distr in Heq. simpl in Heq. rewrite <- !app_assoc in Heq. simpl in Heq.
  apply first_split in Heq as [_ Heq].
  2,3: intros Hin; apply (dotfree_not_in (rev _)) in Hin; [done|by apply Forall_rev].
  assert (forall h, alnums h -> tilde ∉ rev h) as Hnt.
  { intros h Hh Hin. apply Forall_rev in Hh. rewrite Forall_forall in Hh.
    by apply Hh, is_alnum_not_tilde in Hin. }
  destruct HX as [[-> ->]|(n1 & n2 & -> & ->)].
  - unfold last_piece in Heq. simpl in Heq. rewrite !app_nil_r in Heq.
    apply (f_equal (@rev ascii)) in Heq. by rewrite !rev_involutive in Heq.
  - rewrite !last_piece_snoc in Heq by done.
    rewrite !rev_app_distr in Heq. simpl in Heq.
    apply first_split in Heq as [Heq _]; [|by apply Hnt|by apply Hnt].
    apply (f_equal (@rev ascii)) in Heq. by rewrite !rev_involutive in Heq.
Qed.

End HashInName.

Section Destinations.

Variable opts : Options.
Variable world : World.

Lemma to_string_app a b : Path.to_string (a ++ b)%list = Path.to_string a ++ Path.to_string b.
Proof.
  unfold Path.to_string. induction a as [|c a IH]; [done|].
  change (String c (string_of_list_ascii (a ++ b))
          = String c (string_of_list_ascii a ++ string_of_list_ascii b)).
  by rewrite IH.
Qed.

Lemma effectiveExt_shaped p :
  Path.extname p <> "" -> ext_shaped (Path.of_string (effectiveExt (Path.extname p))).
Proof.
  intros H. unfold effectiveExt.
  destruct (String.eqb (Path.extname p) ".sss").
  - exists (Path.of_string "pcss"). split; [done|]. split; by repeat constructor.
  - rewrite extname_seg, of_to_string.
    apply ext_of_seg_ext_shaped; [apply tail_seg_slashfree|].
    by apply to_string_nonempty.
Qed.

Lemma target_chars name ext h :
  Path.of_string (targetName opts name ext (Some h))
  = ((if keepName opts then Path.of_string name ++ [tilde] else [])
     ++ Path.of_string h ++ Path.of_string ext)%list.
Proof.
  unfold targetName. destruct (keepName opts); rewrite !of_string_app; [|done].
  simpl. by rewrite <- app_assoc.
Qed.

Lemma destination_seg s h :
  Path.extname s <> "" -> wellformedHash h = true ->
  let ext := effectiveExt (Path.extname s) in
  seg (Path.join [assetFolder opts; targetOf opts s (Some h)])
  = (last_piece (if keepName opts
                 then Path.of_string (Path.basename s ext) ++ [tilde] else [])
     ++ Path.of_string h ++ Path.of_string ext)%list.
Proof.
  intros He Hw ext. apply wellformedHash_alnums in Hw as [Hn Ha].
  unfold seg, Path.join. rewrite of_to_string.
  change (List.map Path.of_string [assetFolder opts; targetOf opts s (Some h)])
    with ([Path.of_string (assetFolder opts)]
          ++ [Path.of_string (targetOf opts s (Some h))])%list.
  unfold targetOf. rewrite target_chars.
  apply destination_tail; [done|done|]. by apply effectiveExt_shaped.
Qed.





End Destinations.

Section EmitterFacts.

Variable opts : Options.
Variable world : World.

Lemma promiseAll_calls ps : (promiseAll ps).1 = concat (List.map fst ps).
Proof.
  induction ps as [|[c r] ps IH]; [done|]. simpl.
  destruct (promiseAll ps) as [cs rs]. simpl in *. by rewrite IH.
Qed.

Lemma promiseAll_fulfilled ps u :
  (promiseAll ps).2 = Fulfilled u -> forall p, p ∈ ps -> p.2 = Fulfilled tt.
Proof.
  induction ps as [|[c r] ps IH]; intros H p Hp; [by apply not_elem_of_nil in Hp|].
  simpl in H. destruct (promiseAll ps) as [cs rs]. simpl in *.
  destruct r as [[]|e]; [|done].
  apply elem_of_cons in Hp as [->|Hp]; [done|]. by apply IH.
Qed.

Lemma promiseAll_rejected ps :
  (exists p e, p ∈ ps /\ p.2 = Rejected e) ->
  exists p e, p ∈ ps /\ p.2 = Rejected e /\ (promiseAll ps).2 = Rejected e.
Proof.
  induction ps as [|[c r] ps IH]; intros (p & e & Hp & He).
  { by apply not_elem_of_nil in Hp. }
  simpl. destruct (promiseAll ps) as [cs rs] eqn:E. simpl in *.
  destruct r as [u|e0].
  - apply elem_of_cons in Hp as [->|Hp]; [done|].
    destruct IH as (p' & e' & Hp' & He' & Hr); [by eauto|].
    exists p', e'. split; [by right|]. done.
  - exists (c, Rejected e0), e0. split; [by left|]. done.
Qed.

Lemma keys_lookup {V} (o : gmap string V) k :
  k ∈ JsObject.keys o <-> is_Some (o !! k).
Proof.
  unfold JsObject.keys. rewrite list_elem_of_fmap. split.
  - intros ([k' v] & -> & H). apply elem_of_map_to_list in H. by exists v.
  - intros [v H]. exists (k, v). split; [done|]. by apply elem_of_map_to_list.
Qed.

(** *** One asset *)

Lemma logAction_quiet st verb a b :
  verbose opts = false \/ is_Some (root st) ->
  exists logs, logAction opts world st verb a b = (logs, Fulfilled tt) /\ effects logs = [].
Proof.
  intros H. unfold logAction, rootRelative.
  destruct (verbose opts); [|by exists []].
  destruct H as [?|[r ->]]; [done|]. by eexists.
Qed.

Lemma emitOne_body st outputFolder src relative :
  files st !! src = Some relative ->
  verbose opts = false \/ is_Some (root st) ->
  exists logs,
    effects logs = [] /\
    emitOne opts world st outputFolder src
    = ((logs ++ (emitBody opts world outputFolder src relative).1)%list,
       (emitBody opts world outputFolder src relative).2).
Proof.
  intros Hl Hq. unfold emitOne, emitBody. rewrite Hl.
  case_bool_decide.
  - destruct (logAction_quiet st "Processing" src (Path.join [outputFolder; relative]) Hq)
      as (logs & -> & Hlogs).
    exists logs. split; [done|]. unfold mbind, E_bind.
    by destruct (processStyle _ _ _ _ _).
  - destruct (logAction_quiet st "Copying" src (Path.join [outputFolder; relative]) Hq)
      as (logs & -> & Hlogs).
    exists logs. split; [done|]. done.
Qed.

Lemma processStyle_run id fileDest kn sh :
  processStyle world id fileDest kn sh =
  match readFile world id with
  | Rejected e => ([CallReadFile id], Rejected e)
  | Fulfilled content =>
      let processor := getPostCssPlugins kn sh in
      let options := processOptions id fileDest in
      match postcssProcess world processor content options with
      | Rejected e =>
          ([CallReadFile id; CallProcess processor content options], Rejected e)
      | Fulfilled (css, map) =>
          ([CallReadFile id; CallProcess processor content options;
            CallOutputFile fileDest css; CallOutputFile (fileDest ++ ".map") map],
           match outputFile world fileDest css with
           | Rejected e => Rejected e
           | Fulfilled _ =>
               match outputFile world (fileDest ++ ".map") map with
               | Rejected e => Rejected e
               | Fulfilled _ => Fulfilled tt
               end
           end)
      end
  end.
Proof.
  unfold processStyle, mbind, E_bind, await. simpl.
  destruct (readFile world id) as [content|e]; [|done].
  destruct (postcssProcess _ _ _ _) as [[css map]|e]; [|done].
  simpl. destruct (outputFile world fileDest css); done.
Qed.

(** The table [styleParser], read entry by entry. *)
Lemma styleParser_explicit ext :
  styleParser ext
  = if bool_decide (ext ∈ [".pcss"; ".css"; ".sss"; ".scss"; ".sass"])
    then Some (if String.eqb ext ".sss" then Some postcssSugarSS
               else if String.eqb ext ".scss" then Some postcssScss
               else if String.eqb ext ".sass" then Some postcssSass
               else None)
    else None.
Proof.
  unfold styleParser, styleParserTable. cbv beta iota delta [List.find fst].
  destruct (String.eqb_spec ".pcss" ext) as [<-|H1]; [vm_compute; reflexivity|].
  destruct (String.eqb_spec ".css" ext) as [<-|H2]; [vm_compute; reflexivity|].
  destruct (String.eqb_spec ".sss" ext) as [<-|H3]; [vm_compute; reflexivity|].
  destruct (String.eqb_spec ".scss" ext) as [<-|H4]; [vm_compute; reflexivity|].
  destruct (String.eqb_spec ".sass" ext) as [<-|H5]; [vm_compute; reflexivity|].
  simpl. rewrite bool_decide_eq_false_2; [done|].
  intros H. repeat (apply elem_of_cons in H as [H|H]; [congruence|]).
  by apply not_elem_of_nil in H.
Qed.

Lemma processOptions_explicit id fileDest :
  processOptions id fileDest
  = {| from := id; to := fileDest;
       extensions := [".pcss"; ".css"; ".sss"; ".scss"; ".sass"];
       map_inline := false;
       parser := if String.eqb (Path.extname id) ".sss" then Some postcssSugarSS
                 else if String.eqb (Path.extname id) ".scss" then Some postcssScss
                 else if String.eqb (Path.extname id) ".sass" then Some postcssSass
                 else None |}.
Proof.
  unfold processOptions. f_equal. rewrite styleParser_explicit.
  case_bool_decide as H; [done|]. simpl.
  destruct (String.eqb_spec (Path.extname id) ".sss") as [E|_];
    [exfalso; apply H; rewrite E; set_solver|].
  destruct (String.eqb_spec (Path.extname id) ".scss") as [E|_];
    [exfalso; apply H; rewrite E; set_solver|].
  destruct (String.eqb_spec (Path.extname id) ".sass") as [E|_];
    [exfalso; apply H; rewrite E; set_solver|].
  done.
Qed.

Lemma effects_app a b : effects (a ++ b) = (effects a ++ effects b)%list.
Proof. unfold effects. apply List.filter_app. Qed.

Lemma logAction_logs st verb a b c :
  c ∈ (logAction opts world st verb a b).1 -> isLog c = true.
Proof.
  unfold logAction. destruct (verbose opts); [|by intros ?%not_elem_of_nil].
  destruct (rootRelative world st a), (rootRelative world st b); simpl;
    try by intros ?%not_elem_of_nil.
  by intros ->%list_elem_of_singleton.
Qed.

Lemma emitOne_fulfilled st outputFolder src relative u :
  files st !! src = Some relative ->
  (emitOne opts world st outputFolder src).2 = Fulfilled u ->
  exists logs,
    emitOne opts world st outputFolder src
    = ((logs ++ (emitBody opts world outputFolder src relative).1)%list,
       (emitBody opts world outputFolder src relative).2).
Proof.
  intros Hl. unfold emitOne, emitBody. rewrite Hl.
  case_bool_decide; unfold mbind, E_bind.
  - destruct (logAction _ _ _ _ _ _) as [logs [[]|e]]; [|done].
    destruct (processStyle _ _ _ _ _) as [c r]. by exists logs.
  - destruct (logAction _ _ _ _ _ _) as [logs [[]|e]]; [|done].
    by exists logs.
Qed.

Lemma emitOne_calls st outputFolder k c :
  c ∈ (emitOne opts world st outputFolder k).1 ->
  isLog c = true
  \/ exists relative, files st !! k = Some relative
                      /\ c ∈ (emitBody opts world outputFolder k relative).1.
Proof.
  unfold emitOne, emitBody.
  destruct (files st !! k) as [relative|]; [|by intros ?%not_elem_of_nil].
  case_bool_decide as Hs; unfold mbind, E_bind.
  - pose proof (logAction_logs st "Processing" k (Path.join [outputFolder; relative]) c) as Hlog.
    destruct (logAction _ _ _ _ _ _) as [logs [[]|e]]; simpl in *; [|intros Hin; left; by apply Hlog].
    destruct (processStyle _ _ _ _ _) as [cs r] eqn:E. simpl.
    intros [Hin|Hin]%elem_of_app; [left; by apply Hlog|]. right.
    exists relative. split; [done|]. by rewrite E.
  - pose proof (logAction_logs st "Copying" k (Path.join [outputFolder; relative]) c) as Hlog.
    destruct (logAction _ _ _ _ _ _) as [logs [[]|e]]; simpl in *; [|intros Hin; left; by apply Hlog].
    intros [Hin|Hin]%elem_of_app; [left; by apply Hlog|]. right. by exists relative.
Qed.

Lemma copy_origin st outputFolder k s d :
  CallCopy s d ∈ (emitOne opts world st outputFolder k).1 ->
  s = k /\ styleParser (Path.extname k) = None.
Proof.
  intros [Hlog|(relative & _ & Hin)]%emitOne_calls; [done|].
  unfold emitBody in Hin. case_bool_decide as Hs.
  - rewrite processStyle_run in Hin.
    destruct (readFile world k) as [content|e]; simpl in Hin.
    + destruct (postcssProcess _ _ _ _) as [[css map]|e]; simpl in Hin;
        repeat (apply elem_of_cons in Hin as [?|Hin]; [done|]);
        by apply not_elem_of_nil in Hin.
    + repeat (apply elem_of_cons in Hin as [?|Hin]; [done|]).
      by apply not_elem_of_nil in Hin.
  - simpl in Hin. apply list_elem_of_singleton in Hin. injection Hin as -> _.
    split; [done|]. destruct (styleParser (Path.extname k)) eqn:E; [|done].
    exfalso. apply Hs. by eexists.
Qed.

Lemma read_origin st outputFolder k s :
  CallReadFile s ∈ (emitOne opts world st outputFolder k).1 ->
  s = k /\ is_Some (styleParser (Path.extname k)).
Proof.
  intros [Hlog|(relative & _ & Hin)]%emitOne_calls; [done|].
  unfold emitBody in Hin. case_bool_decide as Hs.
  - split; [|done]. rewrite processStyle_run in Hin.
    destruct (readFile world k) as [content|e]; simpl in Hin.
    + destruct (postcssProcess _ _ _ _) as [[css map]|e]; simpl in Hin;
        apply elem_of_cons in Hin as [Hin|Hin]; try (by injection Hin);
        repeat (apply elem_of_cons in Hin as [?|Hin]; [done|]);
        by apply not_elem_of_nil in Hin.
    + apply list_elem_of_singleton in Hin. by injection Hin.
  - simpl in Hin. by apply list_elem_of_singleton in Hin.
Qed.

Lemma in_run_in_all st outputFolder src c :
  is_Some (files st !! src) ->
  c ∈ (emitOne opts world st outputFolder src).1 ->
  c ∈ concat (List.map fst (List.map (emitOne opts world st outputFolder)
                               (JsObject.keys (files st)))).
Proof.
  intros Hs Hc. apply list_elem_of_In, in_concat.
  exists (emitOne opts world st outputFolder src).1. split; [|by apply list_elem_of_In].
  apply in_map, in_map, list_elem_of_In. by apply keys_lookup.
Qed.

Lemma in_all_in_run st outputFolder c :
  c ∈ concat (List.map fst (List.map (emitOne opts world st outputFolder)
                               (JsObject.keys (files st)))) ->
  exists k, is_Some (files st !! k) /\ c ∈ (emitOne opts world st outputFolder k).1.
Proof.
  intros Hc. apply list_elem_of_In, in_concat in Hc as (l & Hl & Hc).
  apply in_map_iff in Hl as (p & <- & Hp). apply in_map_iff in Hp as (k & <- & Hk).
  exists k. split; [by apply keys_lookup, list_elem_of_In|by apply list_elem_of_In].
Qed.

(** C6 (dialect-aware emission): when the emit step completes, the output
    folder is the directory the output options name, or the directory of the
    file they name when they name no directory.  Every registered asset whose
    source extension is one of [.pcss], [.css], [.sss], [.scss] and [.sass]
    was read and run through PostCSS, with the import plugin and the asset
    plugin (set to copy, and to the hashing and naming of the options), with
    the parser of its dialect and with a separate source map; the resulting
    style sheet was written at its destination and the map at the destination
    plus [.map]; and it was never copied.  Every other registered asset was
    copied from its source to its destination, and never read. *)
Theorem dialect_aware_emission file dir st calls :
  generateBundle opts world file dir st = (calls, Fulfilled tt) ->
  exists outputFolder,
    match dir with
    | Some (String c d) => outputFolder = String c d
    | _ => exists f, file = Some f /\ outputFolder = Path.dirname f
    end /\
    forall src relative,
      files st !! src = Some relative ->
      let fileDest := Path.join [outputFolder; relative] in
      let ext := Path.extname src in
      let plugins :=
        [postcssImport; postcssSmartAsset "copy" (negb (skipHash opts)) (keepName opts)] in
      let options :=
        {| from := src; to := fileDest;
           extensions := [".pcss"; ".css"; ".sss"; ".scss"; ".sass"];
           map_inline := false;
           parser := if String.eqb ext ".sss" then Some postcssSugarSS
                     else if String.eqb ext ".scss" then Some postcssScss
                     else if String.eqb ext ".sass" then Some postcssSass
                     else None |} in
      if bool_decide (ext ∈ [".pcss"; ".css"; ".sss"; ".scss"; ".sass"]) then
        exists content css map,
          CallReadFile src ∈ calls /\
          readFile world src = Fulfilled content /\
          CallProcess plugins content options ∈ calls /\
          postcssProcess world plugins content options = Fulfilled (css, map) /\
          CallOutputFile fileDest css ∈ calls /\
          outputFile world fileDest css = Fulfilled tt /\
          CallOutputFile (fileDest ++ ".map") map ∈ calls /\
          outputFile world (fileDest ++ ".map") map = Fulfilled tt /\
          forall d, CallCopy src d ∉ calls
      else
        CallCopy src fileDest ∈ calls /\ copy world src fileDest = Fulfilled tt
        /\ CallReadFile src ∉ calls.
Proof.
  unfold generateBundle. destruct (outputFolderOf file dir) as [out|] eqn:Ho; [|done].
  destruct (promiseAll _) as [cs rs] eqn:Ep. destruct rs as [[]|e]; [|done].
  intros [= <-]. exists out. split.
  { unfold outputFolderOf in Ho. destruct dir as [[|c d]|]; simpl in Ho.
    - destruct file as [f|]; [|done]. injection Ho as <-. by exists f.
    - by injection Ho as <-.
    - destruct file as [f|]; [|done]. injection Ho as <-. by exists f. }
  cbv zeta. intros src relative Hl.
  set (fileDest := Path.join [out; relative]).
  pose proof (f_equal fst Ep) as Hcs. rewrite promiseAll_calls in Hcs. simpl in Hcs.
  assert (is_Some (files st !! src)) as Hsome by (by eexists).
  assert (emitOne opts world st out src
          ∈ List.map (emitOne opts world st out) (JsObject.keys (files st))) as Hmem.
  { apply list_elem_of_In, in_map, list_elem_of_In. by apply keys_lookup. }
  pose proof (promiseAll_fulfilled _ tt (f_equal snd Ep) _ Hmem) as Hok.
  destruct (emitOne_fulfilled st out src relative tt Hl Hok) as (logs & Hrun).
  rewrite Hrun in Hok.
  assert (forall c, c ∈ (emitBody opts world out src relative).1 -> c ∈ cs) as Hin.
  { intros c Hc. rewrite <- Hcs. apply (in_run_in_all st out src); [done|].
    rewrite Hrun. simpl. apply elem_of_app. by right. }
  simpl in Hok. unfold emitBody in Hok, Hin. fold fileDest in Hok, Hin.
  pose proof (styleParser_explicit (Path.extname src)) as Es.
  destruct (decide (Path.extname src ∈ [".pcss"; ".css"; ".sss"; ".scss"; ".sass"]))
    as [Hd|Hd].
  - rewrite (bool_decide_eq_true_2 _ Hd) in Es. rewrite (bool_decide_eq_true_2 _ Hd).
    rewrite bool_decide_eq_true_2 in Hok, Hin by (by eexists).
    rewrite processStyle_run in Hok, Hin. cbv zeta in Hok, Hin.
    rewrite processOptions_explicit in Hok, Hin.
    change (getPostCssPlugins (keepName opts) (skipHash opts))
      with [postcssImport; postcssSmartAsset "copy" (negb (skipHash opts)) (keepName opts)]
      in Hok, Hin.
    set (options := {| from := src |}) in *.
    destruct (readFile world src) as [content|e]; [|simpl in Hok; discriminate Hok].
    destruct (postcssProcess _ _ _ _) as [[css map]|e] eqn:Epp;
      [|simpl in Hok; discriminate Hok].
    simpl in Hin, Hok. exists content, css, map.
    split; [apply Hin; eauto 10 using list_elem_of_here, list_elem_of_further|].
    split; [done|].
    split; [apply Hin; eauto 10 using list_elem_of_here, list_elem_of_further|].
    split; [done|].
    split; [apply Hin; eauto 10 using list_elem_of_here, list_elem_of_further|].
    split; [by destruct (outputFile world fileDest css) as [[]|]|].
    split; [apply Hin; eauto 10 using list_elem_of_here, list_elem_of_further|].
    split.
    { destruct (outputFile world fileDest css) as [[]|]; [|done].
      by destruct (outputFile world (fileDest ++ ".map") map) as [[]|]. }
    intros d Hc. rewrite <- Hcs in Hc. apply in_all_in_run in Hc as (k & _ & Hc).
    apply copy_origin in Hc as [<- Hnone]. congruence.
  - rewrite (bool_decide_eq_false_2 _ Hd) in Es. rewrite (bool_decide_eq_false_2 _ Hd).
    rewrite bool_decide_eq_false_2 in Hok, Hin by (rewrite Es; by intros [? ?]).
    simpl in Hok, Hin. split; [apply Hin, list_elem_of_here|].
    split; [by destruct (copy world src fileDest) as [[]|]|].
    intros Hc. rewrite <- Hcs in Hc. apply in_all_in_run in Hc as (k & _ & Hc).
    apply read_origin in Hc as [<- [? Hsome']]. congruence.
Qed.

(** C7 (finalize error policy), as amended: if the operation of any asset
    is rejected, the emit step is rejected with a single [Error] whose message
    is the fixed text [Error while copying files: ] followed by the print of
    the failure of one of the assets, the same text for a copy and for a
    process; the trace is one run of every asset's operation, none repeated
    and none undone. *)
Theorem finalize_error_policy file dir st outputFolder :
  outputFolderOf file dir = Some outputFolder ->
  let runs := List.map (emitOne opts world st outputFolder) (JsObject.keys (files st)) in
  (exists src e, is_Some (files st !! src)
                 /\ (emitOne opts world st outputFolder src).2 = Rejected e) ->
  exists src e,
    is_Some (files st !! src)
    /\ (emitOne opts world st outputFolder src).2 = Rejected e
    /\ generateBundle opts world file dir st
       = (concat (List.map fst runs),
          Rejected (Error ("Error while copying files: " ++ render e))).
Proof.
  intros Hout runs (src & e & Hsrc & He).
  destruct (promiseAll_rejected runs) as (p & e' & Hp & Hpe & Hall).
  { exists (emitOne opts world st outputFolder src), e. split; [|done].
    apply list_elem_of_In, in_map, list_elem_of_In. by apply keys_lookup. }
  apply list_elem_of_In, in_map_iff in Hp as (k & <- & Hk).
  exists k, e'. split; [by apply keys_lookup, list_elem_of_In|]. split; [done|].
  unfold generateBundle. rewrite Hout. fold runs.
  pose proof (promiseAll_calls runs) as Hcalls.
  destruct (promiseAll runs) as [cs rs]. simpl in *. by subst.
Qed.

(** *** The root only shows in the log *)

Lemma promiseAll_effects (keys : list string) (f1 f2 : string -> E unit) :
  (forall k, k ∈ keys ->
     effects (f1 k).1 = effects (f2 k).1 /\ (f1 k).2 = (f2 k).2) ->
  effects (promiseAll (List.map f1 keys)).1 = effects (promiseAll (List.map f2 keys)).1
  /\ (promiseAll (List.map f1 keys)).2 = (promiseAll (List.map f2 keys)).2.
Proof.
  induction keys as [|k keys IH]; intros H; [done|].
  destruct (H k (list_elem_of_here _ _)) as [Hc Hr].
  destruct IH as [IHc IHr]; [intros k' Hk'; apply H; by right|].
  simpl. destruct (f1 k) as [c1 r1], (f2 k) as [c2 r2]. simpl in *.
  destruct (promiseAll (List.map f1 keys)) as [cs1 rs1].
  destruct (promiseAll (List.map f2 keys)) as [cs2 rs2]. simpl in *.
  rewrite !effects_app. split; [congruence|]. subst. by destruct r2.
Qed.

Lemma emission_ignores_root st1 st2 file dir :
  files st1 = files st2 ->
  verbose opts = false \/ (is_Some (root st1) /\ is_Some (root st2)) ->
  effects (generateBundle opts world file dir st1).1
  = effects (generateBundle opts world file dir st2).1
  /\ (generateBundle opts world file dir st1).2
     = (generateBundle opts world file dir st2).2.
Proof.
  intros Hf Hq. unfold generateBundle.
  destruct (outputFolderOf file dir) as [out|]; [|done].
  rewrite <- Hf.
  destruct (promiseAll_effects (JsObject.keys (files st1))
              (emitOne opts world st1 out) (emitOne opts world st2 out)) as [Hc Hr].
  { intros k [relative Hk]%keys_lookup.
    destruct (emitOne_body st1 out k relative Hk) as (l1 & Hl1 & ->); [tauto|].
    destruct (emitOne_body st2 out k relative) as (l2 & Hl2 & ->);
      [by rewrite <- Hf|tauto|].
    simpl. by rewrite !effects_app, Hl1, Hl2. }
  destruct (promiseAll (List.map (emitOne opts world st1 out) _)) as [cs1 rs1].
  destruct (promiseAll (List.map (emitOne opts world st2 out) _)) as [cs2 rs2].
  simpl in *. subst. by destruct rs2.
Qed.


End EmitterFacts.

(** ** Further properties of the hooks *)

(** *** The two resolution rounds *)

Section Rounds.

Variable opts : Options.
Variable world : World.

(** A handled resolution, unpacked. *)
Lemma handled_outcome st importee importer id st' calls :
  resolveId opts world importee importer st = (Handled id, st', calls) ->
  exists i fileHash r,
    truthy importer = Some i
    /\ eligible opts world st importee i
    /\ hashed opts world (sourceOf world i importee) fileHash calls
    /\ root st = Some r
    /\ id = assetIdOf opts r (targetOf opts importee fileHash) ++ ".js"
    /\ st' = set_wrapper id (assetIdOf opts r (targetOf opts importee fileHash))
               (set_asset (assetIdOf opts r (targetOf opts importee fileHash))
                  (set_file (sourceOf world i importee)
                     (Path.join [assetFolder opts; targetOf opts importee fileHash]) st)).
Proof.
  intros H. apply (outcome_of opts world) in H. inversion H; subst.
  exists i, fileHash, r. done.
Qed.

Lemma js_not_proto a : a ++ ".js" <> "__proto__".
Proof.
  intros H. apply (f_equal (fun s => rev (Path.of_string s))) in H.
  rewrite of_string_app, rev_app_distr in H. simpl in H. discriminate H.
Qed.

Lemma js_nonempty a : a ++ ".js" <> "".
Proof. by destruct a. Qed.

Lemma set_non_null {V} (o : gmap string V) k v :
  JsObject.non_null (JsObject.set o k v) k = true.
Proof.
  unfold JsObject.non_null, JsObject.set.
  destruct (decide (k = "__proto__")) as [->|Hk].
  - apply orb_true_iff. right. vm_compute. reflexivity.
  - rewrite (bool_decide_eq_false_2 (k = "__proto__")) by done.
    rewrite lookup_insert_eq. by rewrite bool_decide_eq_true_2.
Qed.

(** X1 (the two rounds of a resolution): when [resolveId] hands out an id, the
    id is an asset id followed by [.js]; [load] of that id is the one-line
    module that re-exports the default of the asset id; and resolving the asset
    id from that module gives [false], with the registries left as they are
    and no call to the outside. *)
Theorem two_round_resolution text st importee importer id st' calls :
  resolveId opts world importee importer st = (Handled id, st', calls) ->
  exists assetId,
    id = assetId ++ ".js"
    /\ load text st' id
       = Some ("export { default } from " ++ quote ++ assetId ++ quote ++ ";")
    /\ resolveId opts world assetId (Some id) st' = (Excluded, st', []).
Proof.
  intros H. apply handled_outcome in H as (i & fileHash & r & _ & _ & _ & _ & Hid & ->).
  set (assetId := assetIdOf opts r (targetOf opts importee fileHash)) in *.
  exists assetId. split; [done|]. split.
  - unfold load. simpl. rewrite Hid, set_lookup_eq by apply js_not_proto. done.
  - unfold resolveId. replace (truthy (Some id)) with (Some id)
      by (rewrite Hid; by destruct assetId).
    unfold mbind, M_bind, mret, M_ret, get. simpl.
    by rewrite set_non_null.
Qed.

(** X4 (the two ways a resolution is rejected): [resolveId] is rejected
    either because the hash of the source could not be computed, and then
    with that very error, after the two calls to the outside and with nothing
    registered; or because no entry point has been resolved yet, and then with
    a type error, the copy job for the source already recorded in [files] but
    neither the asset id nor the wrapper. *)
Theorem rejection_cases st importee importer e st' calls :
  resolveId opts world importee importer st = (Thrown e, st', calls) ->
  exists i, truthy importer = Some i /\
    let src := sourceOf world i importee in
    (skipHash opts = false /\ getHash world src = Rejected e /\ st' = st
     /\ calls = [CallPathExists src; CallGetHash src])
    \/ (root st = None /\ e = TypeError "ERR_INVALID_ARG_TYPE"
        /\ wrappers st' = wrappers st /\ assets st' = assets st /\ root st' = None
        /\ exists fileHash,
             hashed opts world src fileHash calls
             /\ files st' !! src
                = Some (Path.join [assetFolder opts; targetOf opts importee fileHash])).
Proof.
  intros H. apply (outcome_of opts world) in H. inversion H; subst.
  - exists i. split; [done|]. left. done.
  - exists i. split; [done|]. right. repeat split; try done.
    exists fileHash. split; [done|]. simpl. apply set_lookup_eq.
    apply sourceOf_not_proto.
    match goal with E : eligible _ _ _ _ _ |- _ => by destruct E as (_ & He & _) end.
Qed.

(** X5 (names of [Object.prototype]): a reference whose text is the name of a
    member of [Object.prototype], such as [constructor] or [toString], is
    answered with [false] whenever it comes with a referrer, whatever the
    registries hold and without any call to the outside; and [load] of such a
    name gives a module. *)
Theorem prototype_names_are_excluded text st name importer :
  name ∈ JsObject.prototype_keys ->
  (exists i, truthy importer = Some i) ->
  resolveId opts world name importer st = (Excluded, st, [])
  /\ is_Some (load text st name).
Proof.
  intros Hin [i Hi].
  assert (JsObject.inherited name = true) as Hinh
    by (by apply bool_decide_eq_true_2).
  split.
  - unfold resolveId. rewrite Hi. unfold mbind, M_bind, mret, M_ret, get. simpl.
    unfold JsObject.non_null. rewrite Hinh, orb_true_r. done.
  - unfold load. destruct (wrappers st !! name); [done|]. by rewrite Hinh.
Qed.

Lemma set_idem {V} (o : gmap string V) k v :
  JsObject.set (JsObject.set o k v) k v = JsObject.set o k v.
Proof.
  unfold JsObject.set. case_bool_decide; [done|]. apply insert_insert_eq.
Qed.

(** X19 (asking again changes nothing): when a reference has been handled,
    resolving the same reference again from the same referrer gives the same
    id after the same calls to the outside and leaves the registries as they
    are; unless the reference is spelled exactly like an asset id by now, in
    which case the answer is [false]. *)
Theorem resolution_is_repeatable st importee importer id st' calls :
  resolveId opts world importee importer st = (Handled id, st', calls) ->
  resolveId opts world importee importer st'
  = if JsObject.non_null (assets st') importee
    then (Excluded, st', [])
    else (Handled id, st', calls).
Proof.
  intros H.
  apply handled_outcome in H as (i & fileHash & r & Hi & Hel & Hh & Hr & Hid & Hst').
  destruct Hel as (_ & He & Hs & Hf & Hp).
  destruct (resolveId opts world importee importer st') as [[res2 st2] calls2] eqn:E2.
  apply (outcome_of opts world) in E2.
  assert (root st' = Some r) as Hr' by (by rewrite Hst').
  inversion E2 as [ | j Hj Hnn | j Hj Hnn Hc | j Hj Hnn He2 Hs2 Hf2 | j Hj Hnn He2 Hs2 Hf2 Hp2
                  | j e Hj Hel2 Hsk Hg | j fh c Hj Hel2 Hh2 Hr2 | j fh c r2 Hj Hel2 Hh2 Hr2 aid ];
    subst; try congruence.
  all: rewrite Hi in Hj; injection Hj as <-.
  - by rewrite Hnn.
  - destruct Hc; congruence.
  - unfold hashed in Hh. rewrite Hsk in Hh. destruct Hh as (h & Hg' & _). congruence.
  - destruct Hel2 as (Hnn & _). rewrite Hnn.
    destruct (hashed_fun opts world _ _ _ _ _ Hh Hh2) as [<- <-].
    rewrite Hr' in Hr2. injection Hr2 as <-. subst aid.
    unfold set_wrapper, set_asset, set_file. simpl. by rewrite !set_idem.
Qed.

End Rounds.

(** *** The three predicates *)

Section Predicates.

Variable opts : Options.
Variable world : World.

Lemma normalize_chars_nonempty p : Path.normalize_chars p <> [].
Proof.
  unfold Path.normalize_chars. destruct p as [|c p]; [done|].
  destruct (Path.normalizeString (c :: p) _) as [|d q].
  - by repeat case_match.
  - destruct (Path.starts_with_slash (c :: p)); done.
Qed.

Lemma join_chars_nonempty args : Path.join_chars args <> [].
Proof.
  unfold Path.join_chars. destruct (Path.joined args); [|done].
  apply normalize_chars_nonempty.
Qed.

Lemma to_string_empty l : l <> [] -> Path.to_string l <> "".
Proof. by destruct l. Qed.

Lemma join_nonEmpty args : nonEmpty (Path.join args) = true.
Proof.
  unfold nonEmpty. apply negb_true_iff, String.eqb_neq, to_string_empty,
    join_chars_nonempty.
Qed.

Lemma assetIdOf_nonEmpty r t : nonEmpty (assetIdOf opts r t) = true.
Proof.
  unfold assetIdOf. pose proof (join_nonEmpty [r; assetFolder opts; t]) as H.
  destruct (Path.join [r; assetFolder opts; t]); [done|]. done.
Qed.

Lemma assetIdOf_absolute r t : isAbsolute r = true -> isAbsolute (assetIdOf opts r t) = true.
Proof. intros H. unfold assetIdOf. by apply replace_backslashes_absolute, join_absolute. Qed.

Lemma truthy_at_set {V} (f : V -> bool) (o : gmap string V) k' v k :
  f v = true ->
  JsObject.truthy_at f o k = true -> JsObject.truthy_at f (JsObject.set o k' v) k = true.
Proof.
  intros Hv. unfold JsObject.truthy_at, JsObject.set. case_bool_decide; [done|].
  destruct (decide (k' = k)) as [->|Hne].
  - by rewrite lookup_insert_eq.
  - by rewrite lookup_insert_ne.
Qed.

Lemma truthy_at_set_eq {V} (f : V -> bool) (o : gmap string V) k v :
  f v = true -> k <> "__proto__" -> JsObject.truthy_at f (JsObject.set o k v) k = true.
Proof. intros Hv Hk. unfold JsObject.truthy_at. by rewrite set_lookup_eq. Qed.

(** X2 (the predicates after a resolution): once [resolveId] has handed out
    an id, [isRebaseWrapper] holds of that id, [isRebaseAsset] of the asset id
    it wraps and [isRebaseSource] of the source file.  The root is an absolute
    path, as it is in every build. *)
Theorem handled_is_rebased st importee importer id st' calls :
  rooted st ->
  resolveId opts world importee importer st = (Handled id, st', calls) ->
  exists i assetId,
    truthy importer = Some i /\ id = assetId ++ ".js"
    /\ isRebaseWrapper st' id = true
    /\ isRebaseAsset st' assetId = true
    /\ isRebaseSource st' (sourceOf world i importee) = true.
Proof.
  intros Hroot H.
  apply handled_outcome in H as (i & fileHash & r & Hi & Hel & _ & Hr & Hid & ->).
  exists i, (assetIdOf opts r (targetOf opts importee fileHash)).
  split; [done|]. split; [done|]. unfold isRebaseWrapper, isRebaseAsset, isRebaseSource.
  simpl. repeat split.
  - rewrite Hid. apply truthy_at_set_eq; [apply assetIdOf_nonEmpty|apply js_not_proto].
  - apply truthy_at_set_eq; [done|]. apply absolute_not_proto, assetIdOf_absolute.
    by apply Hroot.
  - apply truthy_at_set_eq; [apply join_nonEmpty|]. apply sourceOf_not_proto.
    by destruct Hel as (_ & He & _).
Qed.

Lemma resolveId_keeps st importee importer :
  let st' := (resolveId opts world importee importer st).1.2 in
  (forall k, isRebaseWrapper st k = true -> isRebaseWrapper st' k = true)
  /\ (forall k, isRebaseAsset st k = true -> isRebaseAsset st' k = true)
  /\ (forall k, isRebaseSource st k = true -> isRebaseSource st' k = true).
Proof.
  pose proof (resolveId_outcome opts world st importee importer) as H.
  destruct (resolveId opts world importee importer st) as [[res st'] calls]. simpl in *.
  unfold isRebaseWrapper, isRebaseAsset, isRebaseSource.
  inversion H; subst; simpl; try done.
  - repeat split; [done|done|]. intros k. apply truthy_at_set, join_nonEmpty.
  - repeat split; intros k.
    + apply truthy_at_set, assetIdOf_nonEmpty.
    + by apply truthy_at_set.
    + apply truthy_at_set, join_nonEmpty.
Qed.

(** X3 (the registries only grow): whatever references are resolved next,
    an id of which [isRebaseWrapper], [isRebaseAsset] or [isRebaseSource]
    holds keeps that answer. *)
Theorem rebased_stays_rebased reqs st k :
  let st' := (resolveAll opts world reqs st).1.2 in
  (isRebaseWrapper st k = true -> isRebaseWrapper st' k = true)
  /\ (isRebaseAsset st k = true -> isRebaseAsset st' k = true)
  /\ (isRebaseSource st k = true -> isRebaseSource st' k = true).
Proof.
  revert st. induction reqs as [|[importee importer] rest IH]; intros st; [done|].
  cbv zeta. rewrite resolveAll_cons.
  destruct (resolveId_keeps st importee importer) as (Hw & Ha & Hf).
  destruct (IH (resolveId opts world importee importer st).1.2) as (Hw' & Ha' & Hf').
  repeat split; intros Hk; [apply Hw', Hw|apply Ha', Ha|apply Hf', Hf]; done.
Qed.

End Predicates.

(** *** What the resolver asks of the outside *)

Section Probes.

Variable opts : Options.
Variable world : World.

Lemma sourceOf_candidate st importee i :
  eligible opts world st importee i -> candidate opts (sourceOf world i importee).
Proof.
  intros (_ & He & Hs & Hf & _). unfold candidate.
  by rewrite sourceOf_extname.
Qed.

Lemma hashed_probes st importee i fileHash calls :
  eligible opts world st importee i ->
  hashed opts world (sourceOf world i importee) fileHash calls ->
  Forall (probe opts world) calls.
Proof.
  intros Hel Hh. pose proof (sourceOf_candidate _ _ _ Hel) as Hc.
  destruct Hel as (_ & _ & _ & _ & Hp).
  unfold hashed in Hh. destruct (skipHash opts) eqn:Esk.
  - destruct Hh as [_ ->]. constructor; [exact Hc|constructor].
  - destruct Hh as (h & _ & _ & ->).
    constructor; [exact Hc|]. constructor; [done|constructor].
Qed.

Lemma resolveId_probes st importee importer :
  Forall (probe opts world) (resolveId opts world importee importer st).2.
Proof.
  pose proof (resolveId_outcome opts world st importee importer) as H.
  destruct (resolveId opts world importee importer st) as [[res st'] calls]. simpl in *.
  inversion H; subst; try by constructor.
  - constructor; [|constructor]. unfold probe, candidate. by rewrite sourceOf_extname.
  - match goal with E : eligible _ _ _ _ _ |- _ =>
      pose proof (sourceOf_candidate _ _ _ E) as Hc; destruct E as (_ & _ & _ & _ & Hp)
    end.
    constructor; [exact Hc|]. constructor; [done|constructor].
  - by eapply hashed_probes.
  - by eapply hashed_probes.
Qed.

Lemma resolveAll_calls importee importer rest st :
  (resolveAll opts world ((importee, importer) :: rest) st).2
  = ((resolveId opts world importee importer st).2
     ++ (resolveAll opts world rest (resolveId opts world importee importer st).1.2).2)%list.
Proof.
  simpl. unfold mbind, M_bind, mret, M_ret.
  destruct (resolveId opts world importee importer st) as [[r st1] c1]. simpl.
  destruct (resolveAll opts world rest st1) as [[rs st2] c2]. simpl.
  by rewrite app_nil_r.
Qed.

(** X6 (what the resolver asks of the outside): whatever references are
    resolved, from whatever registries, the resolver only asks whether a file
    exists and for the hash of a file; the file always has an extension outside
    the script family and passes the filter; a hash is asked for only when
    hashing is on, and only of a file that exists. *)
Theorem resolver_probes reqs st :
  Forall (probe opts world) (resolveAll opts world reqs st).2.
Proof.
  revert st. induction reqs as [|[importee importer] rest IH]; intros st; [constructor|].
  rewrite resolveAll_calls. apply Forall_app. split; [apply resolveId_probes|apply IH].
Qed.

End Probes.

(** *** The ids handed out *)

Section Ids.

Variable opts : Options.
Variable world : World.

Lemma replace_backslashes_free s : backslash ∉ Path.of_string (replace_backslashes s).
Proof.
  induction s as [|c s IH]; simpl; [apply not_elem_of_nil|].
  apply not_elem_of_cons. split; [|done].
  destruct (Ascii.eqb_spec c backslash) as [->|Hne]; [done|congruence].
Qed.

Lemma append_absolute a b : isAbsolute a = true -> isAbsolute (a ++ b) = true.
Proof. unfold isAbsolute. by destruct a. Qed.

Lemma reachable_rooted st :
  isAbsolute (cwd world) = true -> reachable opts world st -> rooted st.
Proof.
  intros Hcwd Hst. apply reachable_interleaved in Hst.
  by destruct (interleaved_invariant opts world st [] Hcwd Hst).
Qed.

Lemma resolveAll_results importee importer rest st :
  (resolveAll opts world ((importee, importer) :: rest) st).1.1
  = (resolveId opts world importee importer st).1.1
    :: (resolveAll opts world rest (resolveId opts world importee importer st).1.2).1.1.
Proof.
  simpl. unfold mbind, M_bind, mret, M_ret.
  destruct (resolveId opts world importee importer st) as [[r st1] c1]. simpl.
  by destruct (resolveAll opts world rest st1) as [[rs st2] c2].
Qed.

Lemma handed_out_shape st importee importer id :
  rooted st ->
  (resolveId opts world importee importer st).1.1 = Handled id ->
  isAbsolute id = true /\ ends_with id ".js" /\ backslash ∉ Path.of_string id.
Proof.
  intros Hroot H.
  destruct (resolveId opts world importee importer st) as [[res st'] calls] eqn:E.
  simpl in H. subst res.
  apply handled_outcome in E as (i & fileHash & r & _ & _ & _ & Hr & -> & _).
  repeat split.
  - apply append_absolute, assetIdOf_absolute. by apply Hroot.
  - by eexists.
  - rewrite of_string_app. intros [Hin|Hin]%elem_of_app.
    + by apply replace_backslashes_free in Hin.
    + simpl in Hin. repeat (apply elem_of_cons in Hin as [Hin|Hin]; [discriminate Hin|]).
      by apply not_elem_of_nil in Hin.
Qed.

(** X7 (the ids handed out): in a build, every id that [resolveId] hands out
    is an absolute path, ends in [.js] and holds no backslash.  The working
    directory of the process is an absolute path. *)
Theorem handed_out_ids reqs id :
  isAbsolute (cwd world) = true ->
  Handled id ∈ (resolveAll opts world reqs fresh).1.1 ->
  isAbsolute id = true /\ ends_with id ".js" /\ backslash ∉ Path.of_string id.
Proof.
  intros Hcwd. assert (reachable opts world fresh) as Hst by constructor.
  revert Hst. generalize fresh.
  induction reqs as [|[importee importer] rest IH]; intros st Hst Hin.
  - by apply not_elem_of_nil in Hin.
  - rewrite resolveAll_results in Hin. apply elem_of_cons in Hin as [Hin|Hin].
    + eapply handed_out_shape; [by apply reachable_rooted|done].
    + eapply IH; [|exact Hin]. by constructor.
Qed.

End Ids.

(** *** What the registries hold, however the calls overlap *)

Section Registries.

Variable opts : Options.
Variable world : World.

Lemma enter_registries st importee importer :
  let st' := (enter opts world importee importer st).1.2 in
  wrappers st' = wrappers st /\ assets st' = assets st /\ files st' = files st.
Proof.
  unfold enter, mbind, M_bind, mret, M_ret, get, modify, call.
  destruct (truthy importer) as [i|]; simpl; [|done].
  destruct (JsObject.non_null (assets st) importee); [done|].
  destruct (String.eqb (Path.extname importee) "" || scriptExtensions (Path.extname importee));
    [done|].
  by destruct (filter opts _).
Qed.

Lemma enter_checked st importee importer k :
  (enter opts world importee importer st).1.1 = inr k ->
  candidate opts (heldFileSource k) /\ located world (heldFileSource k).
Proof.
  unfold enter, mbind, M_bind, mret, M_ret, get, modify, call.
  destruct (truthy importer) as [i|]; simpl; [|done].
  destruct (JsObject.non_null (assets st) importee); [done|].
  destruct (String.eqb_spec (Path.extname importee) "") as [|He]; [done|].
  destruct (scriptExtensions (Path.extname importee)) eqn:Es; [done|]. simpl.
  destruct (filter opts _) eqn:Ef; [|done]. simpl. intros [= <-]. simpl. split.
  - unfold candidate. fold (sourceOf world i importee). by rewrite sourceOf_extname.
  - intros Hcwd. by apply resolve_absolute.
Qed.

Lemma register_files k fileHash st :
  exists dest,
    files (register opts k fileHash st).1.2 = JsObject.set (files st) (heldFileSource k) dest.
Proof.
  unfold register, mbind, M_bind, mret, M_ret, get, modify. simpl.
  eexists. by destruct (root st).
Qed.

Lemma set_vetted st' st src dest :
  files st' = JsObject.set (files st) src dest ->
  candidate opts src -> located world src -> pathExists world src = true ->
  vetted opts world st -> vetted opts world st'.
Proof.
  intros Hf Hc Hl Hp Hv s d. rewrite Hf. unfold JsObject.set. case_bool_decide; [apply Hv|].
  destruct (decide (src = s)) as [<-|Hne].
  - done.
  - rewrite lookup_insert_ne by done. apply Hv.
Qed.

Lemma advance_vetted t st :
  checked opts world t -> vetted opts world st ->
  vetted opts world (advance opts world t st).1
  /\ forall t', (advance opts world t st).2 = Some t' -> checked opts world t'.
Proof.
  intros Ht Hv. destruct t as [k|k]; simpl in *.
  - destruct Ht as [Hc Hl]. unfold resumeFound.
    destruct (pathExists world (heldFileSource k)) eqn:Ep; simpl; [|done].
    destruct (skipHash opts); simpl.
    + unfold mbind, M_bind, mret, M_ret.
      destruct (register_files k None st) as [dest Hf].
      destruct (register opts k None st) as [[r st'] c]. simpl in *.
      split; [|done]. by eapply set_vetted.
    + split; [done|]. by intros t' [= <-].
  - destruct Ht as (Hc & Hl & Hp). split; [|done]. unfold resumeHashed.
    destruct (getHash world (heldFileSource k)) as [h|e]; [|done].
    destruct (register_files k (Some h) st) as [dest Hf]. by eapply set_vetted.
Qed.

Lemma interleaved_vetted st tasks :
  interleaved opts world st tasks ->
  vetted opts world st /\ Forall (checked opts world) tasks.
Proof.
  induction 1 as [|st tasks importee importer _ [IHv IHt]
                  |st before t after _ [IHv IHt]].
  - split; [|constructor]. intros src d. unfold fresh. simpl. by rewrite lookup_empty.
  - destruct (enter_registries st importee importer) as (_ & _ & Hf).
    split; [intros src d; rewrite Hf; apply IHv|].
    pose proof (enter_checked st importee importer) as Hk.
    destruct (enter opts world importee importer st).1.1 as [res|k]; [done|].
    constructor; [by apply Hk|done].
  - apply Forall_app in IHt as [Hb Ht]. apply Forall_cons in Ht as [Ht Ha].
    destruct (advance_vetted t st Ht IHv) as [Hv Hn]. split; [done|].
    apply Forall_app. split; [done|].
    destruct (advance opts world t st).2 as [t'|]; [|done].
    constructor; [by apply Hn|done].
Qed.

(** X8 (only vetted files get a copy job): however the calls of [resolveId]
    overlap, every file recorded in [files] has an extension outside the
    script family, passes the filter and exists; and its path is absolute
    when the working directory of the process is. *)
Theorem registered_files_are_vetted st tasks src dest :
  interleaved opts world st tasks ->
  files st !! src = Some dest ->
  Path.extname src <> ""
  /\ scriptExtensions (Path.extname src) = false
  /\ filter opts src = true
  /\ pathExists world src = true
  /\ (isAbsolute (cwd world) = true -> isAbsolute src = true).
Proof.
  intros Hst Hl. destruct (interleaved_vetted st tasks Hst) as [Hv _].
  destruct (Hv src dest Hl) as ((? & ? & ?) & ? & ?). done.
Qed.

Lemma append_js_inj a b : a ++ ".js" = b ++ ".js" -> a = b.
Proof.
  intros H. apply of_string_inj. apply (f_equal Path.of_string) in H.
  rewrite !of_string_app in H. by apply app_inv_tail in H.
Qed.

Lemma register_mirrored k fileHash st :
  mirrored st -> mirrored (register opts k fileHash st).1.2.
Proof.
  intros [Hw Ha]. unfold register, mbind, M_bind, mret, M_ret, get, modify. simpl.
  destruct (root st) as [r|]; simpl; [|done].
  set (a := replace_backslashes _).
  split; simpl.
  - intros id assetId. unfold JsObject.set.
    rewrite (bool_decide_eq_false_2 (a ++ ".js" = "__proto__")) by apply js_not_proto.
    destruct (decide (a ++ ".js" = id)) as [<-|Hne].
    + rewrite lookup_insert_eq. intros [= <-]. split; [done|].
      pose proof (assetIdOf_nonEmpty opts r
                    (targetName opts (Path.basename (heldImportee k) (heldFileExt k))
                       (heldFileExt k) fileHash)) as Hn.
      fold a in Hn. unfold assetIdOf in Hn. fold a in Hn. by intros ->.
    + rewrite lookup_insert_ne by done. apply Hw.
  - intros assetId b Hl.
    assert (assetId = a \/ (assetId <> a /\ assets st !! assetId = Some b)) as [->|[Hne Hl']].
    { revert Hl. unfold JsObject.set. case_bool_decide.
      - intros Hl. destruct (decide (assetId = a)); eauto.
      - destruct (decide (a = assetId)) as [<-|Hne]; [by left|].
        rewrite lookup_insert_ne by done. eauto. }
    + destruct (decide (a = "__proto__")) as [Hp|Hp].
      * unfold JsObject.set in Hl. rewrite bool_decide_eq_true_2 in Hl by done.
        destruct (Ha _ _ Hl) as [-> _]. split; [done|].
        rewrite set_lookup_eq by apply js_not_proto. done.
      * rewrite set_lookup_eq in Hl by done. injection Hl as <-. split; [done|].
        rewrite set_lookup_eq by apply js_not_proto. done.
    + destruct (Ha _ _ Hl') as [-> Hw']. split; [done|].
      rewrite set_lookup_ne; [done|]. intros Heq. by apply append_js_inj in Heq.
Qed.

Lemma advance_mirrored t st : mirrored st -> mirrored (advance opts world t st).1.
Proof.
  intros Hm. destruct t as [k|k]; simpl.
  - unfold resumeFound. destruct (pathExists world (heldFileSource k)); simpl; [|done].
    destruct (skipHash opts); simpl; [|done].
    unfold mbind, M_bind, mret, M_ret.
    pose proof (register_mirrored k None st Hm) as H.
    by destruct (register opts k None st) as [[r st'] c].
  - unfold resumeHashed. destruct (getHash world (heldFileSource k)); [|done].
    by apply register_mirrored.
Qed.

Lemma interleaved_mirrored st tasks : interleaved opts world st tasks -> mirrored st.
Proof.
  induction 1 as [|st tasks importee importer _ IH|st before t after _ IH].
  - split; intros ? ?; unfold fresh; simpl; by rewrite lookup_empty.
  - destruct (enter_registries st importee importer) as (Hw & Ha & _).
    cbv zeta in Hw, Ha. unfold mirrored. rewrite Hw, Ha. exact IH.
  - by apply (advance_mirrored t st).
Qed.

(** X9 (wrappers and asset ids mirror each other): however the calls of
    [resolveId] overlap, the key of every record of [wrappers] is its value
    followed by [.js], the value is not empty, and every id recorded in
    [assets] is recorded as [true] and has its record in [wrappers]. *)
Theorem wrappers_mirror_assets st tasks :
  interleaved opts world st tasks ->
  (forall id assetId,
      wrappers st !! id = Some assetId -> id = assetId ++ ".js" /\ assetId <> "")
  /\ (forall assetId b,
        assets st !! assetId = Some b ->
        b = true /\ wrappers st !! (assetId ++ ".js") = Some assetId).
Proof.
  intros Hst. destruct (interleaved_mirrored st tasks Hst) as [Hw Ha].
  split; [exact Hw|exact Ha].
Qed.

(** X17 (the predicates and the hooks agree): however the calls of
    [resolveId] overlap, [isRebaseWrapper] holds of an id exactly when [load]
    gives a module for it, [isRebaseAsset] exactly when [resolveId] answers
    [false] to it from a referrer, and [isRebaseSource] exactly when the file
    has a copy job or bears the name of a member of [Object.prototype]. *)
Theorem predicates_agree_with_hooks text st tasks id referrer :
  interleaved opts world st tasks ->
  referrer <> "" ->
  (isRebaseWrapper st id = true <-> is_Some (load text st id))
  /\ (isRebaseAsset st id = true
      <-> (resolveId opts world id (Some referrer) st).1.1 = Excluded)
  /\ (isRebaseSource st id = true
      <-> id ∈ JsObject.keys (files st) \/ id ∈ JsObject.prototype_keys).
Proof.
  intros Hst Href. pose proof (interleaved_mirrored st tasks Hst) as [Hw Ha].
  destruct (interleaved_recorded opts world st tasks Hst) as [Hrec _].
  unfold isRebaseWrapper, isRebaseAsset, isRebaseSource, JsObject.truthy_at.
  repeat split.
  - unfold load. destruct (wrappers st !! id) as [a|]; [done|]. by intros ->.
  - unfold load. destruct (wrappers st !! id) as [a|] eqn:E.
    + intros _. destruct (Hw _ _ E) as [_ Hn]. unfold nonEmpty.
      by apply negb_true_iff, String.eqb_neq.
    + destruct (JsObject.inherited id); [done|]. by intros [? ?].
  - intros H. assert (JsObject.non_null (assets st) id = true) as Hnn.
    { unfold JsObject.non_null. destruct (assets st !! id) as [b|].
      - by rewrite bool_decide_eq_true_2.
      - by rewrite H, orb_true_r. }
    unfold resolveId. replace (truthy (Some referrer)) with (Some referrer)
      by (by destruct referrer).
    unfold mbind, M_bind, mret, M_ret, get. simpl. by rewrite Hnn.
  - intros H.
    destruct (resolveId opts world id (Some referrer) st) as [[res st'] calls] eqn:Er.
    simpl in H. subst res. apply (outcome_of opts world) in Er.
    inversion Er as [|i Hi Hnn| | | | | |]. subst st'.
    unfold JsObject.non_null in Hnn.
    destruct (assets st !! id) as [b|] eqn:E.
    + by destruct (Ha _ _ E) as [-> _].
    + rewrite bool_decide_eq_false_2 in Hnn by (by intros [? ?]). done.
  - intros H. destruct (files st !! id) as [d|] eqn:E.
    + left. apply keys_lookup. by rewrite E.
    + right. by apply bool_decide_eq_true_1 in H.
  - intros [H|H].
    + apply keys_lookup in H as [d E]. rewrite E.
      destruct (Hrec _ _ E) as (_ & fh & _ & ->). apply join_nonEmpty.
    + destruct (files st !! id) as [d|] eqn:E.
      * destruct (Hrec _ _ E) as (_ & fh & _ & ->). apply join_nonEmpty.
      * by apply bool_decide_eq_true_2.
Qed.

End Registries.

(** *** The referrer *)

Section Referrer.

Variable opts : Options.
Variable world : World.

Import Path.

Lemma resolve_chars_absolute_last cwd1 cwd2 d1 d2 p :
  starts_with_slash p = true ->
  resolve_chars cwd1 [d1; p] = resolve_chars cwd2 [d2; p].
Proof.
  intros Hp. unfold resolve_chars. simpl.
  destruct p as [|c p]; [done|]. by rewrite Hp.
Qed.

(** X18 (the referrer counts through its directory): two referrers in the
    same directory get the same answer from [resolveId], the same registries
    and the same calls; and for a reference that is an absolute path any two
    referrers do. *)
Theorem referrer_counts_through_directory st importee i1 i2 :
  i1 <> "" -> i2 <> "" ->
  Path.dirname i1 = Path.dirname i2 \/ isAbsolute importee = true ->
  resolveId opts world importee (Some i1) st = resolveId opts world importee (Some i2) st.
Proof.
  intros H1 H2 H.
  assert (sourceOf world i1 importee = sourceOf world i2 importee) as Hsrc.
  { destruct H as [H|H]; unfold sourceOf; [by rewrite H|].
    unfold Path.resolve. f_equal. simpl. by apply resolve_chars_absolute_last. }
  unfold resolveId. replace (truthy (Some i1)) with (Some i1) by (by destruct i1).
  replace (truthy (Some i2)) with (Some i2) by (by destruct i2).
  fold (sourceOf world i1 importee). fold (sourceOf world i2 importee).
  by rewrite Hsrc.
Qed.

End Referrer.

(** *** The name of the relocated file *)

Section NameFacts.

Import Path.
Local Open Scope list_scope.

Lemma normalize_chars_kept b : kept b -> normalize_chars b = b.
Proof.
  intros Hk. pose proof Hk as (Hne & _ & _ & Hs).
  unfold normalize_chars. destruct b as [|c b]; [done|].
  assert (starts_with_slash (c :: b) = false) as -> by (by inversion Hs).
  rewrite ends_with_slash_slashfree by done.
  unfold normalizeString. rewrite split_slashfree by done. simpl.
  rewrite norm_step_kept by done. simpl. by rewrite app_nil_r.
Qed.

Lemma join_chars_folderless b : kept b -> join_chars [[]; b] = b.
Proof.
  intros Hk. unfold join_chars. simpl. destruct b as [|c b]; [by destruct Hk|].
  by apply normalize_chars_kept.
Qed.

Lemma ext_of_seg_app Z e :
  Z <> [] -> ext_shaped e -> Z ++ e <> dotdot -> ext_of_seg (Z ++ e) = e.
Proof.
  intros HZ (x & -> & Hx & _) Hdd. unfold ext_of_seg.
  rewrite rev_app_distr. simpl. rewrite <- app_assoc. simpl.
  assert (Forall (fun c => not_dot c = true) (rev x)) as Hrx.
  { apply Forall_rev. eapply Forall_impl; [exact Hx|].
    intros c Hc. unfold not_dot. by rewrite Hc. }
  rewrite take_while_app_all, drop_while_app_all by done. simpl.
  destruct (rev Z) as [|z rz] eqn:Erz.
  { apply (f_equal (@rev ascii)) in Erz. rewrite rev_involutive in Erz. done. }
  apply chars_eqb_neq in Hdd. rewrite Hdd.
  by rewrite app_nil_r, rev_involutive.
Qed.

Lemma sss_keeps_whole name :
  strip_suffix (of_string ".pcss") (name ++ of_string ".sss") = None.
Proof. unfold strip_suffix. rewrite rev_app_distr. done. Qed.

(** The last segment of a path with an extension is a name followed by the
    extension; [path.basename] gives the name, or the whole segment when it
    is asked to take [.pcss] off a segment that ends in [.sss]. *)
Lemma name_and_extension p :
  extname p <> "" ->
  exists name,
    name <> []
    /\ seg p = name ++ of_string (extname p)
    /\ of_string (basename p (effectiveExt (extname p)))
       = if String.eqb (extname p) ".sss" then seg p else name.
Proof.
  intros H. rewrite basename_seg by done. rewrite of_to_string.
  pose proof (to_string_nonempty _ H) as Hne.
  destruct (ext_of_seg_shape _ Hne) as (name & x & Hb & Hn & He & Hx & Hdd).
  fold (seg p) in *. exists name.
  assert (of_string (extname p) = ext_of_seg (seg p)) as Hext
    by (by rewrite extname_seg, of_to_string).
  split; [done|]. split; [by rewrite Hext|].
  unfold effectiveExt, base_of_seg.
  destruct (String.eqb_spec (extname p) ".sss") as [Hs|Hs].
  - rewrite Hs in Hext. rewrite <- Hext in Hb. rewrite Hb at 1.
    by rewrite sss_keeps_whole.
  - rewrite Hext. remember (ext_of_seg (seg p)) as e eqn:Ee. clear Ee.
    rewrite Hb, strip_suffix_app. by destruct name.
Qed.

End NameFacts.

Section Names.

Variable opts : Options.
Variable world : World.

Lemma handled_files st importee importer id st' calls :
  resolveId opts world importee importer st = (Handled id, st', calls) ->
  exists i fileHash,
    truthy importer = Some i
    /\ Path.extname importee <> ""
    /\ hashed opts world (sourceOf world i importee) fileHash calls
    /\ files st' !! sourceOf world i importee
       = Some (Path.join [assetFolder opts; targetOf opts importee fileHash]).
Proof.
  intros H.
  apply handled_outcome in H as (i & fileHash & r & Hi & Hel & Hh & _ & _ & ->).
  destruct Hel as (_ & He & _).
  exists i, fileHash. repeat split; try done.
  simpl. by apply set_lookup_eq, sourceOf_not_proto.
Qed.

(** The naming policy, for a reference that does not end in [.sss]: the
    last segment of the reference is a base name followed by the extension,
    and the file is registered under base name plus extension when
    [skipHash] is set (and no hash is computed), under [base~hash.ext] when
    [keepName] is set and under [hash.ext] otherwise, the hash being the one
    of the source file. *)
Lemma naming_policy st importee importer id st' calls :
  Path.extname importee <> ".sss" ->
  resolveId opts world importee importer st = (Handled id, st', calls) ->
  exists i base,
    truthy importer = Some i
    /\ base <> ""
    /\ Path.to_string (seg importee) = base ++ Path.extname importee
    /\ let src := sourceOf world i importee in
       let ext := Path.extname importee in
       if skipHash opts then
         files st' !! src = Some (Path.join [assetFolder opts; base ++ ext])
         /\ calls = [CallPathExists src]
       else
         exists fileHash,
           getHash world src = Fulfilled fileHash
           /\ calls = [CallPathExists src; CallGetHash src]
           /\ files st' !! src
              = Some (Path.join [assetFolder opts;
                                 if keepName opts then base ++ "~" ++ fileHash ++ ext
                                 else fileHash ++ ext]).
Proof.
  intros Hsss H. apply handled_files in H as (i & fileHash & Hi & He & Hh & Hf).
  destruct (name_and_extension importee He) as (name & Hn & Hseg & Hbase).
  apply String.eqb_neq in Hsss. rewrite Hsss in Hbase.
  apply (f_equal Path.to_string) in Hbase. rewrite to_of_string in Hbase.
  exists i, (Path.to_string name).
  split; [done|]. split; [by apply to_string_empty|].
  split; [by rewrite Hseg, to_string_app, to_of_string|].
  cbv zeta. unfold targetOf, targetName in Hf. rewrite Hbase in Hf.
  unfold effectiveExt in Hf. rewrite Hsss in Hf.
  unfold hashed in Hh. destruct (skipHash opts).
  - destruct Hh as [-> ->]. done.
  - destruct Hh as (h & Hg & -> & ->). by exists h.
Qed.

(** X10 (the name that is kept): the last segment of the reference is a name
    followed by the extension; the file is registered under that name, with or
    without the hash as the options say.  For a reference that ends in [.sss]
    the name that is kept is the whole segment, [.sss] included, and [.pcss]
    comes after it. *)
Theorem kept_name st importee importer id st' calls :
  resolveId opts world importee importer st = (Handled id, st', calls) ->
  exists i name fileHash,
    truthy importer = Some i
    /\ name <> ""
    /\ Path.to_string (seg importee) = name ++ Path.extname importee
    /\ hashOf opts world (sourceOf world i importee) fileHash
    /\ files st' !! sourceOf world i importee
       = Some (Path.join
                 [assetFolder opts;
                  if String.eqb (Path.extname importee) ".sss"
                  then targetName opts (name ++ ".sss") ".pcss" fileHash
                  else targetName opts name (Path.extname importee) fileHash]).
Proof.
  intros H. apply handled_files in H as (i & fileHash & Hi & He & Hh & Hf).
  destruct (name_and_extension importee He) as (name & Hn & Hseg & Hbase).
  exists i, (Path.to_string name), fileHash.
  split; [done|]. split; [by apply to_string_empty|].
  split; [by rewrite Hseg, to_string_app, to_of_string|].
  split; [by eapply hashed_hashOf|].
  rewrite Hf. do 3 f_equal. unfold targetOf.
  apply (f_equal Path.to_string) in Hbase. rewrite to_of_string in Hbase.
  rewrite Hbase. unfold effectiveExt.
  destruct (String.eqb_spec (Path.extname importee) ".sss") as [Hs|Hs]; [|done].
  by rewrite Hseg, Hs, to_string_app.
Qed.

(** X11 (the extension is kept): the file a reference is relocated to has
    the extension of the reference, [.pcss] standing for [.sss].  The hashes
    are made of letters and digits, as [asset-hash] prints them. *)
Theorem destination_keeps_extension st importee importer id st' calls :
  (forall file h, getHash world file = Fulfilled h -> wellformedHash h = true) ->
  resolveId opts world importee importer st = (Handled id, st', calls) ->
  exists i dest,
    truthy importer = Some i
    /\ files st' !! sourceOf world i importee = Some dest
    /\ Path.extname dest = effectiveExt (Path.extname importee).
Proof.
  intros Hwf H. apply handled_files in H as (i & fileHash & Hi & He & Hh & Hf).
  exists i, (Path.join [assetFolder opts; targetOf opts importee fileHash]).
  split; [done|]. split; [done|].
  pose proof (effectiveExt_shaped importee He) as Hshape.
  rewrite extname_seg.
  rewrite <- (to_of_string (effectiveExt (Path.extname importee))). f_equal.
  unfold hashed in Hh. destruct (skipHash opts) eqn:Esk.
  - destruct Hh as [-> _].
    destruct (name_and_extension importee He) as (name & Hn & Hseg & Hbase).
    pose proof (seg_kept importee He) as Hk.
    set (e := Path.of_string (effectiveExt (Path.extname importee))) in *.
    set (b := (Path.of_string (Path.basename importee (effectiveExt (Path.extname importee)))
               ++ e)%list).
    assert (b <> [] /\ b <> Path.dotdot /\ slashfree b
            /\ Path.ext_of_seg b = e) as (Hb1 & Hb2 & Hb3 & Hb4).
    { subst b e. rewrite Hbase. unfold effectiveExt in *.
      destruct (String.eqb_spec (Path.extname importee) ".sss") as [Hs|Hs].
      - destruct Hk as (Hk1 & _ & _ & Hk4).
        destruct (seg importee) as [|c0 sg] eqn:Esg; [done|].
        repeat split; [done| |..].
        + intros Hdd. apply (f_equal (@length ascii)) in Hdd.
          simpl in Hdd. rewrite length_app in Hdd. simpl in Hdd. lia.
        + apply Forall_app. split; [done|]. by repeat constructor.
        + apply ext_of_seg_app; [done|done|].
          intros Hdd. apply (f_equal (@length ascii)) in Hdd.
          simpl in Hdd. rewrite length_app in Hdd. simpl in Hdd. lia.
      - rewrite <- Hseg. destruct Hk as (Hk1 & _ & Hk3 & Hk4).
        repeat split; [done|done|done|].
        fold (seg importee). by rewrite extname_seg, of_to_string. }
    assert (kept b) as Hkb.
    { repeat split; [done| |done|done].
      intros Hd. rewrite Hd in Hb4. subst e. destruct Hshape as (x & Hx & _).
      rewrite <- Hb4 in Hx. vm_compute in Hx. discriminate Hx. }
    unfold seg, Path.join. rewrite of_to_string.
    change (List.map Path.of_string [assetFolder opts; targetOf opts importee None])
      with ([Path.of_string (assetFolder opts)]
            ++ [Path.of_string (targetOf opts importee None)])%list.
    unfold targetOf, targetName. rewrite of_string_app. fold e. fold b.
    rewrite (tail_seg_ends_in _ b); [done|done|done|].
    apply ends_exactly_ends_in, join_chars_ends_exactly; [done|].
    exists []. split; [done|by left].
  - destruct Hh as (h & Hg & -> & _). pose proof (Hwf _ _ Hg) as Hw.
    rewrite (destination_seg opts importee h He Hw). cbv zeta.
    pose proof (wellformedHash_alnums h Hw) as [Hn Ha].
    rewrite app_assoc. apply ext_of_seg_app; [|done|].
    + intros E. apply app_eq_nil in E as [_ E]. done.
    + rewrite <- app_assoc.
      by destruct (named_kept
                     (if keepName opts
                      then (Path.of_string
                              (Path.basename importee
                                 (effectiveExt (Path.extname importee))) ++ [tilde])%list
                      else []) _ _ Hn Ha Hshape) as (_ & _ & ? & _).
Qed.

End Names.

Section Defaults.

Variable world : World.

(** X12 (where the defaults put a file): when [rebase] is called with no
    options, or with options that leave out [keepName], [skipHash] and
    [assetFolder], a handled file is registered under its hash followed by its
    extension, with no folder before it.  The hash is made of letters and
    digits. *)
Theorem default_options_placement {Pattern : Type}
    (createFilter : option Pattern -> option Pattern -> string -> bool)
    (options : option (Given.t Pattern)) st importee importer id st' calls :
  let given := default Given.nothing options in
  Given.keepName given = None -> Given.skipHash given = None ->
  Given.assetFolder given = None ->
  resolveId (rebase createFilter options) world importee importer st
  = (Handled id, st', calls) ->
  exists i h,
    truthy importer = Some i
    /\ getHash world (sourceOf world i importee) = Fulfilled h
    /\ (wellformedHash h = true ->
        files st' !! sourceOf world i importee
        = Some (h ++ effectiveExt (Path.extname importee))).
Proof.
  intros given Hk Hs Ha H.
  apply handled_files in H as (i & fileHash & Hi & He & Hh & Hf).
  unfold hashed, rebase in Hh. cbn [skipHash] in Hh. fold given in Hh.
  rewrite Hs in Hh. simpl in Hh. destruct Hh as (h & Hg & -> & _).
  exists i, h. split; [done|]. split; [done|]. intros Hw.
  rewrite Hf. f_equal. unfold targetOf, targetName, rebase.
  cbn [keepName assetFolder]. fold given. rewrite Hk, Ha. simpl default.
  apply wellformedHash_alnums in Hw as [Hn Hal].
  pose proof (named_kept [] _ _ Hn Hal (effectiveExt_shaped importee He)) as Hkept.
  change (last_piece [] ++ ?x)%list with x in Hkept.
  unfold Path.join. simpl List.map. change (Path.of_string "") with (@nil ascii).
  rewrite of_string_app. rewrite join_chars_folderless by done.
  by rewrite to_string_app, !to_of_string.
Qed.

End Defaults.

(** *** Destinations that coincide *)

Section Collisions.

Variable opts : Options.
Variable world : World.

Import Path.
Local Open Scope list_scope.

Lemma last_piece_id X : slashfree X -> last_piece X = X.
Proof.
  intros HX. unfold last_piece.
  assert (Forall (fun c => not_slash c = true) (rev X)) as Hr.
  { apply Forall_rev. eapply Forall_impl; [exact HX|].
    intros c Hc. unfold not_slash. by rewrite Hc. }
  rewrite <- (app_nil_r (rev X)), take_while_app_all by done.
  simpl. by rewrite app_nil_r, rev_involutive.
Qed.

(** What [path.basename] gives for the name: it is not empty and holds no
    slash; with the extension after it, it is the last segment again, unless
    the extension is [.sss]. *)
Lemma base_shape p :
  extname p <> "" ->
  let B := of_string (basename p (effectiveExt (extname p))) in
  B <> [] /\ slashfree B
  /\ (extname p <> ".sss" -> B ++ of_string (extname p) = seg p).
Proof.
  intros He. cbv zeta.
  destruct (name_and_extension p He) as (name & Hn & Hseg & ->).
  pose proof (seg_kept p He) as (Hk1 & _ & _ & Hk4).
  destruct (String.eqb_spec (extname p) ".sss") as [Hs|Hs].
  - repeat split; done.
  - rewrite Hseg in Hk4. apply Forall_app in Hk4 as [Hk4 _]. by repeat split.
Qed.

Lemma target_stem s fileHash :
  of_string (targetOf opts s fileHash)
  = targetStem opts s fileHash ++ of_string (effectiveExt (extname s)).
Proof.
  unfold targetOf, targetName, targetStem.
  destruct fileHash as [h|]; [destruct (keepName opts)|];
    rewrite !of_string_app; by rewrite <- ?app_assoc.
Qed.

Lemma target_shape s fileHash :
  extname s <> "" ->
  (forall h, fileHash = Some h -> wellformedHash h = true) ->
  let Z := targetStem opts s fileHash in
  let e := of_string (effectiveExt (extname s)) in
  Z <> [] /\ kept (Z ++ e) /\ ext_of_seg (Z ++ e) = e.
Proof.
  intros He Hw. cbv zeta.
  pose proof (effectiveExt_shaped s He) as Hshape.
  destruct (base_shape s He) as (HB1 & HB2 & HB3).
  set (e := of_string (effectiveExt (extname s))) in *.
  assert (targetStem opts s fileHash <> [] /\ kept (targetStem opts s fileHash ++ e)) as [HZ Hk].
  { unfold targetStem. destruct fileHash as [h|].
    - destruct (wellformedHash_alnums h (Hw h eq_refl)) as [Hn Ha].
      destruct (keepName opts).
      + split; [by destruct (of_string (basename s (effectiveExt (extname s))))|].
        pose proof (named_kept
                      (of_string (basename s (effectiveExt (extname s))) ++ [tilde])
                      (of_string h) e Hn Ha Hshape) as Hk.
        rewrite last_piece_snoc, last_piece_id in Hk by done.
        by rewrite <- !app_assoc in *.
      + split; [done|]. by apply (named_kept [] (of_string h) e).
    - split; [done|]. unfold e, effectiveExt in *.
      destruct (String.eqb_spec (extname s) ".sss") as [Hs|Hs].
      + destruct (of_string (basename s ".pcss")) as [|c B] eqn:EB; [done|].
        repeat split; [done| | |].
        * intros Hd. apply (f_equal (@length ascii)) in Hd.
          simpl in Hd. rewrite length_app in Hd. simpl in Hd. lia.
        * intros Hd. apply (f_equal (@length ascii)) in Hd.
          simpl in Hd. rewrite length_app in Hd. simpl in Hd. lia.
        * apply Forall_app. split; [done|]. by repeat constructor.
      + rewrite (HB3 Hs). by apply seg_kept. }
  split; [done|]. split; [done|].
  apply ext_of_seg_app; [done|done|]. by destruct Hk as (_ & _ & ? & _).
Qed.

(** The last segment of a destination is the name the file is registered
    under. *)
Lemma destination_segment s fileHash :
  extname s <> "" ->
  (forall h, fileHash = Some h -> wellformedHash h = true) ->
  seg (join [assetFolder opts; targetOf opts s fileHash])
  = of_string (targetOf opts s fileHash).
Proof.
  intros He Hw. destruct (target_shape s fileHash He Hw) as (_ & Hk & _).
  rewrite <- target_stem in Hk.
  unfold seg, join. rewrite of_to_string.
  change (List.map of_string [assetFolder opts; targetOf opts s fileHash])
    with ([of_string (assetFolder opts)] ++ [of_string (targetOf opts s fileHash)]).
  apply tail_seg_ends_in; [apply Hk|apply Hk|].
  apply ends_exactly_ends_in, join_chars_ends_exactly; [done|].
  exists []. split; [done|by left].
Qed.

Lemma stems_and_extensions s1 s2 fh1 fh2 :
  extname s1 <> "" -> extname s2 <> "" ->
  (forall h, fh1 = Some h -> wellformedHash h = true) ->
  (forall h, fh2 = Some h -> wellformedHash h = true) ->
  join [assetFolder opts; targetOf opts s1 fh1]
  = join [assetFolder opts; targetOf opts s2 fh2]
  <-> targetStem opts s1 fh1 = targetStem opts s2 fh2
      /\ effectiveExt (extname s1) = effectiveExt (extname s2).
Proof.
  intros He1 He2 Hw1 Hw2.
  destruct (target_shape s1 fh1 He1 Hw1) as (_ & _ & Hx1).
  destruct (target_shape s2 fh2 He2 Hw2) as (_ & _ & Hx2).
  split.
  - intros Hd. apply (f_equal seg) in Hd.
    rewrite !destination_segment, !target_stem in Hd by done.
    assert (of_string (effectiveExt (extname s1))
            = of_string (effectiveExt (extname s2))) as Hext
      by (by rewrite <- Hx1, <- Hx2, Hd).
    rewrite Hext in Hd. apply app_inv_tail in Hd.
    split; [done|by apply of_string_inj].
  - intros [Hz Hext]. do 3 f_equal. apply of_string_inj.
    by rewrite !target_stem, Hz, Hext.
Qed.

Lemma stems_named B1 B2 h1 h2 :
  alnums h1 -> alnums h2 ->
  B1 ++ [tilde] ++ h1 = B2 ++ [tilde] ++ h2 <-> B1 = B2 /\ h1 = h2.
Proof.
  intros Ha1 Ha2. split; [|by intros [-> ->]].
  intros Heq. apply (f_equal (@rev ascii)) in Heq.
  rewrite !rev_app_distr in Heq. simpl in Heq. rewrite <- !app_assoc in Heq.
  simpl in Heq.
  assert (forall h, alnums h -> tilde ∉ rev h) as Hnt.
  { intros h Hh Hin. apply Forall_rev in Hh. rewrite Forall_forall in Hh.
    by apply Hh, is_alnum_not_tilde in Hin. }
  apply first_split in Heq as [Hh HB]; [|by apply Hnt|by apply Hnt].
  apply (f_equal (@rev ascii)) in Hh, HB. rewrite !rev_involutive in Hh, HB.
  done.
Qed.

(** Two paths with an extension other than [.sss] have the same last segment
    exactly when [path.basename] gives them the same name and they have the
    same extension. *)
Lemma same_segment s1 s2 :
  extname s1 <> "" -> extname s2 <> "" ->
  extname s1 <> ".sss" -> extname s2 <> ".sss" ->
  seg s1 = seg s2
  <-> of_string (basename s1 (effectiveExt (extname s1)))
      = of_string (basename s2 (effectiveExt (extname s2)))
      /\ effectiveExt (extname s1) = effectiveExt (extname s2).
Proof.
  intros He1 He2 Hs1 Hs2.
  destruct (base_shape s1 He1) as (_ & _ & H1).
  destruct (base_shape s2 He2) as (_ & _ & H2).
  specialize (H1 Hs1). specialize (H2 Hs2).
  assert (effectiveExt (extname s1) = extname s1) as E1
    by (unfold effectiveExt; by apply String.eqb_neq in Hs1 as ->).
  assert (effectiveExt (extname s2) = extname s2) as E2
    by (unfold effectiveExt; by apply String.eqb_neq in Hs2 as ->).
  rewrite E1, E2 in *. split.
  - intros Hseg.
    assert (extname s1 = extname s2) as Hext.
    { rewrite (extname_seg s1), (extname_seg s2). by rewrite Hseg. }
    split; [|done]. rewrite <- H1, <- H2 in Hseg. rewrite Hext in Hseg |- *.
    by apply app_inv_tail in Hseg.
  - intros [HB Hext]. by rewrite <- H1, <- H2, HB, Hext.
Qed.

(** C10 (collision resistance), as amended: take two files registered in a
    build, however the calls overlap, their hashes being non-empty strings of
    letters and digits.  When their extensions differ, [.pcss] standing for
    [.sss], their destinations differ.  With hashing on, their destinations
    differ when their hashes differ; when the name is not kept, they are the
    same exactly when hash and extension are the same; when the name is kept,
    exactly when hash and file name are the same.  With hashing off, they are
    the same exactly when the file names are the same.  (The two statements
    on file names are for files that do not end in [.sss].) *)
Theorem destination_collisions st tasks s1 s2 d1 d2 :
  (forall h, getHash world s1 = Fulfilled h -> wellformedHash h = true) ->
  (forall h, getHash world s2 = Fulfilled h -> wellformedHash h = true) ->
  interleaved opts world st tasks ->
  files st !! s1 = Some d1 -> files st !! s2 = Some d2 ->
  let ext1 := effectiveExt (extname s1) in
  let ext2 := effectiveExt (extname s2) in
  let plain := extname s1 <> ".sss" /\ extname s2 <> ".sss" in
  (ext1 <> ext2 -> d1 <> d2)
  /\ if skipHash opts then
       plain -> (d1 = d2 <-> seg s1 = seg s2)
     else
       exists h1 h2,
         getHash world s1 = Fulfilled h1 /\ getHash world s2 = Fulfilled h2
         /\ (h1 <> h2 -> d1 <> d2)
         /\ if keepName opts then
              plain -> (d1 = d2 <-> h1 = h2 /\ seg s1 = seg s2)
            else
              (d1 = d2 <-> h1 = h2 /\ ext1 = ext2).
Proof.
  intros Hw1 Hw2 Hst Hl1 Hl2. cbv zeta.
  destruct (interleaved_recorded opts world st tasks Hst) as [Hrec _].
  destruct (Hrec _ _ Hl1) as (He1 & fh1 & Hf1 & ->).
  destruct (Hrec _ _ Hl2) as (He2 & fh2 & Hf2 & ->).
  assert (forall h, fh1 = Some h -> wellformedHash h = true) as Hwf1.
  { intros h ->. unfold hashOf in Hf1. destruct (skipHash opts); [done|].
    destruct Hf1 as (h' & Hg & [= ->]). by apply Hw1. }
  assert (forall h, fh2 = Some h -> wellformedHash h = true) as Hwf2.
  { intros h ->. unfold hashOf in Hf2. destruct (skipHash opts); [done|].
    destruct Hf2 as (h' & Hg & [= ->]). by apply Hw2. }
  pose proof (stems_and_extensions s1 s2 fh1 fh2 He1 He2 Hwf1 Hwf2) as Hiff.
  split; [intros Hne Hd; apply Hiff in Hd as [_ Hd]; done|].
  unfold hashOf in Hf1, Hf2. destruct (skipHash opts).
  - subst fh1 fh2. intros [Hs1 Hs2]. rewrite Hiff. unfold targetStem.
    symmetry. by apply same_segment.
  - destruct Hf1 as (h1 & Hg1 & ->), Hf2 as (h2 & Hg2 & ->).
    exists h1, h2. split; [done|]. split; [done|].
    destruct (wellformedHash_alnums h1 (Hw1 _ Hg1)) as [_ Ha1].
    destruct (wellformedHash_alnums h2 (Hw2 _ Hg2)) as [_ Ha2].
    unfold targetStem in Hiff. destruct (keepName opts).
    + rewrite (stems_named _ _ _ _ Ha1 Ha2) in Hiff. split.
      * intros Hne Hd. apply Hiff in Hd as [[_ Hd] _]. by apply of_string_inj in Hd.
      * intros [Hs1 Hs2]. rewrite Hiff, (same_segment s1 s2 He1 He2 Hs1 Hs2).
        split.
        -- intros [[HB Hh] Hext]. by apply of_string_inj in Hh.
        -- intros [-> [HB Hext]]. done.
    + split.
      * intros Hne Hd. apply Hiff in Hd as [Hd _]. by apply of_string_inj in Hd.
      * rewrite Hiff. split.
        -- intros [Hh Hext]. by apply of_string_inj in Hh.
        -- by intros [-> ->].
Qed.

End Collisions.

(** *** The emitter *)

Section Emission.

Variable opts : Options.
Variable world : World.


Lemma promiseAll_all_fulfilled ps :
  (forall p, p ∈ ps -> p.2 = Fulfilled tt) -> (promiseAll ps).2 = Fulfilled tt.
Proof.
  induction ps as [|[c r] ps IH]; intros H; [done|]. simpl.
  pose proof (H (c, r) ltac:(by left)) as Hr. simpl in Hr. subst r.
  destruct (promiseAll ps) as [cs rs]. simpl in *. apply IH.
  intros p Hp. apply H. by right.
Qed.

(** X14 (when the emitter succeeds): [generateBundle] is fulfilled exactly
    when the output options name a place to write to and the operation on
    every file recorded in [files] is fulfilled.  When they name neither a
    directory nor a file, an empty directory name counting for none, it is
    rejected with a type error that is not wrapped, and nothing is done. *)
Theorem emission_succeeds_iff file dir st :
  ((generateBundle opts world file dir st).2 = Fulfilled tt <->
   exists outputFolder,
     outputFolderOf file dir = Some outputFolder
     /\ forall src, is_Some (files st !! src) ->
                    (emitOne opts world st outputFolder src).2 = Fulfilled tt)
  /\ (truthy dir = None -> file = None ->
      generateBundle opts world file dir st
      = ([], Rejected (TypeError "ERR_INVALID_ARG_TYPE"))).
Proof.
  split.
  - unfold generateBundle. destruct (outputFolderOf file dir) as [out|]; simpl.
    + split.
      * intros H. exists out. split; [done|]. intros src Hsrc.
        destruct (promiseAll _) as [calls [[]|e]] eqn:E; [|done].
        apply (promiseAll_fulfilled
                 (List.map (emitOne opts world st out) (JsObject.keys (files st))) tt).
        -- by rewrite E.
        -- apply list_elem_of_In, in_map, list_elem_of_In. by apply keys_lookup.
      * intros (out' & [= <-] & H).
        assert ((promiseAll (List.map (emitOne opts world st out)
                               (JsObject.keys (files st)))).2 = Fulfilled tt) as Hall.
        { apply promiseAll_all_fulfilled. intros p Hp.
          apply list_elem_of_In, in_map_iff in Hp as (k & <- & Hk).
          apply H, keys_lookup. by apply list_elem_of_In. }
        destruct (promiseAll _) as [calls [[]|e]]; [done|discriminate Hall].
    + split; [done|]. by intros (out' & ? & _).
  - intros Hd ->. unfold generateBundle, outputFolderOf. by rewrite Hd.
Qed.

Lemma generateBundle_calls file dir st outputFolder :
  outputFolderOf file dir = Some outputFolder ->
  (generateBundle opts world file dir st).1
  = concat (List.map fst (List.map (emitOne opts world st outputFolder)
                            (JsObject.keys (files st)))).
Proof.
  intros Ho. unfold generateBundle. rewrite Ho. rewrite <- promiseAll_calls.
  by destruct (promiseAll _) as [calls [[]|e]].
Qed.

Lemma logAction_line st verb src dest c :
  c ∈ (logAction opts world st verb src dest).1 ->
  verbose opts = true
  /\ exists a b,
       rootRelative world st src = Some a
       /\ rootRelative world st dest = Some b
       /\ c = CallLog (verb ++ " " ++ a ++ " => " ++ b ++ "...").
Proof.
  unfold logAction. destruct (verbose opts); [|by intros ?%not_elem_of_nil].
  destruct (rootRelative world st src) as [a|], (rootRelative world st dest) as [b|];
    simpl; try by intros ?%not_elem_of_nil.
  intros ->%list_elem_of_singleton. split; [done|]. by exists a, b.
Qed.

Lemma emitOne_in st outputFolder k c :
  c ∈ (emitOne opts world st outputFolder k).1 ->
  exists relative,
    files st !! k = Some relative
    /\ ((verbose opts = true
         /\ exists a b,
              rootRelative world st k = Some a
              /\ rootRelative world st (Path.join [outputFolder; relative]) = Some b
              /\ c = CallLog
                       ((if bool_decide (is_Some (styleParser (Path.extname k)))
                         then "Processing" else "Copying")
                        ++ " " ++ a ++ " => " ++ b ++ "..."))
        \/ c ∈ (emitBody opts world outputFolder k relative).1).
Proof.
  unfold emitOne, emitBody.
  destruct (files st !! k) as [relative|]; [|by intros ?%not_elem_of_nil].
  intros Hin. exists relative. split; [done|]. revert Hin.
  case_bool_decide as Hs; unfold mbind, E_bind.
  - pose proof (logAction_line st "Processing" k (Path.join [outputFolder; relative]) c)
      as Hlog.
    destruct (logAction _ _ _ _ _ _) as [logs [[]|e]]; simpl in *;
      [|intros Hin; left; by apply Hlog].
    destruct (processStyle _ _ _ _ _) as [cs r] eqn:E. simpl.
    intros [Hin|Hin]%elem_of_app; [left; by apply Hlog|]. by right.
  - pose proof (logAction_line st "Copying" k (Path.join [outputFolder; relative]) c)
      as Hlog.
    destruct (logAction _ _ _ _ _ _) as [logs [[]|e]]; simpl in *;
      [|intros Hin; left; by apply Hlog].
    intros [Hin|Hin]%elem_of_app; [left; by apply Hlog|]. by right.
Qed.

Lemma emitBody_emitted st outputFolder src relative c :
  files st !! src = Some relative ->
  c ∈ (emitBody opts world outputFolder src relative).1 ->
  emitted opts world st outputFolder c.
Proof.
  intros Hl. unfold emitBody. case_bool_decide as Hs.
  - rewrite processStyle_run.
    destruct (readFile world src) as [text|e] eqn:Er; simpl.
    + destruct (postcssProcess world _ text _) as [[css map]|e] eqn:Ep; simpl.
      * intros Hin. repeat (apply elem_of_cons in Hin as [->|Hin]); simpl.
        -- by rewrite Hl.
        -- split; [done|]. by exists src, relative.
        -- exists src, relative, text, css, map. simpl. repeat split; try done. by left.
        -- exists src, relative, text, css, map. simpl. repeat split; try done. by right.
        -- by apply not_elem_of_nil in Hin.
      * intros Hin. repeat (apply elem_of_cons in Hin as [->|Hin]); simpl.
        -- by rewrite Hl.
        -- split; [done|]. by exists src, relative.
        -- by apply not_elem_of_nil in Hin.
    + intros ->%list_elem_of_singleton. simpl. by rewrite Hl.
  - intros ->%list_elem_of_singleton. simpl. split.
    + destruct (styleParser (Path.extname src)); [|done]. by destruct Hs.
    + by exists relative.
Qed.

(** X15 (what the emitter touches): every call [generateBundle] makes comes
    from a record of [files].  It copies a registered file that is no style
    sheet to the output folder joined with the recorded path; it reads
    registered style sheets only; it runs PostCSS on what it read, with the
    plugins the options give; it writes the result of that run to the joined
    path and to the same path followed by [.map]; it prints only when
    [verbose] is set, and then a line that names a registered file and its
    destination, both relative to the root; and it neither asks whether a
    file exists nor for a hash. *)
Theorem emitter_provenance file dir st outputFolder :
  outputFolderOf file dir = Some outputFolder ->
  Forall (emitted opts world st outputFolder) (generateBundle opts world file dir st).1.
Proof.
  intros Ho. rewrite (generateBundle_calls _ _ _ _ Ho).
  apply Forall_forall. intros c Hc.
  apply in_all_in_run in Hc as (k & _ & Hc).
  apply emitOne_in in Hc as (relative & Hl & [(Hv & a & b & Ha & Hb & ->)|Hc]).
  - simpl. split; [done|]. by exists k, relative, a, b.
  - by eapply emitBody_emitted.
Qed.





End Emission.

(** *** The root *)

Section Root.

Variable opts : Options.
Variable world : World.

(** The end of a resolution, the two roots being known. *)
Ltac root_leaf Hl :=
  repeat split; try done;
  try (by intros [? ?]); try (by intros _ [? ?]);
  try (intros _ _ Hno; exfalso; by eapply Hno);
  try (intros ? [= <-]; eexists _, _; repeat split;
       [exact Hl|try done; by intros ? [= <-]]).

(** C8 (root usage), as amended: a resolution that comes without a referrer
    assigns the root, to the directory of the resolved reference, and does
    nothing else.  Take two registries that differ in the root only, and a
    reference with a referrer: the call leaves each root as it is, and the
    [files] registry and the calls to the outside are the same for both; when
    both roots are set an answer that is no id is the same answer; and an id
    that is handed out is the root joined with the asset folder and the name
    under which the file is registered, followed by [.js], each registry with
    its own root.  In the emitter the root shows in the log lines only: when
    printing is off, or both roots are set, the reads, runs, writes and copies
    are the same, and so is the result.  And over whole builds, whatever their
    entry points, a source file has one destination. *)
Theorem root_usage st1 st2 file dir :
  wrappers st1 = wrappers st2 -> assets st1 = assets st2 -> files st1 = files st2 ->
  (forall importee importer,
      truthy importer = None ->
      resolveId opts world importee importer st1
      = (NotHandled, set_root (Path.dirname (Path.resolve (cwd world) [importee])) st1, []))
  /\ (forall importee importer i,
        truthy importer = Some i ->
        let run1 := resolveId opts world importee importer st1 in
        let run2 := resolveId opts world importee importer st2 in
        root run1.1.2 = root st1 /\ root run2.1.2 = root st2
        /\ files run1.1.2 = files run2.1.2
        /\ run1.2 = run2.2
        /\ (is_Some (root st1) -> is_Some (root st2) ->
            (forall id, run1.1.1 <> Handled id) -> run2.1.1 = run1.1.1)
        /\ (forall id1,
              run1.1.1 = Handled id1 ->
              exists r1 fileTarget,
                root st1 = Some r1
                /\ files run1.1.2 !! sourceOf world i importee
                   = Some (Path.join [assetFolder opts; fileTarget])
                /\ id1 = replace_backslashes
                           (Path.join [r1; assetFolder opts; fileTarget]) ++ ".js"
                /\ forall r2,
                     root st2 = Some r2 ->
                     run2.1.1
                     = Handled (replace_backslashes
                                  (Path.join [r2; assetFolder opts; fileTarget]) ++ ".js")))
  /\ (verbose opts = false \/ (is_Some (root st1) /\ is_Some (root st2)) ->
      effects (generateBundle opts world file dir st1).1
      = effects (generateBundle opts world file dir st2).1
      /\ (generateBundle opts world file dir st1).2
         = (generateBundle opts world file dir st2).2)
  /\ (forall reqs1 reqs2 src d1 d2,
        files (resolveAll opts world reqs1 fresh).1.2 !! src = Some d1 ->
        files (resolveAll opts world reqs2 fresh).1.2 !! src = Some d2 ->
        d1 = d2).
Proof.
  intros Hw Ha Hf. split; [|split; [|split]].
  - intros importee importer Hi. resolve_unfold. by rewrite Hi.
  - intros importee importer i Hi. cbv zeta. resolve_unfold. rewrite Hi. simpl.
    rewrite <- Ha.
    destruct (JsObject.non_null (assets st1) importee); [by repeat split|].
    destruct (String.eqb_spec (Path.extname importee) "") as [|He]; [by repeat split|].
    destruct (scriptExtensions (Path.extname importee)); [by repeat split|]. simpl.
    fold (effectiveExt (Path.extname importee)). fold (sourceOf world i importee).
    destruct (filter opts _); [|by repeat split].
    destruct (pathExists world _); [|by repeat split]. simpl.
    pose proof (sourceOf_not_proto world i importee He) as Hk.
    assert (forall fileHash : option string,
              let fileTarget :=
                targetName opts
                  (Path.basename importee (effectiveExt (Path.extname importee)))
                  (effectiveExt (Path.extname importee)) fileHash in
              JsObject.set (files st1) (sourceOf world i importee)
                (Path.join [assetFolder opts; fileTarget])
              !! sourceOf world i importee
              = Some (Path.join [assetFolder opts; fileTarget])) as Hl
      by (intros fileHash; by apply set_lookup_eq).
    destruct (skipHash opts); simpl.
    + specialize (Hl None).
      destruct (root st1) as [r1|] eqn:E1, (root st2) as [r2|] eqn:E2; simpl;
        rewrite <- ?Hf; root_leaf Hl.
    + destruct (getHash world _) as [h|e]; simpl; [|by repeat split].
      specialize (Hl (Some h)).
      destruct (root st1) as [r1|] eqn:E1, (root st2) as [r2|] eqn:E2; simpl;
        rewrite <- ?Hf; root_leaf Hl.
  - intros Hq. by apply emission_ignores_root.
  - intros reqs1 reqs2 src d1 d2.
    destruct (interleaved_recorded opts world _ []
                (resolveAll_interleaved opts world reqs1)) as [Hr1 _].
    destruct (interleaved_recorded opts world _ []
                (resolveAll_interleaved opts world reqs2)) as [Hr2 _].
    by apply (recorded_functional opts world _ _ src d1 d2).
Qed.

End Root.

(** ** The claims on the sample builds *)

(** C1, counterexample: the image is resolved from two referrers in one
    build; both resolutions are handled with the same redirect id, and the
    hash of the one source file is computed twice, not once. *)
Lemma hash_computed_per_resolution :
  let run := resolveAll sampleOptions sampleWorld
               [entry; logo; ("../logo.png", Some "/proj/src/pages/about.js")] fresh in
  run.1.1 = [NotHandled; Handled "/proj/src/static/SjafTEhN.png.js";
             Handled "/proj/src/static/SjafTEhN.png.js"]
  /\ hashComputations "/proj/src/logo.png" run.2 = 2
  /\ hashComputations "/proj/src/logo.png" run.2 <> 1.
Proof. vm_compute. repeat split; try reflexivity. discriminate. Qed.

(** C2, counterexample: the id is claimed, and a resolution of that exact id
    that comes without a referrer is not excluded: the test on the referrer
    comes first and delegates. *)
Lemma claimed_entry_not_excluded :
  assets sampleRegistry !! "/proj/src/static/SjafTEhN.png" = Some true
  /\ (resolveId sampleOptions sampleWorld "/proj/src/static/SjafTEhN.png" None
        sampleRegistry).1.1 = NotHandled
  /\ (resolveId sampleOptions sampleWorld "/proj/src/static/SjafTEhN.png" None
        sampleRegistry).1.1 <> Excluded.
Proof. vm_compute. repeat split; try reflexivity. discriminate. Qed.

(** C3 (naming policy), where the code departs from it: for a reference
    that ends in [.sss] the extension is replaced by [.pcss] before
    [path.basename] is asked to take it off, so the name keeps [.sss]: the
    style sheet is registered under [style.sss.pcss], and under
    [style.sss~hash.pcss] when the name is kept, where base name plus
    extension is [style.pcss] and [style~hash.pcss].  An image next to it is
    registered under its base name plus extension. *)
Lemma naming_slip_on_sss :
  let reference := "./style.sss" in
  let referrer := Some "/proj/src/index.js" in
  let plain := (resolveId plainOptions sampleWorld reference referrer entered).1.2 in
  let named := (resolveId namedOptions sampleWorld reference referrer entered).1.2 in
  let image := (resolveId plainOptions sampleWorld "./logo.png" referrer entered).1.2 in
  Path.basename reference (Path.extname reference) = "style"
  /\ Path.basename reference ".pcss" = "style.sss"
  /\ files plain !! "/proj/src/style.sss" = Some "static/style.sss.pcss"
  /\ files plain !! "/proj/src/style.sss" <> Some (Path.join ["static"; "style" ++ ".pcss"])
  /\ getHash sampleWorld "/proj/src/style.sss" = Fulfilled "abcdEFGH"
  /\ files named !! "/proj/src/style.sss" = Some "static/style.sss~abcdEFGH.pcss"
  /\ files named !! "/proj/src/style.sss"
     <> Some (Path.join ["static"; "style" ++ "~" ++ "abcdEFGH" ++ ".pcss"])
  /\ files image !! "/proj/src/logo.png" = Some (Path.join ["static"; "logo" ++ ".png"]).
Proof. vm_compute. repeat split; try reflexivity; discriminate. Qed.

(** C5, counterexample: the claimed id names no file on disk, yet its
    resolution from the redirect module is excluded, not delegated. *)
Lemma claimed_missing_not_delegated :
  let importee := "/proj/src/static/SjafTEhN.png" in
  let importer := "/proj/src/static/SjafTEhN.png.js" in
  pathExists sampleWorld (sourceOf sampleWorld importer importee) = false
  /\ (resolveId sampleOptions sampleWorld importee (Some importer) sampleRegistry).1.1
     = Excluded
  /\ (resolveId sampleOptions sampleWorld importee (Some importer) sampleRegistry).1.1
     <> NotHandled.
Proof. vm_compute. repeat split; try reflexivity. discriminate. Qed.

(** C7, counterexample: one build fails while it copies an image, another
    while it processes a style sheet; the two errors thrown are the same, so
    nothing computed from the error tells the stage. *)
Lemma finalize_error_hides_stage :
  ~ exists stageOf : JsError -> Stage,
      (forall calls e,
          generateBundle sampleOptions copyFailsWorld (Some "/proj/out/index.js") None
            sampleRegistry = (calls, Rejected e) -> stageOf e = Copying)
      /\ (forall calls e,
          generateBundle sampleOptions processFailsWorld (Some "/proj/out/index.js") None
            styleRegistry = (calls, Rejected e) -> stageOf e = Processing).
Proof.
  intros (stageOf & Hcopy & Hprocess).
  specialize (Hcopy
                (generateBundle sampleOptions copyFailsWorld (Some "/proj/out/index.js")
                   None sampleRegistry).1
                (Error "Error while copying files: EACCES: permission denied, copyfile")).
  specialize (Hprocess
                (generateBundle sampleOptions processFailsWorld (Some "/proj/out/index.js")
                   None styleRegistry).1
                (Error "Error while copying files: EACCES: permission denied, copyfile")).
  assert (Copying = Processing) as H; [|discriminate H].
  rewrite <- Hcopy, <- Hprocess; [reflexivity | vm_compute; reflexivity | vm_compute; reflexivity].
Qed.

(** C8, counterexample: two registries that differ in the root only give
    two different redirect ids for the same reference.  And two builds that
    differ in their entry point only, hence in the root, differ in what they
    answer, in what they ask of the outside and in what they register: a
    reference spelled like the asset id of the first build is excluded there,
    and resolved as a file in the second. *)
Lemma root_changes_redirect_id :
  let reference : Request :=
    ("/proj/a/static/SjafTEhN.png", Some "/proj/src/index.js") in
  let buildA := resolveAll sampleOptions staleWorld
                  [("a/main.js", None); logo; reference] fresh in
  let buildB := resolveAll sampleOptions staleWorld
                  [("b/main.js", None); logo; reference] fresh in
  (wrappers rootA = wrappers rootB /\ assets rootA = assets rootB
   /\ files rootA = files rootB
   /\ (resolveId sampleOptions sampleWorld "./logo.png" (Some "/proj/src/index.js")
         rootA).1.1 = Handled "/proj/a/static/SjafTEhN.png.js"
   /\ (resolveId sampleOptions sampleWorld "./logo.png" (Some "/proj/src/index.js")
         rootB).1.1 = Handled "/proj/b/static/SjafTEhN.png.js"
   /\ (resolveId sampleOptions sampleWorld "./logo.png" (Some "/proj/src/index.js")
         rootA).1.1
      <> (resolveId sampleOptions sampleWorld "./logo.png" (Some "/proj/src/index.js")
            rootB).1.1)
  /\ buildA.1.1 = [NotHandled; Handled "/proj/a/static/SjafTEhN.png.js"; Excluded]
  /\ buildB.1.1 = [NotHandled; Handled "/proj/b/static/SjafTEhN.png.js";
                   Handled "/proj/b/static/SjafTEhN.png.js"]
  /\ buildA.2 = [CallPathExists "/proj/src/logo.png"; CallGetHash "/proj/src/logo.png"]
  /\ buildB.2 = [CallPathExists "/proj/src/logo.png"; CallGetHash "/proj/src/logo.png";
                 CallPathExists "/proj/a/static/SjafTEhN.png";
                 CallGetHash "/proj/a/static/SjafTEhN.png"]
  /\ files buildA.1.2 !! "/proj/a/static/SjafTEhN.png" = None
  /\ files buildB.1.2 !! "/proj/a/static/SjafTEhN.png" = Some "static/SjafTEhN.png".
Proof. vm_compute. repeat split; try reflexivity. discriminate. Qed.

(** C10, counterexample: without hashing two images of the same name in two
    folders get one destination; with hashing two files of the same content
    do. *)
Lemma destinations_collide :
  let requests := [entry; ("./a/logo.png", Some "/proj/src/index.js");
                   ("./b/logo.png", Some "/proj/src/index.js")] in
  let plain := (resolveAll plainOptions sampleWorld requests fresh).1.2 in
  let hashing := (resolveAll sampleOptions sampleWorld requests fresh).1.2 in
  "/proj/src/a/logo.png" <> "/proj/src/b/logo.png"
  /\ files plain !! "/proj/src/a/logo.png" = Some "static/logo.png"
  /\ files plain !! "/proj/src/b/logo.png" = Some "static/logo.png"
  /\ files hashing !! "/proj/src/a/logo.png" = Some "static/SjafTEhN.png"
  /\ files hashing !! "/proj/src/b/logo.png" = Some "static/SjafTEhN.png".
Proof. vm_compute. repeat split; try reflexivity. discriminate. Qed.

(** ** The theorems at work on the sample builds *)

Lemma registration_idempotent_witness :
  let first := resolveId sampleOptions sampleWorld "./logo.png"
                 (Some "/proj/src/index.js") entered in
  let second := resolveId sampleOptions sampleWorld "../logo.png"
                  (Some "/proj/src/pages/about.js") sampleRegistry in
  files second.1.2 !! "/proj/src/logo.png" = files first.1.2 !! "/proj/src/logo.png"
  /\ is_Some (files first.1.2 !! "/proj/src/logo.png")
  /\ (skipHash sampleOptions = false ->
      hashComputations "/proj/src/logo.png" first.2 = 1
      /\ hashComputations "/proj/src/logo.png" second.2 = 1).
Proof.
  intros first second.
  refine (registration_idempotent sampleOptions sampleWorld entered sampleRegistry
            "./logo.png" (Some "/proj/src/index.js")
            "../logo.png" (Some "/proj/src/pages/about.js")
            "/proj/src/index.js" "/proj/src/pages/about.js"
            "/proj/src/static/SjafTEhN.png.js" "/proj/src/static/SjafTEhN.png.js"
            first.1.2 second.1.2 first.2 second.2 _ _ _ _ _);
    vm_compute; reflexivity.
Defined.

Lemma cycle_breaking_witness :
  let run := resolveId sampleOptions sampleWorld "/proj/src/static/SjafTEhN.png"
               (Some "/proj/src/static/SjafTEhN.png.js") sampleRegistry in
  run.1.1 = Excluded
  /\ wrappers run.1.2 = wrappers sampleRegistry
  /\ assets run.1.2 = assets sampleRegistry
  /\ files run.1.2 = files sampleRegistry
  /\ run.2 = [].
Proof.
  intros run.
  refine (cycle_breaking sampleOptions sampleWorld sampleRegistry
            "/proj/src/static/SjafTEhN.png" (Some "/proj/src/static/SjafTEhN.png.js")
            run.1.1 run.1.2 run.2 _ _);
    vm_compute; reflexivity.
Defined.


Lemma delegation_witness :
  let run := resolveId sampleOptions sampleWorld "./missing.png"
               (Some "/proj/src/index.js") sampleRegistry in
  pathExists sampleWorld "/proj/src/missing.png" = false
  /\ run.1.1 = NotHandled
  /\ wrappers run.1.2 = wrappers sampleRegistry
  /\ assets run.1.2 = assets sampleRegistry
  /\ files run.1.2 = files sampleRegistry.
Proof.
  intros run. split; [vm_compute; reflexivity|].
  refine (delegation sampleOptions sampleWorld sampleRegistry "./missing.png"
            (Some "/proj/src/index.js") run.1.1 run.1.2 run.2 _ _ _).
  - vm_compute; reflexivity.
  - right. right. intros i Hi. injection Hi as <-. right. vm_compute; reflexivity.
  - vm_compute; reflexivity.
Defined.

Lemma dialect_aware_emission_witness :
  let calls :=
    [CallReadFile "/proj/src/style.sss";
     CallProcess [postcssImport; postcssSmartAsset "copy" true false]
       "bytes of /proj/src/style.sss"
       {| from := "/proj/src/style.sss"; to := "/proj/out/static/abcdEFGH.pcss";
          extensions := [".pcss"; ".css"; ".sss"; ".scss"; ".sass"];
          map_inline := false; parser := Some postcssSugarSS |};
     CallOutputFile "/proj/out/static/abcdEFGH.pcss" "css of bytes of /proj/src/style.sss";
     CallOutputFile "/proj/out/static/abcdEFGH.pcss.map"
       "map of bytes of /proj/src/style.sss";
     CallCopy "/proj/src/logo.png" "/proj/out/static/SjafTEhN.png"] in
  generateBundle sampleOptions sampleWorld (Some "/proj/out/index.js") None mixedRegistry
  = (calls, Fulfilled tt)
  /\ exists outputFolder,
       (exists f, Some "/proj/out/index.js" = Some f /\ outputFolder = Path.dirname f) /\
       forall src relative,
         files mixedRegistry !! src = Some relative ->
         let fileDest := Path.join [outputFolder; relative] in
         let ext := Path.extname src in
         let plugins :=
           [postcssImport;
            postcssSmartAsset "copy" (negb (skipHash sampleOptions))
              (keepName sampleOptions)] in
         let options :=
           {| from := src; to := fileDest;
              extensions := [".pcss"; ".css"; ".sss"; ".scss"; ".sass"];
              map_inline := false;
              parser := if String.eqb ext ".sss" then Some postcssSugarSS
                        else if String.eqb ext ".scss" then Some postcssScss
                        else if String.eqb ext ".sass" then Some postcssSass
                        else None |} in
         if bool_decide (ext ∈ [".pcss"; ".css"; ".sss"; ".scss"; ".sass"]) then
           exists content css map,
             CallReadFile src ∈ calls /\
             readFile sampleWorld src = Fulfilled content /\
             CallProcess plugins content options ∈ calls /\
             postcssProcess sampleWorld plugins content options = Fulfilled (css, map) /\
             CallOutputFile fileDest css ∈ calls /\
             outputFile sampleWorld fileDest css = Fulfilled tt /\
             CallOutputFile (fileDest ++ ".map") map ∈ calls /\
             outputFile sampleWorld (fileDest ++ ".map") map = Fulfilled tt /\
             forall d, CallCopy src d ∉ calls
         else
           CallCopy src fileDest ∈ calls /\ copy sampleWorld src fileDest = Fulfilled tt
           /\ CallReadFile src ∉ calls.
Proof.
  intros calls. split; [vm_compute; reflexivity|].
  refine (dialect_aware_emission sampleOptions sampleWorld (Some "/proj/out/index.js")
            None mixedRegistry calls _).
  vm_compute; reflexivity.
Defined.

Lemma finalize_error_policy_witness :
  exists src e,
    is_Some (files sampleRegistry !! src)
    /\ (emitOne sampleOptions copyFailsWorld sampleRegistry "/proj/out" src).2 = Rejected e
    /\ generateBundle sampleOptions copyFailsWorld (Some "/proj/out/index.js") None
         sampleRegistry
       = (concat (List.map fst
                    (List.map (emitOne sampleOptions copyFailsWorld sampleRegistry "/proj/out")
                       (JsObject.keys (files sampleRegistry)))),
          Rejected (Error ("Error while copying files: " ++ render e))).
Proof.
  refine (finalize_error_policy sampleOptions copyFailsWorld (Some "/proj/out/index.js")
            None sampleRegistry "/proj/out" _ _).
  - vm_compute; reflexivity.
  - exists "/proj/src/logo.png", (Failure "EACCES: permission denied, copyfile").
    split; [exists "static/SjafTEhN.png"|]; vm_compute; reflexivity.
Defined.

Lemma root_usage_witness :
  let st1 := sampleRegistry in
  let st2 := relocatedRegistry in
  let style st := resolveId loudOptions sampleWorld "./style.sss"
                    (Some "/proj/src/index.js") st in
  let bundle st := generateBundle loudOptions sampleWorld (Some "/proj/out/index.js")
                     None st in
  (root st1 = Some "/proj/src" /\ root st2 = Some "/srv/app"
   /\ (style st1).1.1 = Handled "/proj/src/static/abcdEFGH.pcss.js"
   /\ (style st2).1.1 = Handled "/srv/app/static/abcdEFGH.pcss.js"
   /\ (bundle st1).1
      = [CallLog "Copying logo.png => ../out/static/SjafTEhN.png...";
         CallCopy "/proj/src/logo.png" "/proj/out/static/SjafTEhN.png"]
   /\ (bundle st2).1
      = [CallLog
           "Copying ../../proj/src/logo.png => ../../proj/out/static/SjafTEhN.png...";
         CallCopy "/proj/src/logo.png" "/proj/out/static/SjafTEhN.png"])
  /\ resolveId loudOptions sampleWorld "lib/main.js" None st1
     = (NotHandled,
        set_root (Path.dirname (Path.resolve (cwd sampleWorld) ["lib/main.js"])) st1, [])
  /\ (root (style st1).1.2 = root st1 /\ root (style st2).1.2 = root st2
      /\ files (style st1).1.2 = files (style st2).1.2
      /\ (style st1).2 = (style st2).2
      /\ (is_Some (root st1) -> is_Some (root st2) ->
          (forall id, (style st1).1.1 <> Handled id) -> (style st2).1.1 = (style st1).1.1)
      /\ (forall id1,
            (style st1).1.1 = Handled id1 ->
            exists r1 fileTarget,
              root st1 = Some r1
              /\ files (style st1).1.2 !! sourceOf sampleWorld "/proj/src/index.js" "./style.sss"
                 = Some (Path.join [assetFolder loudOptions; fileTarget])
              /\ id1 = replace_backslashes
                         (Path.join [r1; assetFolder loudOptions; fileTarget]) ++ ".js"
              /\ forall r2,
                   root st2 = Some r2 ->
                   (style st2).1.1
                   = Handled (replace_backslashes
                                (Path.join [r2; assetFolder loudOptions; fileTarget])
                              ++ ".js")))
  /\ (effects (bundle st1).1 = effects (bundle st2).1 /\ (bundle st1).2 = (bundle st2).2)
  /\ (forall src d1 d2,
        files (resolveAll loudOptions sampleWorld [("a/main.js", None); logo] fresh).1.2
        !! src = Some d1 ->
        files (resolveAll loudOptions sampleWorld [("b/main.js", None); logo] fresh).1.2
        !! src = Some d2 ->
        d1 = d2).
Proof.
  intros st1 st2 style bundle.
  split; [vm_compute; repeat split; reflexivity|].
  destruct (root_usage loudOptions sampleWorld st1 st2 (Some "/proj/out/index.js") None)
    as (Hentry & Hcall & Hemit & Hbuild); [vm_compute; reflexivity..|].
  split; [apply Hentry; reflexivity|].
  split; [apply (Hcall "./style.sss" (Some "/proj/src/index.js") "/proj/src/index.js");
          reflexivity|].
  split; [apply Hemit; right; split; eexists; vm_compute; reflexivity|].
  apply Hbuild.
Defined.

Lemma registry_invariant_holds_witness :
  isAbsolute (cwd sampleWorld) = true
  /\ registry_invariant
       (resolveAll sampleOptions sampleWorld [entry; logo; style] fresh).1.2.
Proof.
  split; [vm_compute; reflexivity|].
  refine (registry_invariant_holds sampleOptions sampleWorld [entry; logo; style] _).
  vm_compute; reflexivity.
Defined.

Lemma destination_collisions_witness :
  let s1 := "/proj/src/a/logo.png" in
  let s2 := "/proj/src/b/logo.png" in
  let d1 := "static/SjafTEhN.png" in
  let d2 := "static/SjafTEhN.png" in
  (files twinRegistry !! s1 = Some d1 /\ files twinRegistry !! s2 = Some d2)
  /\ (effectiveExt (Path.extname s1) <> effectiveExt (Path.extname s2) -> d1 <> d2)
  /\ exists h1 h2,
       getHash sampleWorld s1 = Fulfilled h1 /\ getHash sampleWorld s2 = Fulfilled h2
       /\ (h1 <> h2 -> d1 <> d2)
       /\ (d1 = d2
           <-> h1 = h2
               /\ effectiveExt (Path.extname s1) = effectiveExt (Path.extname s2)).
Proof.
  intros s1 s2 d1 d2. split; [vm_compute; split; reflexivity|].
  refine (destination_collisions sampleOptions sampleWorld twinRegistry [] s1 s2 d1 d2
            _ _ _ _ _).
  - intros h H. vm_compute in H. injection H as <-. reflexivity.
  - intros h H. vm_compute in H. injection H as <-. reflexivity.
  - exact (resolveAll_interleaved sampleOptions sampleWorld
             [entry; ("./a/logo.png", Some "/proj/src/index.js");
              ("./b/logo.png", Some "/proj/src/index.js")]).
  - vm_compute; reflexivity.
  - vm_compute; reflexivity.
Defined.

(** ** The further properties at work on the sample builds *)

Lemma two_round_resolution_witness :
  exists assetId,
    "/proj/src/static/SjafTEhN.png.js" = assetId ++ ".js"
    /\ load (fun _ => "") sampleRegistry "/proj/src/static/SjafTEhN.png.js"
       = Some ("export { default } from " ++ quote ++ assetId ++ quote ++ ";")
    /\ resolveId sampleOptions sampleWorld assetId
         (Some "/proj/src/static/SjafTEhN.png.js") sampleRegistry
       = (Excluded, sampleRegistry, []).
Proof.
  refine (two_round_resolution sampleOptions sampleWorld (fun _ => "") entered
            "./logo.png" (Some "/proj/src/index.js") "/proj/src/static/SjafTEhN.png.js"
            sampleRegistry
            [CallPathExists "/proj/src/logo.png"; CallGetHash "/proj/src/logo.png"] _).
  vm_compute; reflexivity.
Defined.

Lemma handled_is_rebased_witness :
  exists i assetId,
    truthy (Some "/proj/src/index.js") = Some i
    /\ "/proj/src/static/SjafTEhN.png.js" = assetId ++ ".js"
    /\ isRebaseWrapper sampleRegistry "/proj/src/static/SjafTEhN.png.js" = true
    /\ isRebaseAsset sampleRegistry assetId = true
    /\ isRebaseSource sampleRegistry (sourceOf sampleWorld i "./logo.png") = true.
Proof.
  refine (handled_is_rebased sampleOptions sampleWorld entered
            "./logo.png" (Some "/proj/src/index.js") "/proj/src/static/SjafTEhN.png.js"
            sampleRegistry
            [CallPathExists "/proj/src/logo.png"; CallGetHash "/proj/src/logo.png"] _ _).
  - intros r Hr. vm_compute in Hr. injection Hr as <-. vm_compute; reflexivity.
  - vm_compute; reflexivity.
Defined.

Lemma rejection_cases_witness :
  earlyRun.1.1 = Thrown (TypeError "ERR_INVALID_ARG_TYPE")
  /\ files earlyRun.1.2 !! "/proj/src/logo.png" = Some "static/SjafTEhN.png"
  /\ exists i, truthy (Some "/proj/src/index.js") = Some i /\
       let src := sourceOf sampleWorld i "./logo.png" in
       (skipHash sampleOptions = false
        /\ getHash sampleWorld src = Rejected (TypeError "ERR_INVALID_ARG_TYPE")
        /\ earlyRun.1.2 = fresh
        /\ earlyRun.2 = [CallPathExists src; CallGetHash src])
       \/ (root fresh = None
           /\ TypeError "ERR_INVALID_ARG_TYPE" = TypeError "ERR_INVALID_ARG_TYPE"
           /\ wrappers earlyRun.1.2 = wrappers fresh
           /\ assets earlyRun.1.2 = assets fresh
           /\ root earlyRun.1.2 = None
           /\ exists fileHash,
                hashed sampleOptions sampleWorld src fileHash earlyRun.2
                /\ files earlyRun.1.2 !! src
                   = Some (Path.join [assetFolder sampleOptions;
                                      targetOf sampleOptions "./logo.png" fileHash])).
Proof.
  split; [vm_compute; reflexivity|]. split; [vm_compute; reflexivity|].
  refine (rejection_cases sampleOptions sampleWorld fresh "./logo.png"
            (Some "/proj/src/index.js") (TypeError "ERR_INVALID_ARG_TYPE")
            earlyRun.1.2 earlyRun.2 _).
  vm_compute; reflexivity.
Defined.

Lemma prototype_names_are_excluded_witness :
  resolveId sampleOptions sampleWorld "constructor" (Some "/proj/src/index.js") fresh
  = (Excluded, fresh, [])
  /\ is_Some (load (fun _ => "function Object() { [native code] }") fresh "constructor").
Proof.
  refine (prototype_names_are_excluded sampleOptions sampleWorld
            (fun _ => "function Object() { [native code] }") fresh "constructor"
            (Some "/proj/src/index.js") _ _).
  - apply list_elem_of_In. vm_compute. left. reflexivity.
  - exists "/proj/src/index.js". reflexivity.
Defined.

Lemma handed_out_ids_witness :
  (resolveAll sampleOptions sampleWorld sampleBuild fresh).1.1
  = [NotHandled; Handled "/proj/src/static/SjafTEhN.png.js"]
  /\ isAbsolute "/proj/src/static/SjafTEhN.png.js" = true
  /\ ends_with "/proj/src/static/SjafTEhN.png.js" ".js"
  /\ backslash ∉ Path.of_string "/proj/src/static/SjafTEhN.png.js".
Proof.
  split; [vm_compute; reflexivity|].
  refine (handed_out_ids sampleOptions sampleWorld sampleBuild
            "/proj/src/static/SjafTEhN.png.js" _ _).
  - vm_compute; reflexivity.
  - apply list_elem_of_In. vm_compute. right. left. reflexivity.
Defined.

Lemma registered_files_are_vetted_witness :
  Path.extname "/proj/src/logo.png" <> ""
  /\ scriptExtensions (Path.extname "/proj/src/logo.png") = false
  /\ filter sampleOptions "/proj/src/logo.png" = true
  /\ pathExists sampleWorld "/proj/src/logo.png" = true
  /\ (isAbsolute (cwd sampleWorld) = true -> isAbsolute "/proj/src/logo.png" = true).
Proof.
  refine (registered_files_are_vetted sampleOptions sampleWorld sampleRegistry []
            "/proj/src/logo.png" "static/SjafTEhN.png" _ _).
  - exact (resolveAll_interleaved sampleOptions sampleWorld sampleBuild).
  - vm_compute; reflexivity.
Defined.

Lemma wrappers_mirror_assets_witness :
  wrappers mixedRegistry !! "/proj/src/static/abcdEFGH.pcss.js"
  = Some "/proj/src/static/abcdEFGH.pcss"
  /\ (forall id assetId,
        wrappers mixedRegistry !! id = Some assetId ->
        id = assetId ++ ".js" /\ assetId <> "")
  /\ (forall assetId b,
        assets mixedRegistry !! assetId = Some b ->
        b = true /\ wrappers mixedRegistry !! (assetId ++ ".js") = Some assetId).
Proof.
  split; [vm_compute; reflexivity|].
  refine (wrappers_mirror_assets sampleOptions sampleWorld mixedRegistry [] _).
  exact (resolveAll_interleaved sampleOptions sampleWorld [entry; logo; style]).
Defined.

Lemma kept_name_witness :
  files plainStyleRun.1.2 !! "/proj/src/style.sss" = Some "static/style.sss.pcss"
  /\ exists i name fileHash,
       truthy (Some "/proj/src/index.js") = Some i
       /\ name <> ""
       /\ Path.to_string (seg "./style.sss") = name ++ Path.extname "./style.sss"
       /\ hashOf plainOptions sampleWorld (sourceOf sampleWorld i "./style.sss") fileHash
       /\ files plainStyleRun.1.2 !! sourceOf sampleWorld i "./style.sss"
          = Some (Path.join
                    [assetFolder plainOptions;
                     if String.eqb (Path.extname "./style.sss") ".sss"
                     then targetName plainOptions (name ++ ".sss") ".pcss" fileHash
                     else targetName plainOptions name (Path.extname "./style.sss")
                            fileHash]).
Proof.
  split; [vm_compute; reflexivity|].
  refine (kept_name plainOptions sampleWorld entered "./style.sss"
            (Some "/proj/src/index.js") "/proj/src/static/style.sss.pcss.js"
            plainStyleRun.1.2 plainStyleRun.2 _).
  vm_compute; reflexivity.
Defined.

Lemma destination_keeps_extension_witness :
  exists i dest,
    truthy (Some "/proj/src/index.js") = Some i
    /\ files styleRegistry !! sourceOf sampleWorld i "./style.sss" = Some dest
    /\ Path.extname dest = effectiveExt (Path.extname "./style.sss").
Proof.
  refine (destination_keeps_extension sampleOptions sampleWorld entered "./style.sss"
            (Some "/proj/src/index.js") "/proj/src/static/abcdEFGH.pcss.js"
            styleRegistry
            [CallPathExists "/proj/src/style.sss"; CallGetHash "/proj/src/style.sss"]
            _ _).
  - intros file h. unfold sampleWorld, getHash.
    destruct (String.eqb file "/proj/src/style.sss"); intros [= <-]; reflexivity.
  - vm_compute; reflexivity.
Defined.

Lemma default_options_placement_witness :
  defaultRun.1.1 = Handled "/proj/src/SjafTEhN.png.js"
  /\ exists i h,
       truthy (Some "/proj/src/index.js") = Some i
       /\ getHash sampleWorld (sourceOf sampleWorld i "./logo.png") = Fulfilled h
       /\ (wellformedHash h = true ->
           files defaultRun.1.2 !! sourceOf sampleWorld i "./logo.png"
           = Some (h ++ effectiveExt (Path.extname "./logo.png"))).
Proof.
  split; [vm_compute; reflexivity|].
  refine (default_options_placement sampleWorld everyFile None entered "./logo.png"
            (Some "/proj/src/index.js") "/proj/src/SjafTEhN.png.js"
            defaultRun.1.2 defaultRun.2 _ _ _ _);
    vm_compute; reflexivity.
Defined.

Lemma emitter_provenance_witness :
  Forall (emitted sampleOptions sampleWorld mixedRegistry "/proj/out")
    (generateBundle sampleOptions sampleWorld (Some "/proj/out/index.js") None
       mixedRegistry).1.
Proof.
  refine (emitter_provenance sampleOptions sampleWorld (Some "/proj/out/index.js") None
            mixedRegistry "/proj/out" _).
  vm_compute; reflexivity.
Defined.


Lemma predicates_agree_with_hooks_witness :
  let id := "/proj/src/static/SjafTEhN.png" in
  (isRebaseWrapper sampleRegistry id = true
   <-> is_Some (load (fun _ => "") sampleRegistry id))
  /\ (isRebaseAsset sampleRegistry id = true
      <-> (resolveId sampleOptions sampleWorld id
             (Some "/proj/src/static/SjafTEhN.png.js") sampleRegistry).1.1 = Excluded)
  /\ (isRebaseSource sampleRegistry id = true
      <-> id ∈ JsObject.keys (files sampleRegistry) \/ id ∈ JsObject.prototype_keys).
Proof.
  intros id.
  refine (predicates_agree_with_hooks sampleOptions sampleWorld (fun _ => "")
            sampleRegistry [] id "/proj/src/static/SjafTEhN.png.js" _ _).
  - exact (resolveAll_interleaved sampleOptions sampleWorld sampleBuild).
  - discriminate.
Defined.

Lemma referrer_counts_through_directory_witness :
  resolveId sampleOptions sampleWorld "./logo.png" (Some "/proj/src/index.js") entered
  = resolveId sampleOptions sampleWorld "./logo.png" (Some "/proj/src/about.js") entered.
Proof.
  refine (referrer_counts_through_directory sampleOptions sampleWorld entered
            "./logo.png" "/proj/src/index.js" "/proj/src/about.js" _ _ _).
  - discriminate.
  - discriminate.
  - left. vm_compute; reflexivity.
Defined.

Lemma resolution_is_repeatable_witness :
  JsObject.non_null (assets sampleRegistry) "./logo.png" = false
  /\ resolveId sampleOptions sampleWorld "./logo.png" (Some "/proj/src/index.js")
       sampleRegistry
     = if JsObject.non_null (assets sampleRegistry) "./logo.png"
       then (Excluded, sampleRegistry, [])
       else (Handled "/proj/src/static/SjafTEhN.png.js", sampleRegistry,
             [CallPathExists "/proj/src/logo.png"; CallGetHash "/proj/src/logo.png"]).
Proof.
  split; [vm_compute; reflexivity|].
  refine (resolution_is_repeatable sampleOptions sampleWorld entered "./logo.png"
            (Some "/proj/src/index.js") "/proj/src/static/SjafTEhN.png.js"
            sampleRegistry
            [CallPathExists "/proj/src/logo.png"; CallGetHash "/proj/src/logo.png"] _).
  vm_compute; reflexivity.
Defined.
